(** * Producer / consumer over a bounded blocking queue (mq.py, demo-mq.py)

    The queue of [mq.py] is a monitor: one lock, two condition variables
    sharing it, and a deque.  Every method body is embedded as a transition
    function over its program points, one transition per statement that
    touches the lock, a condition or the deque.  Threads are interleaved by
    an explicit schedule; a method called while no other thread runs is the
    same transition function iterated until it returns or blocks. *)

From Stdlib Require Import ZArith Lia String.
From stdpp Require Import base tactics option list.

Open Scope Z_scope.

(** ** Python values *)

(** [float] values: not-a-number, the infinities, the zeros, and
    [(-1)^neg * m * 2^e]. *)
Inductive pyfloat :=
| FNan
| FInf (neg : bool)
| FZero (neg : bool)
| FFinite (neg : bool) (m : positive) (e : Z).

(** What a caller can pass as [maxsize] and compare with [<=] against an
    [int]: the annotation says [int], nothing checks it. *)
Inductive pynum :=
| PyInt (z : Z)
| PyFloat (f : pyfloat).

(** Exact comparison of an [int] with a finite float, as CPython's
    [float_richcompare] does it: [z ? m * 2^e]. *)
Definition Z_cmp_scaled (z : Z) (m : Z) (e : Z) : comparison :=
  if 0 <=? e then z ?= m * 2 ^ e else z * 2 ^ (- e) ?= m.

(** [None] stands for an unordered pair (a NaN operand): every ordering
    test on it is [False]. *)
Definition Z_cmp_float (z : Z) (f : pyfloat) : option comparison :=
  match f with
  | FNan => None
  | FInf true => Some Gt
  | FInf false => Some Lt
  | FZero _ => Some (z ?= 0)
  | FFinite true m e => Some (Z_cmp_scaled z (Z.neg m) e)
  | FFinite false m e => Some (Z_cmp_scaled z (Z.pos m) e)
  end.

Definition Z_cmp_num (z : Z) (n : pynum) : option comparison :=
  match n with
  | PyInt c => Some (z ?= c)
  | PyFloat f => Z_cmp_float z f
  end.

(** [n <= z] *)
Definition num_le_Z (n : pynum) (z : Z) : bool :=
  match Z_cmp_num z n with
  | Some Gt | Some Eq => true
  | _ => false
  end.

(** [z >= n]: the reflected form of the same comparison. *)
Definition Z_ge_num (z : Z) (n : pynum) : bool := num_le_Z n z.

(** [z <= n] *)
Definition Z_le_num (z : Z) (n : pynum) : bool :=
  match Z_cmp_num z n with
  | Some Lt | Some Eq => true
  | _ => false
  end.

(** An object is an identity (its address) and a value. *)
Inductive pyval :=
| VInt (z : Z)
| VStr (s : string)
| VObject.

Record pyobj := PyObj { addr : nat; val : pyval }.

(** [a is b] *)
Definition py_is (a b : pyobj) : bool := Nat.eqb (addr a) (addr b).

(** [a == b]: by value for [int] and [str], by identity for [object()]. *)
Definition py_eq (a b : pyobj) : bool :=
  py_is a b ||
  match val a, val b with
  | VInt x, VInt y => x =? y
  | VStr s, VStr t => String.eqb s t
  | _, _ => false
  end.

Inductive exn :=
| ValueError (msg : string)
| IndexError (msg : string).

(** ** BoundedBlockingQueue *)

Definition tid := nat.

Record BoundedBlockingQueue := Queue {
  _maxsize : pynum;
  _queue : list pyobj;          (* the deque, leftmost element first *)
  _lock : option tid;           (* threading.Lock: the thread whose acquire succeeded *)
  _not_empty : list tid;        (* Condition._waiters, in arrival order *)
  _not_full : list tid;
}.

Definition __init__ (maxsize : pynum) : exn + BoundedBlockingQueue :=
  if num_le_Z maxsize 0 then inl (ValueError "maxsize must be > 0")
  else inr {| _maxsize := maxsize; _queue := [];
              _lock := None; _not_empty := []; _not_full := [] |}.

Definition set_queue (b : list pyobj) (q : BoundedBlockingQueue) :=
  {| _maxsize := _maxsize q; _queue := b; _lock := _lock q;
     _not_empty := _not_empty q; _not_full := _not_full q |}.

Definition set_lock (l : option tid) (q : BoundedBlockingQueue) :=
  {| _maxsize := _maxsize q; _queue := _queue q; _lock := l;
     _not_empty := _not_empty q; _not_full := _not_full q |}.

Inductive condition := NotEmpty | NotFull.

Definition waiters (c : condition) (q : BoundedBlockingQueue) : list tid :=
  match c with NotEmpty => _not_empty q | NotFull => _not_full q end.

Definition set_waiters (c : condition) (w : list tid) (q : BoundedBlockingQueue) :=
  match c with
  | NotEmpty => {| _maxsize := _maxsize q; _queue := _queue q; _lock := _lock q;
                   _not_empty := w; _not_full := _not_full q |}
  | NotFull => {| _maxsize := _maxsize q; _queue := _queue q; _lock := _lock q;
                  _not_empty := _not_empty q; _not_full := w |}
  end.

(** *** The lock and the conditions *)

(** [Lock.acquire()]: enabled only while the lock is free. *)
Definition acquire (me : tid) (q : BoundedBlockingQueue) : option BoundedBlockingQueue :=
  match _lock q with
  | None => Some (set_lock (Some me) q)
  | Some _ => None
  end.

Definition release (q : BoundedBlockingQueue) : BoundedBlockingQueue :=
  set_lock None q.

(** [Condition.wait()], first half: register as a waiter, release the lock. *)
Definition wait_enter (c : condition) (me : tid) (q : BoundedBlockingQueue) :=
  release (set_waiters c (waiters c q ++ [me]) q).

(** [Condition.wait()], second half: enabled once a [notify] has taken the
    caller off the waiters and the lock is free; takes the lock again. *)
Definition wait_resume (c : condition) (me : tid) (q : BoundedBlockingQueue)
  : option BoundedBlockingQueue :=
  if decide (me ∈ waiters c q) then None else acquire me q.

(** [Condition.notify()]: wakes the longest-waiting thread, if any. *)
Definition notify (c : condition) (q : BoundedBlockingQueue) :=
  set_waiters c (tail (waiters c q)) q.

Definition len (q : BoundedBlockingQueue) : Z := Z.of_nat (length (_queue q)).

(** *** put *)

Inductive put_pc :=
| PutEnter     (* with self._not_full: *)
| PutTest      (* while len(self._queue) >= self._maxsize: *)
| PutWait      (* self._not_full.wait(), releasing *)
| PutBlocked   (* self._not_full.wait(), asleep *)
| PutAppend    (* self._queue.append(item) *)
| PutNotify    (* self._not_empty.notify() *)
| PutExit.     (* end of the with block *)

(** One transition of [put(item)]: [None] when the thread cannot move,
    otherwise the queue and the next program point ([None]: returned). *)
Definition put_step (me : tid) (item : pyobj) (pc : put_pc) (q : BoundedBlockingQueue)
  : option (BoundedBlockingQueue * option put_pc) :=
  match pc with
  | PutEnter => q' ← acquire me q; Some (q', Some PutTest)
  | PutTest => Some (q, Some (if Z_ge_num (len q) (_maxsize q) then PutWait else PutAppend))
  | PutWait => Some (wait_enter NotFull me q, Some PutBlocked)
  | PutBlocked => q' ← wait_resume NotFull me q; Some (q', Some PutTest)
  | PutAppend => Some (set_queue (_queue q ++ [item]) q, Some PutNotify)
  | PutNotify => Some (notify NotEmpty q, Some PutExit)
  | PutExit => Some (release q, None)
  end.

(** *** get *)

Inductive get_pc :=
| GetEnter                  (* with self._not_empty: *)
| GetTest                   (* while not self._queue: *)
| GetWait                   (* self._not_empty.wait(), releasing *)
| GetBlocked                (* self._not_empty.wait(), asleep *)
| GetPop                    (* item = self._queue.popleft() *)
| GetNotify (item : pyobj)  (* self._not_full.notify() *)
| GetExit (item : pyobj)    (* return item, leaving the with block *)
| GetRaise (e : exn).       (* popleft raised: leaving the with block *)

Definition get_step (me : tid) (pc : get_pc) (q : BoundedBlockingQueue)
  : option (BoundedBlockingQueue * (get_pc + (exn + pyobj))) :=
  match pc with
  | GetEnter => q' ← acquire me q; Some (q', inl GetTest)
  | GetTest => Some (q, inl (match _queue q with [] => GetWait | _ :: _ => GetPop end))
  | GetWait => Some (wait_enter NotEmpty me q, inl GetBlocked)
  | GetBlocked => q' ← wait_resume NotEmpty me q; Some (q', inl GetTest)
  | GetPop =>
      match _queue q with
      | [] => Some (q, inl (GetRaise (IndexError "pop from an empty deque")))
      | item :: rest => Some (set_queue rest q, inl (GetNotify item))
      end
  | GetNotify item => Some (notify NotFull q, inl (GetExit item))
  | GetExit item => Some (release q, inr (inr item))
  | GetRaise e => Some (release q, inr (inl e))
  end.

(** *** qsize *)

Inductive qsize_pc :=
| QsizeEnter          (* with self._lock: *)
| QsizeLen            (* len(self._queue) *)
| QsizeExit (n : Z).  (* return, leaving the with block *)

Definition qsize_step (me : tid) (pc : qsize_pc) (q : BoundedBlockingQueue)
  : option (BoundedBlockingQueue * (qsize_pc + Z)) :=
  match pc with
  | QsizeEnter => q' ← acquire me q; Some (q', inl QsizeLen)
  | QsizeLen => Some (q, inl (QsizeExit (len q)))
  | QsizeExit n => Some (release q, inr n)
  end.

(** ** Calls, run bodies and threads *)

(** A method call in progress. *)
Inductive call :=
| Put (item : pyobj) (pc : put_pc)
| Get (pc : get_pc)
| Qsize (pc : qsize_pc).

Inductive retval :=
| RNone               (* put returned *)
| RItem (x : pyobj)   (* get returned x *)
| RInt (n : Z)        (* qsize returned n *)
| RRaise (e : exn).   (* the call raised e *)

Definition call_step (me : tid) (c : call) (q : BoundedBlockingQueue)
  : option (BoundedBlockingQueue * (call + retval)) :=
  match c with
  | Put item pc =>
      '(q', r) ← put_step me item pc q;
      Some (q', match r with Some pc' => inl (Put item pc') | None => inr RNone end)
  | Get pc =>
      '(q', r) ← get_step me pc q;
      Some (q', match r with
                | inl pc' => inl (Get pc')
                | inr (inr x) => inr (RItem x)
                | inr (inl e) => inr (RRaise e)
                end)
  | Qsize pc =>
      '(q', r) ← qsize_step me pc q;
      Some (q', match r with inl pc' => inl (Qsize pc') | inr n => inr (RInt n) end)
  end.

(** What a call does when no other thread runs. *)
Inductive outcome :=
| Returns (r : retval) (q : BoundedBlockingQueue)
| Blocks (q : BoundedBlockingQueue)
| OutOfFuel.

Fixpoint run_call (fuel : nat) (me : tid) (c : call) (q : BoundedBlockingQueue) : outcome :=
  match fuel with
  | O => OutOfFuel
  | S fuel' =>
      match call_step me c q with
      | None => Blocks q
      | Some (q', inr r) => Returns r q'
      | Some (q', inl c') => run_call fuel' me c' q'
      end
  end.

Definition call_fuel : nat := 8.

Definition put (me : tid) (q : BoundedBlockingQueue) (item : pyobj) : outcome :=
  run_call call_fuel me (Put item PutEnter) q.

Definition get (me : tid) (q : BoundedBlockingQueue) : outcome :=
  run_call call_fuel me (Get GetEnter) q.

Definition qsize (me : tid) (q : BoundedBlockingQueue) : outcome :=
  run_call call_fuel me (Qsize QsizeEnter) q.

(** The queue operations a thread can ask for. *)
Inductive op :=
| OpPut (item : pyobj)
| OpGet
| OpQsize.

Definition start (o : op) : call :=
  match o with
  | OpPut item => Put item PutEnter
  | OpGet => Get GetEnter
  | OpQsize => Qsize QsizeEnter
  end.

(** The code a thread runs, with its local variables.
    - [ProducerRun source sentinel sent]: [Producer.run]; [source] is what the
      [for] loop has not finished putting (its head is the item of the current
      iteration), [sent] tells that the final [put(self._sentinel)] returned.
    - [ConsumerRun dest sentinel stopped]: [Consumer.run]; [stopped] tells that
      the loop reached [break].
    - [Script todo results]: a caller making a fixed sequence of calls on the
      queue and keeping what they returned, as the tests do.
    - [Raised e]: ended by an uncaught exception. *)
Inductive program :=
| ProducerRun (source : list pyobj) (sentinel : pyobj) (sent : bool)
| ConsumerRun (dest : list pyobj) (sentinel : pyobj) (stopped : bool)
| Script (todo : list op) (results : list retval)
| Raised (e : exn).

(** The next call of a program between two calls; [None] once it has ended. *)
Definition next (p : program) : option op :=
  match p with
  | ProducerRun (item :: _) _ false => Some (OpPut item)
  | ProducerRun [] sentinel false => Some (OpPut sentinel)
  | ProducerRun _ _ true => None
  | ConsumerRun _ _ false => Some OpGet
  | ConsumerRun _ _ true => None
  | Script (o :: _) _ => Some o
  | Script [] _ => None
  | Raised _ => None
  end.

(** The program after its current call returned [r]. *)
Definition resume (p : program) (r : retval) : program :=
  match r, p with
  | RRaise e, _ => Raised e
  | _, ProducerRun (_ :: rest) sentinel false => ProducerRun rest sentinel false
  | _, ProducerRun [] sentinel false => ProducerRun [] sentinel true
  | RItem item, ConsumerRun dest sentinel false =>
      if py_is item sentinel then ConsumerRun dest sentinel true
      else ConsumerRun (dest ++ [item]) sentinel false
  | _, Script (_ :: todo) results => Script todo (results ++ [r])
  | _, _ => p
  end.

Record thread := Thread { prog : program; cur : option call }.

Definition finished (th : thread) : bool :=
  match cur th, next (prog th) with
  | None, None => true
  | _, _ => false
  end.

Definition thread_step (me : tid) (th : thread) (q : BoundedBlockingQueue)
  : option (thread * BoundedBlockingQueue) :=
  match cur th with
  | None => o ← next (prog th); Some (Thread (prog th) (Some (start o)), q)
  | Some c =>
      '(q', r) ← call_step me c q;
      Some (match r with
            | inl c' => Thread (prog th) (Some c')
            | inr v => Thread (resume (prog th) v) None
            end, q')
  end.

(** A thread running alone until its program ends. *)
Inductive run_outcome :=
| Ends (th : thread) (q : BoundedBlockingQueue)
| Stuck (th : thread) (q : BoundedBlockingQueue)
| NoFuel.

Fixpoint run_thread (fuel : nat) (me : tid) (th : thread) (q : BoundedBlockingQueue)
  : run_outcome :=
  match fuel with
  | O => NoFuel
  | S fuel' =>
      if finished th then Ends th q
      else match thread_step me th q with
           | None => Stuck th q
           | Some (th', q') => run_thread fuel' me th' q'
           end
  end.

(** ** Threads sharing one queue *)

Record system := System { queue : BoundedBlockingQueue; threads : list thread }.

(** Thread [t] makes one transition; [None] when it cannot (it has ended, it
    waits for the lock or it sleeps on a condition) or does not exist. *)
Definition step (t : tid) (s : system) : option system :=
  th ← threads s !! t;
  '(th', q') ← thread_step t th (queue s);
  Some (System q' (<[t := th']> (threads s))).

(** A schedule names the thread to run at each turn; a turn given to a
    thread that cannot move changes nothing. *)
Fixpoint exec (sched : list tid) (s : system) : system :=
  match sched with
  | [] => s
  | t :: sched' => exec sched' (default s (step t s))
  end.

Definition all_finished (s : system) : bool := forallb finished (threads s).

(** ** Callers used by the properties *)

(** [for item in items: q.put(item)], by one thread alone; [None] when a
    call does not return. *)
Fixpoint put_all (me : tid) (q : BoundedBlockingQueue) (items : list pyobj)
  : option BoundedBlockingQueue :=
  match items with
  | [] => Some q
  | item :: rest =>
      match put me q item with
      | Returns RNone q' => put_all me q' rest
      | _ => None
      end
  end.

(** [[q.get() for _ in range(n)]], by one thread alone. *)
Fixpoint get_n (me : tid) (q : BoundedBlockingQueue) (n : nat)
  : option (list pyobj * BoundedBlockingQueue) :=
  match n with
  | O => Some ([], q)
  | S n' =>
      match get me q with
      | Returns (RItem item) q' =>
          '(items, q'') ← get_n me q' n'; Some (item :: items, q'')
      | _ => None
      end
  end.

(** [n] transitions of one thread. *)
Fixpoint thread_steps (n : nat) (me : tid) (th : thread) (q : BoundedBlockingQueue)
  : option (thread * BoundedBlockingQueue) :=
  match n with
  | O => Some (th, q)
  | S n' => '(th', q') ← thread_step me th q; thread_steps n' me th' q'
  end.

Definition raises_ValueError (r : exn + BoundedBlockingQueue) : Prop :=
  ∃ msg, r = inl (ValueError msg).

Definition positive_integer (n : pynum) : Prop :=
  match n with
  | PyInt z => 0 < z
  | PyFloat _ => False
  end.

(** A capacity that is zero or below it. *)
Definition nonpositive (n : pynum) : Prop :=
  match n with
  | PyInt z => z <= 0
  | PyFloat FNan => False
  | PyFloat (FInf neg) => neg = true
  | PyFloat (FZero _) => True
  | PyFloat (FFinite neg _ _) => neg = true
  end.

Definition empty_queue (maxsize : pynum) : BoundedBlockingQueue :=
  {| _maxsize := maxsize; _queue := []; _lock := None;
     _not_empty := []; _not_full := [] |}.

(** The float 2.5 *)
Definition two_and_a_half : pynum := PyFloat (FFinite false 5 (-1)).

(** The calls a program makes, in order, when call [o] answers [answer o]. *)
Fixpoint requests (fuel : nat) (answer : op → retval) (p : program) : list op :=
  match fuel with
  | O => []
  | S fuel' =>
      match next p with
      | None => []
      | Some o => o :: requests fuel' answer (resume p (answer o))
      end
  end.

(** [put] returns [None] whenever it returns. *)
Definition put_returns (o : op) : retval := RNone.

(** Transitions of one pass through a loop body: entering the call and the
    five program points of an unblocked [put] or [get]. *)
Definition pass : nat := 6.

(** ** The monitor discipline, for any number of threads *)

(** The program points inside a with block: the thread owns the lock. *)
Definition holds_lock (th : thread) : bool :=
  match cur th with
  | Some (Put _ (PutEnter | PutBlocked)) => false
  | Some (Get (GetEnter | GetBlocked)) => false
  | Some (Qsize QsizeEnter) => false
  | Some _ => true
  | None => false
  end.

(** What a [Script] has collected so far. *)
Definition results (p : program) : list retval :=
  match p with
  | Script _ rs => rs
  | _ => []
  end.

Definition in_range (c : Z) (r : retval) : Prop :=
  match r with
  | RInt n => 0 <= n <= c
  | _ => True
  end.

(** What holds of the buffer when a thread stands at a program point. *)
Definition at_ok (c : Z) (q : BoundedBlockingQueue) (cl : call) : Prop :=
  match cl with
  | Put _ PutAppend => len q < c
  | Put _ PutWait => c <= len q
  | Get GetPop => _queue q ≠ []
  | Get GetWait => _queue q = []
  | Get (GetRaise _) => False
  | Qsize (QsizeExit n) => 0 <= n <= c
  | _ => True
  end.

Definition thread_ok (c : Z) (t : tid) (q : BoundedBlockingQueue) (th : thread) : Prop :=
  Forall (in_range c) (results (prog th)) ∧
  (holds_lock th = true ↔ _lock q = Some t) ∧
  (∀ cl, cur th = Some cl → at_ok c q cl).

Definition monitor_inv (c : Z) (s : system) : Prop :=
  _maxsize (queue s) = PyInt c ∧
  len (queue s) <= c ∧
  (∀ t, _lock (queue s) = Some t → is_Some (threads s !! t)) ∧
  (∀ t th, threads s !! t = Some th → thread_ok c t (queue s) th).

(** Threads that have not started, one per program. *)
Definition spawn (progs : list program) : list thread :=
  map (λ p, Thread p None) progs.

(** ** One producer and one consumer *)

Definition producer_tid : tid := 0%nat.
Definition consumer_tid : tid := 1%nat.

(** The items whose [put] has not returned. *)
Definition todo (p : program) : list pyobj :=
  match p with
  | ProducerRun source sentinel false => source ++ [sentinel]
  | _ => []
  end.

(** The items the producer has not appended yet. *)
Definition pending (th : thread) : list pyobj :=
  match cur th with
  | Some (Put _ (PutNotify | PutExit)) => tail (todo (prog th))
  | _ => todo (prog th)
  end.

(** The item the consumer has popped and not yet looked at. *)
Definition in_hand (th : thread) : list pyobj :=
  match cur th with
  | Some (Get (GetNotify item | GetExit item)) => [item]
  | _ => []
  end.

Definition is_not (sentinel : pyobj) (item : pyobj) : Prop :=
  py_is item sentinel = false.

(** The producer thread runs [Producer.run]; inside a [put] it is putting
    the first item it still has to put. *)
Definition producer_ok (sentinel : pyobj) (th : thread) : Prop :=
  match prog th, cur th with
  | ProducerRun _ sen _, None => sen = sentinel
  | ProducerRun source sen false, Some (Put item _) =>
      sen = sentinel ∧ head (source ++ [sen]) = Some item
  | _, _ => False
  end.

(** The consumer thread runs [Consumer.run]; it calls [get] only while its
    loop goes on, and the sentinel is not in its destination. *)
Definition consumer_ok (sentinel : pyobj) (th : thread) : Prop :=
  match prog th, cur th with
  | ConsumerRun dest sen _, None => sen = sentinel ∧ Forall (is_not sentinel) dest
  | ConsumerRun dest sen false, Some (Get _) =>
      sen = sentinel ∧ Forall (is_not sentinel) dest
  | _, _ => False
  end.

(** Nothing is lost, duplicated or reordered: what the consumer has taken,
    then the buffer, then what the producer still has to append, is the
    whole stream. *)
Definition stream_ok (stream : list pyobj) (sentinel : pyobj)
    (q : BoundedBlockingQueue) (thP thC : thread) : Prop :=
  match prog thC with
  | ConsumerRun dest _ true =>
      ∃ x, py_is x sentinel = true ∧
           stream = dest ++ [x] ++ _queue q ++ pending thP
  | ConsumerRun dest _ false =>
      stream = dest ++ in_hand thC ++ _queue q ++ pending thP
  | _ => False
  end.

(** No wake-up is lost: a thread asleep on a condition that has not been
    notified yet faces a buffer that still justifies its sleep, or the other
    thread stands right before the [notify] that wakes it. *)
Definition waiters_ok (c : Z) (q : BoundedBlockingQueue) (thP thC : thread) : Prop :=
  (_not_empty q = [] ∨
   (_not_empty q = [consumer_tid] ∧ cur thC = Some (Get GetBlocked) ∧
    (_queue q = [] ∨ ∃ x, cur thP = Some (Put x PutNotify)))) ∧
  (_not_full q = [] ∨
   (_not_full q = [producer_tid] ∧ (∃ x, cur thP = Some (Put x PutBlocked)) ∧
    (c <= len q ∨ ∃ x, cur thC = Some (Get (GetNotify x))))).

Definition spsc_inv (c : Z) (stream : list pyobj) (sentinel : pyobj) (s : system) : Prop :=
  ∃ thP thC,
    threads s = [thP; thC] ∧
    monitor_inv c s ∧
    producer_ok sentinel thP ∧
    consumer_ok sentinel thC ∧
    stream_ok stream sentinel (queue s) thP thC ∧
    waiters_ok c (queue s) thP thC.

(** The two threads of a session, not started. *)
Definition session (source : list pyobj) (sentinel : pyobj) (q : BoundedBlockingQueue) : system :=
  System q (spawn [ProducerRun source sentinel false; ConsumerRun [] sentinel false]).

(** The destination list the consumer thread appends to. *)
Definition destination (s : system) : list pyobj :=
  match threads s !! consumer_tid with
  | Some (Thread (ConsumerRun dest _ _) _) => dest
  | _ => []
  end.

(** ** Termination measure *)

Definition weight : nat := 10.

(** How far a [put] is from its [notify]; a thread asleep on [not_full]
    ranks lowest, and highest once it has been notified. *)
Definition put_rank (asleep : bool) (pc : put_pc) : nat :=
  match pc with
  | PutEnter => 3
  | PutTest => 2
  | PutWait => 1
  | PutBlocked => if asleep then 0 else 3
  | PutAppend => 1
  | PutNotify => 0
  | PutExit => 5
  end.

Definition get_rank (asleep : bool) (pc : get_pc) : nat :=
  match pc with
  | GetEnter => 3
  | GetTest => 2
  | GetWait => 1
  | GetBlocked => if asleep then 0 else 3
  | GetPop => 1
  | GetNotify _ => 0
  | GetExit _ => 5
  | GetRaise _ => 0
  end.

Definition rank (me : tid) (q : BoundedBlockingQueue) (th : thread) : nat :=
  match cur th with
  | None => 4
  | Some (Put _ pc) => put_rank (bool_decide (me ∈ _not_full q)) pc
  | Some (Get pc) => get_rank (bool_decide (me ∈ _not_empty q)) pc
  | Some (Qsize _) => 0
  end.

(** The [notify] calls the producer has still to make. *)
Definition puts_left (thP : thread) : nat :=
  length (match cur thP with
          | Some (Put _ PutExit) => tail (todo (prog thP))
          | _ => todo (prog thP)
          end).

(** The [notify] calls the consumer has still to make to take the whole
    stream. *)
Definition gets_left (q : BoundedBlockingQueue) (thP thC : thread) : nat :=
  (length (_queue q) + length (pending thP) +
   match cur thC with Some (Get (GetNotify _)) => 1 | _ => 0 end)%nat.

Definition measure (s : system) : nat :=
  match threads s with
  | [thP; thC] =>
      (weight * (puts_left thP + gets_left (queue s) thP thC) +
       rank producer_tid (queue s) thP + rank consumer_tid (queue s) thC)%nat
  | _ => O
  end.

(** The turns of a schedule on which the chosen thread moves. *)
Fixpoint moves (sched : list tid) (s : system) : nat :=
  match sched with
  | [] => O
  | t :: sched' =>
      match step t s with
      | Some s' => S (moves sched' s')
      | None => moves sched' s
      end
  end.

(** ** demo-mq.py *)

(** [list(range(1, 21))] *)
Definition source_data : list pyobj :=
  map (λ k, PyObj k (VInt (Z.of_nat k))) (seq 1 20).

(** [object()], allocated after the integers. *)
Definition SENTINEL : pyobj := PyObj 0 VObject.


(** The interleaving in which each thread completes one call at a time, the
    producer first: six turns for a [put], six for a [get]. *)
Definition lockstep (calls : nat) : list tid :=
  concat (replicate calls (replicate pass producer_tid ++ replicate pass consumer_tid)).

(** The interleaving in which the producer runs as long as the number of
    turns lasts, and then the consumer. *)
Definition producer_first (turns : nat) : list tid :=
  replicate turns producer_tid ++ replicate turns consumer_tid.

(** Some thread sleeps on a condition. *)
Definition asleep (s : system) : bool :=
  existsb (λ th, match cur th with
                 | Some (Put _ PutBlocked) | Some (Get GetBlocked) => true
                 | _ => false
                 end) (threads s).

(** Some thread sleeps on a condition at some turn of the schedule. *)
Fixpoint ever_asleep (sched : list tid) (s : system) : bool :=
  asleep s ||
  match sched with
  | [] => false
  | t :: sched' => ever_asleep sched' (default s (step t s))
  end.

(** ** Sleeping and waking *)

(** The thread stands at the [notify] of condition [c]. *)
Definition notifies (c : condition) (th : thread) : bool :=
  match c, cur th with
  | NotFull, Some (Get (GetNotify _)) => true
  | NotEmpty, Some (Put _ PutNotify) => true
  | _, _ => false
  end.

(** Some move of the schedule is a [notify] of condition [c]. *)
Fixpoint notified (c : condition) (sched : list tid) (s : system) : bool :=
  match sched with
  | [] => false
  | t :: sched' =>
      match step t s with
      | Some s' =>
          from_option (notifies c) false (threads s !! t) || notified c sched' s'
      | None => notified c sched' s
      end
  end.

(** The thread sleeps in [wait] on condition [c]. *)
Definition sleeps_on (c : condition) (th : thread) : Prop :=
  match c, cur th with
  | NotFull, Some (Put _ PutBlocked) => True
  | NotEmpty, Some (Get GetBlocked) => True
  | _, _ => False
  end.

(** The items that come before the first object that is the sentinel. *)
Fixpoint before_sentinel (sentinel : pyobj) (items : list pyobj) : list pyobj :=
  match items with
  | [] => []
  | item :: rest =>
      if py_is item sentinel then [] else item :: before_sentinel sentinel rest
  end.

(** ** One thread using the queue as a list *)

(** A first-in first-out list of capacity [c] under a sequence of calls:
    what the calls return, the buffer left, and the calls not completed (the
    first of them is the one that waits; none when all returned). *)
Fixpoint fifo_model (c : Z) (buffer : list pyobj) (ops : list op)
  : list retval * list pyobj * list op :=
  match ops with
  | [] => ([], buffer, [])
  | OpPut item :: rest =>
      if c <=? Z.of_nat (length buffer) then ([], buffer, ops)
      else let '(rs, b, undone) := fifo_model c (buffer ++ [item]) rest in
           (RNone :: rs, b, undone)
  | OpGet :: rest =>
      match buffer with
      | [] => ([], buffer, ops)
      | item :: buffer' =>
          let '(rs, b, undone) := fifo_model c buffer' rest in (RItem item :: rs, b, undone)
      end
  | OpQsize :: rest =>
      let '(rs, b, undone) := fifo_model c buffer rest in
      (RInt (Z.of_nat (length buffer)) :: rs, b, undone)
  end.

(** ** Any number of producers and consumers *)

(** The operation a call in progress was started for. *)
Definition op_of (cl : call) : op :=
  match cl with
  | Put item _ => OpPut item
  | Get _ => OpGet
  | Qsize _ => OpQsize
  end.

Definition put_items (ops : list op) : list pyobj :=
  omap (λ o, match o with OpPut item => Some item | _ => None end) ops.

Definition got_items (rs : list retval) : list pyobj :=
  omap (λ r, match r with RItem item => Some item | _ => None end) rs.

(** The items a program has still to put, in order. *)
Definition puts_of (p : program) : list pyobj :=
  match p with
  | Script ops _ => put_items ops
  | _ => todo p
  end.

(** The items a program has taken out of the queue: those in a consumer's
    destination, the sentinel a consumer stopped on, those a script got. *)
Definition taken (p : program) : list pyobj :=
  match p with
  | ConsumerRun dest sentinel stopped => dest ++ (if stopped then [sentinel] else [])
  | Script _ rs => got_items rs
  | _ => []
  end.

(** The items a thread holds: those it has taken, the one in its hands,
    those it has not appended yet. *)
Definition owned (th : thread) : list pyobj :=
  taken (prog th) ++ in_hand th ++
  match cur th with
  | Some (Put _ (PutNotify | PutExit)) => tail (puts_of (prog th))
  | _ => puts_of (prog th)
  end.

(** Every item there is: the buffer and what each thread holds. *)
Definition in_flight (s : system) : list pyobj :=
  _queue (queue s) ++ concat (map owned (threads s)).

(** Every item there is before any thread has started. *)
Definition held_at_start (progs : list program) : list pyobj :=
  concat (map owned (spawn progs)).

(** The integer [k], as an object of its own. *)
Definition int_obj (k : nat) : pyobj := PyObj k (VInt (Z.of_nat k)).

(** The call in progress is the one the program asked for. *)
Definition call_ok (th : thread) : Prop :=
  ∀ cl, cur th = Some cl → next (prog th) = Some (op_of cl).

(** An address names one object: any of the items [total] that is a
    consumer's sentinel by identity is that sentinel. *)
Definition same_object (total : list pyobj) (p : program) : Prop :=
  match p with
  | ConsumerRun _ sentinel _ => ∀ x, x ∈ total → py_is x sentinel = true → x = sentinel
  | _ => True
  end.

(** ** Wake-ups, for any number of threads *)

(** What a condition stands for: the items in the buffer for [not_empty],
    the free places for [not_full]. *)
Definition supply (cap : Z) (c : condition) (q : BoundedBlockingQueue) : Z :=
  match c with
  | NotEmpty => len q
  | NotFull => cap - len q
  end.

(** Thread [t] is on its way for condition [c]: it has been notified and has
    not tested the buffer again, or it is inside the with block and has not
    taken its item (its place) yet, or it is about to notify [c]. *)
Definition heading (c : condition) (q : BoundedBlockingQueue) (t : tid) (th : thread)
  : nat :=
  match c, cur th with
  | NotEmpty, Some (Get GetBlocked) => if decide (t ∈ _not_empty q) then 0 else 1
  | NotEmpty, Some (Get (GetTest | GetPop)) => 1
  | NotEmpty, Some (Put _ PutNotify) => 1
  | NotFull, Some (Put _ PutBlocked) => if decide (t ∈ _not_full q) then 0 else 1
  | NotFull, Some (Put _ (PutTest | PutAppend)) => 1
  | NotFull, Some (Get (GetNotify _)) => 1
  | _, _ => 0
  end%nat.

(** The sum of [f k th] over the threads, [k] being the thread's id. *)
Fixpoint count_from (f : tid → thread → nat) (k : tid) (ths : list thread) : nat :=
  match ths with
  | [] => 0
  | th :: rest => f k th + count_from f (S k) rest
  end%nat.

Definition on_the_way (c : condition) (s : system) : nat :=
  count_from (heading c (queue s)) 0%nat (threads s).

(** The waiters of a condition are distinct threads asleep in its [wait]. *)
Definition waiters_asleep (s : system) : Prop :=
  ∀ c, NoDup (waiters c (queue s)) ∧
       ∀ u, u ∈ waiters c (queue s) →
            ∃ th, threads s !! u = Some th ∧ sleeps_on c th.

(** While a thread sleeps on a condition, what the condition stands for is
    covered by the threads on their way. *)
Definition wake_inv (cap : Z) (s : system) : Prop :=
  ∀ c, waiters c (queue s) ≠ [] →
       supply cap c (queue s) <= Z.of_nat (on_the_way c s).

(** ** Bursts of puts and gets *)

Fixpoint gets_in (ops : list op) : nat :=
  match ops with
  | [] => 0
  | OpGet :: rest => S (gets_in rest)
  | _ :: rest => gets_in rest
  end.

(** The [get] calls a program has still to make, when that is fixed. *)
Definition gets_of (p : program) : nat :=
  match p with
  | Script ops _ => gets_in ops
  | _ => 0%nat
  end.

(** The appends a thread has still to make. *)
Definition puts_todo (th : thread) : nat :=
  length (match cur th with
          | Some (Put _ (PutNotify | PutExit)) => tail (puts_of (prog th))
          | _ => puts_of (prog th)
          end).

(** The pops a thread has still to make. *)
Definition gets_todo (th : thread) : nat :=
  match cur th with
  | Some (Get (GetNotify _ | GetExit _)) => pred (gets_of (prog th))
  | _ => gets_of (prog th)
  end.

(** A thread of a burst only puts or only gets (it may read the size):
    [Producer.run], or a caller whose calls are all on one side. *)
Definition one_sided (p : program) : Prop :=
  match p with
  | ProducerRun _ _ _ => True
  | Script ops _ => put_items ops = [] ∨ gets_in ops = 0%nat
  | _ => False
  end.

Definition puts_to_come (s : system) : nat :=
  count_from (λ _, puts_todo) 0%nat (threads s).

Definition gets_to_come (s : system) : nat :=
  count_from (λ _, gets_todo) 0%nat (threads s).

(** The appends and pops to come account for the buffer: [excess] is by how
    much the puts of the burst outnumber its gets. *)
Definition burst_inv (excess : Z) (s : system) : Prop :=
  (∀ u th, threads s !! u = Some th → call_ok th ∧ one_sided (prog th)) ∧
  Z.of_nat (puts_to_come s) + len (queue s) = Z.of_nat (gets_to_come s) + excess.

(** ** Termination, for any number of threads *)

(** The calls a program has still to complete, when their number is fixed. *)
Definition calls_of (p : program) : nat :=
  match p with
  | Script ops _ => length ops
  | ProducerRun source _ false => S (length source)
  | _ => 0
  end.

Definition fixed_calls (p : program) : Prop :=
  match p with
  | Script _ _ | ProducerRun _ _ _ => True
  | _ => False
  end.

(** The calls of a thread that have not reached the end of their with
    block. *)
Definition calls_left (th : thread) : nat :=
  match cur th with
  | Some (Put _ PutExit) | Some (Get (GetExit _)) | Some (Qsize (QsizeExit _)) =>
      pred (calls_of (prog th))
  | _ => calls_of (prog th)
  end.

Definition qsize_rank (pc : qsize_pc) : nat :=
  match pc with
  | QsizeEnter => 3
  | QsizeLen => 2
  | QsizeExit _ => 5
  end.

(** A bound on the transitions a thread has still to make. *)
Definition effort (q : BoundedBlockingQueue) (t : tid) (th : thread) : nat :=
  (weight * calls_left th +
   match cur th with
   | Some (Qsize pc) => qsize_rank pc
   | _ => rank t q th
   end)%nat.

Definition work_left (s : system) : nat :=
  count_from (effort (queue s)) 0%nat (threads s).

(** ** The order of appends and pops *)

(** What the next transition of a thread appends to the deque. *)
Definition appends (th : thread) : list pyobj :=
  match cur th with
  | Some (Put item PutAppend) => [item]
  | _ => []
  end.

(** What the next transition of a thread pops off the deque. *)
Definition pops (q : BoundedBlockingQueue) (th : thread) : list pyobj :=
  match cur th with
  | Some (Get GetPop) => take 1 (_queue q)
  | _ => []
  end.

(** The items appended along a schedule, in the order of the appends. *)
Fixpoint appended (sched : list tid) (s : system) : list pyobj :=
  match sched with
  | [] => []
  | t :: sched' =>
      match step t s with
      | Some s' => from_option appends [] (threads s !! t) ++ appended sched' s'
      | None => appended sched' s
      end
  end.

(** The items popped along a schedule, in the order of the pops. *)
Fixpoint popped (sched : list tid) (s : system) : list pyobj :=
  match sched with
  | [] => []
  | t :: sched' =>
      match step t s with
      | Some s' => from_option (pops (queue s)) [] (threads s !! t) ++ popped sched' s'
      | None => popped sched' s
      end
  end.

(** * Properties *)

(** Runs one transition held in [H]: splits on every test the transition
    makes and keeps the cases in which it is enabled. *)
Ltac step_inv H :=
  simpl in H; unfold wait_resume, acquire in H; simpl in H;
  repeat match type of H with
         | context [decide ?P] => destruct (decide P); simpl in H
         | context [match ?l with None => _ | Some _ => _ end] =>
             destruct l eqn:?; simpl in H
         | context [match ?l with [] => _ | _ :: _ => _ end] =>
             destruct l eqn:?; simpl in H
         | context [if ?b then _ else _] => destruct b eqn:?; simpl in H
         end;
  try discriminate H; inversion H; subst.

(** ** Calls made while no other thread runs *)

Lemma Z_ge_num_int z c : Z_ge_num z (PyInt c) = bool_decide (c <= z).
Proof.
  unfold Z_ge_num, num_le_Z; simpl.
  destruct (Z.compare_spec z c); case_bool_decide; try reflexivity; lia.
Qed.

(** [put] on a queue that is free and has room. *)
Lemma put_room me q item :
  _lock q = None →
  Z_ge_num (len q) (_maxsize q) = false →
  put me q item =
    Returns RNone (notify NotEmpty (set_queue (_queue q ++ [item]) q)).
Proof.
  intros Hl Hroom. destruct q as [m b l ne nf]; unfold len in *; simpl in *; subst l.
  unfold put; simpl. unfold len; simpl. rewrite Hroom. reflexivity.
Qed.

(** [put] on a queue that is free and full: the caller sleeps on [not_full]. *)
Lemma put_full me q item :
  _lock q = None →
  Z_ge_num (len q) (_maxsize q) = true →
  put me q item = Blocks (set_waiters NotFull (_not_full q ++ [me]) q).
Proof.
  intros Hl Hfull. destruct q as [m b l ne nf]; unfold len in *; simpl in *; subst l.
  unfold put; simpl. unfold len; simpl. rewrite Hfull; simpl.
  unfold wait_resume; simpl. rewrite decide_True by (apply elem_of_app; right; left).
  reflexivity.
Qed.

Lemma get_some me q item rest :
  _lock q = None →
  _queue q = item :: rest →
  get me q = Returns (RItem item) (notify NotFull (set_queue rest q)).
Proof.
  intros Hl Hq. destruct q as [m b l ne nf]; simpl in *; subst l b.
  reflexivity.
Qed.

Lemma get_empty me q :
  _lock q = None →
  _queue q = [] →
  get me q = Blocks (set_waiters NotEmpty (_not_empty q ++ [me]) q).
Proof.
  intros Hl Hq. destruct q as [m b l ne nf]; simpl in *; subst l b.
  unfold get; simpl. unfold wait_resume; simpl.
  rewrite decide_True by (apply elem_of_app; right; left).
  reflexivity.
Qed.

Lemma qsize_free me q :
  _lock q = None → qsize me q = Returns (RInt (len q)) q.
Proof.
  intros Hl. destruct q as [m b l ne nf]; simpl in *; subst l. reflexivity.
Qed.

Lemma qsize_held me q t : _lock q = Some t → qsize me q = Blocks q.
Proof. intros Hl. unfold qsize; simpl. unfold acquire. rewrite Hl. reflexivity. Qed.

(** The fuel given to a call made alone is never what stops it: the call
    returns or blocks. *)
Lemma run_call_total me q :
  (∀ item, put me q item ≠ OutOfFuel) ∧ get me q ≠ OutOfFuel ∧ qsize me q ≠ OutOfFuel.
Proof.
  destruct q as [m b [t|] ne nf]; unfold put, get, qsize; simpl;
    repeat split; try discriminate.
  - intros item. unfold len; simpl.
    destruct (Z_ge_num _ m); simpl; [|discriminate].
    unfold wait_resume; simpl.
    rewrite decide_True by (apply elem_of_app; right; constructor). discriminate.
  - destruct b; simpl; [|discriminate].
    unfold wait_resume; simpl.
    rewrite decide_True by (apply elem_of_app; right; constructor). discriminate.
Qed.

Lemma init_int c q :
  __init__ (PyInt c) = inr q → 0 < c ∧ q = empty_queue (PyInt c).
Proof.
  unfold __init__, num_le_Z, Z_cmp_num.
  destruct (Z.compare_spec 0 c); intros Hq; inversion Hq; subst.
  split; [lia | reflexivity].
Qed.

Lemma put_all_room me c items : ∀ q,
  _lock q = None → _maxsize q = PyInt c →
  len q + Z.of_nat (length items) <= c →
  ∃ q', put_all me q items = Some q' ∧ _queue q' = _queue q ++ items ∧
        _lock q' = None ∧ _maxsize q' = PyInt c.
Proof.
  induction items as [|item rest IH]; intros q Hl Hm Hlen; simpl.
  - exists q. rewrite app_nil_r. auto.
  - rewrite put_room; [|assumption|].
    2:{ rewrite Hm, Z_ge_num_int. apply bool_decide_eq_false. simpl in Hlen. lia. }
    destruct (IH (notify NotEmpty (set_queue (_queue q ++ [item]) q)))
      as (q' & Hq' & Hb & Hl' & Hm'); try assumption.
    + unfold len in *; simpl in *. rewrite length_app; simpl. lia.
    + exists q'. split; [assumption|]. split; [|auto].
      rewrite Hb; simpl. rewrite <- app_assoc. reflexivity.
Qed.

Lemma get_n_prefix me items : ∀ q rest,
  _lock q = None → _queue q = items ++ rest →
  ∃ q', get_n me q (length items) = Some (items, q') ∧ _queue q' = rest ∧
        _lock q' = None ∧ _maxsize q' = _maxsize q.
Proof.
  induction items as [|item more IH]; intros q rest Hl Hq; simpl.
  - exists q. auto.
  - rewrite (get_some me q item (more ++ rest)) by assumption.
    destruct (IH (notify NotFull (set_queue (more ++ rest) q)) rest)
      as (q' & Hq' & Hb & Hl' & Hm'); try assumption; try reflexivity.
    exists q'. rewrite Hq'. simpl. auto.
Qed.

(** C1. FIFO law: on a queue built with capacity [c > 0], putting at most
    [c] items in a row and then getting as many returns the items in the
    order they were put. *)
Theorem fifo_law (me : tid) (c : Z) (q0 : BoundedBlockingQueue) (items : list pyobj) :
  0 < c →
  __init__ (PyInt c) = inr q0 →
  Z.of_nat (length items) <= c →
  ∃ q1 q2, put_all me q0 items = Some q1 ∧
           get_n me q1 (length items) = Some (items, q2).
Proof.
  intros Hc Hinit Hn. apply init_int in Hinit as [_ ->].
  destruct (put_all_room me c items (empty_queue (PyInt c)))
    as (q1 & Hput & Hb & Hl & _); try reflexivity.
  { unfold len; simpl. lia. }
  destruct (get_n_prefix me items q1 []) as (q2 & Hget & _); [assumption| |].
  { rewrite Hb, app_nil_r. reflexivity. }
  exists q1, q2. auto.
Qed.

Lemma fifo_law_witness :
  ∃ q1 q2,
    put_all 0%nat (empty_queue (PyInt 3))
      [PyObj 1 (VInt 1); PyObj 2 (VInt 2); PyObj 3 (VInt 3)] = Some q1 ∧
    get_n 0%nat q1 3 =
      Some ([PyObj 1 (VInt 1); PyObj 2 (VInt 2); PyObj 3 (VInt 3)], q2).
Proof.
  apply (fifo_law 0%nat 3 (empty_queue (PyInt 3))
           [PyObj 1 (VInt 1); PyObj 2 (VInt 2); PyObj 3 (VInt 3)]).
  - reflexivity.
  - reflexivity.
  - simpl. lia.
Defined.

(** C3. put postcondition: on a queue holding fewer items than its capacity,
    [put(item)] returns, the buffer is the old buffer with [item] appended at
    the tail, the observable size has grown by exactly one and the capacity
    is the same. *)
Theorem put_postcondition (me : tid) (q : BoundedBlockingQueue) (item : pyobj) (c : Z) :
  _maxsize q = PyInt c →
  _lock q = None →
  len q < c →
  ∃ q', put me q item = Returns RNone q' ∧
        _queue q' = _queue q ++ [item] ∧
        qsize me q = Returns (RInt (len q)) q ∧
        qsize me q' = Returns (RInt (len q + 1)) q' ∧
        _maxsize q' = _maxsize q.
Proof.
  intros Hm Hl Hlen.
  exists (notify NotEmpty (set_queue (_queue q ++ [item]) q)).
  split.
  { apply put_room; [assumption|].
    rewrite Hm, Z_ge_num_int. apply bool_decide_eq_false. lia. }
  split; [reflexivity|]. split; [apply qsize_free; assumption|].
  split; [|reflexivity].
  rewrite qsize_free by assumption. unfold len; simpl.
  rewrite length_app; simpl. do 2 f_equal. lia.
Qed.

Lemma put_postcondition_witness :
  ∃ q', put 0%nat (empty_queue (PyInt 3)) (PyObj 1 (VInt 10)) = Returns RNone q' ∧
        _queue q' = [] ++ [PyObj 1 (VInt 10)] ∧
        qsize 0%nat (empty_queue (PyInt 3)) = Returns (RInt 0) (empty_queue (PyInt 3)) ∧
        qsize 0%nat q' = Returns (RInt (0 + 1)) q' ∧
        _maxsize q' = PyInt 3.
Proof.
  apply (put_postcondition 0%nat (empty_queue (PyInt 3)) (PyObj 1 (VInt 10)) 3);
    reflexivity.
Defined.

(** C4. get postcondition: on a queue whose buffer is not empty, [get()]
    returns the head of the buffer, the buffer is the old buffer without its
    head and the observable size has shrunk by exactly one. *)
Theorem get_postcondition (me : tid) (q : BoundedBlockingQueue) (item : pyobj) (rest : list pyobj) :
  _lock q = None →
  _queue q = item :: rest →
  ∃ q', get me q = Returns (RItem item) q' ∧
        _queue q' = rest ∧
        qsize me q = Returns (RInt (len q)) q ∧
        qsize me q' = Returns (RInt (len q - 1)) q' ∧
        _maxsize q' = _maxsize q.
Proof.
  intros Hl Hq. exists (notify NotFull (set_queue rest q)).
  split; [apply get_some; assumption|].
  split; [reflexivity|]. split; [apply qsize_free; assumption|].
  split; [|reflexivity].
  rewrite qsize_free by assumption. unfold len; simpl. rewrite Hq; simpl.
  do 2 f_equal. lia.
Qed.

Lemma get_postcondition_witness :
  ∃ q', get 0%nat (Queue (PyInt 3) [PyObj 1 (VInt 10); PyObj 2 (VInt 20)] None [] []) =
          Returns (RItem (PyObj 1 (VInt 10))) q' ∧
        _queue q' = [PyObj 2 (VInt 20)] ∧
        qsize 0%nat (Queue (PyInt 3) [PyObj 1 (VInt 10); PyObj 2 (VInt 20)] None [] []) =
          Returns (RInt 2) (Queue (PyInt 3) [PyObj 1 (VInt 10); PyObj 2 (VInt 20)] None [] []) ∧
        qsize 0%nat q' = Returns (RInt (2 - 1)) q' ∧
        _maxsize q' = PyInt 3.
Proof.
  apply (get_postcondition 0%nat
           (Queue (PyInt 3) [PyObj 1 (VInt 10); PyObj 2 (VInt 20)] None [] [])
           (PyObj 1 (VInt 10)) [PyObj 2 (VInt 20)]); reflexivity.
Defined.

(** C5. Capacity validation: building a queue with an integer capacity
    [<= 0] raises ValueError and yields no queue; with a capacity [> 0] it
    yields an empty queue, of size 0, whose capacity is the given one. *)
Theorem capacity_validation (me : tid) (c : Z) :
  (c <= 0 → raises_ValueError (__init__ (PyInt c))) ∧
  (0 < c → ∃ q, __init__ (PyInt c) = inr q ∧ _queue q = [] ∧
                 qsize me q = Returns (RInt 0) q ∧ _maxsize q = PyInt c).
Proof.
  unfold raises_ValueError, __init__, num_le_Z, Z_cmp_num. split; intros Hc.
  - destruct (Z.compare_spec 0 c); try lia; eauto.
  - destruct (Z.compare_spec 0 c); try lia. eexists. split; [reflexivity|].
    split; [reflexivity|]. split; reflexivity.
Qed.

Lemma capacity_validation_witness :
  raises_ValueError (__init__ (PyInt 0)) ∧
  raises_ValueError (__init__ (PyInt (-1))) ∧
  ∃ q, __init__ (PyInt 10) = inr q ∧ _queue q = [] ∧
       qsize 0%nat q = Returns (RInt 0) q ∧ _maxsize q = PyInt 10.
Proof.
  split; [|split].
  - apply (capacity_validation 0%nat 0). discriminate.
  - apply (capacity_validation 0%nat (-1)). discriminate.
  - apply (capacity_validation 0%nat 10). reflexivity.
Defined.

Lemma Z_cmp_scaled_0_pos m e : Z_cmp_scaled 0 (Z.pos m) e = Lt.
Proof.
  unfold Z_cmp_scaled. destruct (0 <=? e) eqn:He; [|reflexivity].
  apply Z.compare_lt_iff. apply Z.leb_le in He.
  apply Z.mul_pos_pos; [lia|]. apply Z.pow_pos_nonneg; lia.
Qed.

Lemma Z_cmp_scaled_0_neg m e : Z_cmp_scaled 0 (Z.neg m) e = Gt.
Proof.
  unfold Z_cmp_scaled. destruct (0 <=? e) eqn:He; [|reflexivity].
  apply Z.compare_gt_iff. apply Z.leb_le in He.
  apply Z.mul_neg_pos; [lia|]. apply Z.pow_pos_nonneg; lia.
Qed.

Lemma num_le_Z_0 n : num_le_Z n 0 = true ↔ nonpositive n.
Proof.
  unfold num_le_Z. destruct n as [z|[|[]|[]|[] m e]]; simpl;
    rewrite ?Z_cmp_scaled_0_pos, ?Z_cmp_scaled_0_neg;
    try (split; [intros; (done || discriminate) | intros; (done || discriminate)]).
  change (match z with 0 => Eq | Z.pos _ => Lt | Z.neg _ => Gt end) with (0 ?= z).
  destruct (Z.compare_spec 0 z); split; intros; try done; lia.
Qed.

(** C6, as the specification states it, fails at 2.5: that capacity is not
    a positive integer, and construction does not raise. *)
Lemma positive_float_not_rejected :
  ¬ (raises_ValueError (__init__ two_and_a_half) ↔ ¬ positive_integer two_and_a_half).
Proof.
  intros [_ Hraise]. destruct Hraise as [msg Hmsg].
  - intros [].
  - discriminate Hmsg.
Qed.

(** C6, amended. Construction raises ValueError exactly when the capacity
    compares [<= 0]; any capacity above zero, integer or not (2.5 for one),
    yields an empty queue with that capacity. *)
Theorem capacity_rejected_iff_nonpositive (n : pynum) :
  (raises_ValueError (__init__ n) ↔ nonpositive n) ∧
  (¬ nonpositive n → __init__ n = inr (empty_queue n)).
Proof.
  pose proof (num_le_Z_0 n) as Hn. unfold raises_ValueError, __init__.
  destruct (num_le_Z n 0); split.
  - split; [intros _; apply Hn; reflexivity | eauto].
  - intros Hpos. destruct Hpos. apply Hn. reflexivity.
  - split; [intros [msg Hmsg]; discriminate | intros Hnp; apply Hn in Hnp; discriminate].
  - reflexivity.
Qed.

Lemma capacity_rejected_iff_nonpositive_witness :
  __init__ two_and_a_half = inr (empty_queue two_and_a_half).
Proof.
  apply (capacity_rejected_iff_nonpositive two_and_a_half).
  simpl. discriminate.
Defined.

(** ** A thread running alone *)

Lemma thread_step_not_finished me th q r :
  thread_step me th q = Some r → finished th = false.
Proof.
  unfold thread_step, finished. destruct (cur th); [reflexivity|].
  destruct (next (prog th)); [reflexivity | discriminate].
Qed.

Lemma run_thread_steps n me : ∀ th q th' q' fuel,
  thread_steps n me th q = Some (th', q') →
  run_thread (n + fuel) me th q = run_thread fuel me th' q'.
Proof.
  induction n as [|n IH]; intros th q th' q' fuel; simpl.
  - intros [= -> ->]. reflexivity.
  - destruct (thread_step me th q) as [[th1 q1]|] eqn:Hstep; [|discriminate].
    simpl. intros Hrest.
    rewrite (thread_step_not_finished _ _ _ _ Hstep).
    apply IH. assumption.
Qed.

(** One pass of the consumer loop over a queue that is free and not empty. *)
Lemma consumer_pass me dest sentinel q item rest :
  _lock q = None →
  _queue q = item :: rest →
  thread_steps pass me (Thread (ConsumerRun dest sentinel false) None) q =
    Some (Thread (resume (ConsumerRun dest sentinel false) (RItem item)) None,
          notify NotFull (set_queue rest q)).
Proof.
  intros Hl Hq. destruct q as [m b l ne nf]; simpl in *; subst l b.
  reflexivity.
Qed.

(** One pass of a producer's [put] over a queue that is free and has room. *)
Lemma producer_pass me p item q :
  next p = Some (OpPut item) →
  _lock q = None →
  Z_ge_num (len q) (_maxsize q) = false →
  thread_steps pass me (Thread p None) q =
    Some (Thread (resume p RNone) None,
          notify NotEmpty (set_queue (_queue q ++ [item]) q)).
Proof.
  intros Hnext Hl Hroom.
  destruct q as [m b l ne nf]; unfold len in *; simpl in *; subst l.
  unfold pass, thread_steps, thread_step; simpl. rewrite Hnext; simpl.
  unfold len; simpl. rewrite Hroom. reflexivity.
Qed.

Lemma consumer_drains me sentinel items : ∀ dest q rest fuel,
  Forall (λ x, py_is x sentinel = false) items →
  _lock q = None →
  _queue q = items ++ sentinel :: rest →
  ∃ q', run_thread (pass * S (length items) + S fuel) me
          (Thread (ConsumerRun dest sentinel false) None) q =
        Ends (Thread (ConsumerRun (dest ++ items) sentinel true) None) q' ∧
        _queue q' = rest ∧ _lock q' = None.
Proof.
  induction items as [|item more IH]; intros dest q rest fuel Hitems Hl Hq.
  - exists (notify NotFull (set_queue rest q)).
    replace (pass * S (length (@nil pyobj)) + S fuel)%nat
      with (pass + S fuel)%nat by (simpl; lia).
    rewrite (run_thread_steps pass me _ _ _ _ (S fuel)
               (consumer_pass me dest sentinel q sentinel rest Hl Hq)).
    simpl. unfold py_is. rewrite Nat.eqb_refl. simpl.
    rewrite app_nil_r. auto.
  - inversion Hitems as [|? ? Hitem Hmore]; subst.
    replace (pass * S (length (item :: more)) + S fuel)%nat
      with (pass + (pass * S (length more) + S fuel))%nat by (simpl; lia).
    rewrite (run_thread_steps pass me _ _ _ _ _
               (consumer_pass me dest sentinel q item (more ++ sentinel :: rest) Hl Hq)).
    simpl resume. rewrite Hitem.
    destruct (IH (dest ++ [item]) (notify NotFull (set_queue (more ++ sentinel :: rest) q))
                rest fuel Hmore) as (q' & Hrun & Hb & Hl'); try assumption; try reflexivity.
    exists q'. rewrite Hrun, <- app_assoc. auto.
Qed.

(** C7. Sentinel termination: a consumer run against a queue holding [N]
    payload items, none of them the sentinel, followed by the sentinel,
    ends; its destination is then exactly those items in order, and the
    sentinel is not in it. *)
Theorem sentinel_termination (me : tid) (sentinel : pyobj) (items : list pyobj)
    (q : BoundedBlockingQueue) (fuel : nat) :
  Forall (λ x, py_is x sentinel = false) items →
  _lock q = None →
  _queue q = items ++ [sentinel] →
  (pass * S (length items) < fuel)%nat →
  ∃ dest q',
    run_thread fuel me (Thread (ConsumerRun [] sentinel false) None) q =
      Ends (Thread (ConsumerRun dest sentinel true) None) q' ∧
    dest = items ∧
    Forall (λ x, py_is x sentinel = false) dest ∧
    (sentinel ∉ dest) ∧
    _queue q' = [].
Proof.
  intros Hitems Hl Hq Hfuel.
  destruct (consumer_drains me sentinel items [] q []
              (fuel - S (pass * S (length items))) Hitems Hl Hq)
    as (q' & Hrun & Hb & _).
  replace (pass * S (length items) + S (fuel - S (pass * S (length items))))%nat
    with fuel in Hrun by lia.
  exists items, q'. simpl in Hrun. repeat split; try assumption.
  intros Hin. rewrite Forall_forall in Hitems. specialize (Hitems _ Hin).
  unfold py_is in Hitems. rewrite Nat.eqb_refl in Hitems. discriminate.
Qed.

Lemma sentinel_termination_witness :
  ∃ dest q',
    run_thread 20 1%nat (Thread (ConsumerRun [] (PyObj 0 VObject) false) None)
      (Queue (PyInt 10) [PyObj 1 (VInt 1); PyObj 2 (VInt 2); PyObj 0 VObject] None [] []) =
      Ends (Thread (ConsumerRun dest (PyObj 0 VObject) true) None) q' ∧
    dest = [PyObj 1 (VInt 1); PyObj 2 (VInt 2)] ∧
    Forall (λ x, py_is x (PyObj 0 VObject) = false) dest ∧
    (PyObj 0 VObject ∉ dest) ∧
    _queue q' = [].
Proof.
  apply (sentinel_termination 1%nat (PyObj 0 VObject)
           [PyObj 1 (VInt 1); PyObj 2 (VInt 2)]
           (Queue (PyInt 10) [PyObj 1 (VInt 1); PyObj 2 (VInt 2); PyObj 0 VObject] None [] [])
           20).
  - repeat constructor.
  - reflexivity.
  - reflexivity.
  - vm_compute. lia.
Defined.

Lemma producer_requests sentinel source : ∀ fuel,
  (length source < fuel)%nat →
  requests fuel put_returns (ProducerRun source sentinel false) =
    map OpPut source ++ [OpPut sentinel].
Proof.
  induction source as [|item rest IH]; intros fuel Hfuel.
  - destruct fuel as [|fuel]; [simpl in Hfuel; lia|]. simpl.
    destruct fuel; reflexivity.
  - destruct fuel as [|fuel]; [simpl in Hfuel; lia|]. simpl.
    rewrite IH by (simpl in Hfuel; lia). reflexivity.
Qed.

Lemma producer_fills me sentinel c source : ∀ q fuel,
  _lock q = None →
  _maxsize q = PyInt c →
  len q + Z.of_nat (length source) + 1 <= c →
  ∃ q', run_thread (pass * S (length source) + S fuel) me
          (Thread (ProducerRun source sentinel false) None) q =
        Ends (Thread (ProducerRun [] sentinel true) None) q' ∧
        _queue q' = _queue q ++ source ++ [sentinel] ∧ _lock q' = None.
Proof.
  induction source as [|item rest IH]; intros q fuel Hl Hm Hlen.
  - exists (notify NotEmpty (set_queue (_queue q ++ [sentinel]) q)).
    replace (pass * S (length (@nil pyobj)) + S fuel)%nat
      with (pass + S fuel)%nat by (simpl; lia).
    rewrite (run_thread_steps pass me _ _ _ _ (S fuel)
               (producer_pass me (ProducerRun [] sentinel false) sentinel q
                  eq_refl Hl ltac:(rewrite Hm, Z_ge_num_int;
                                   apply bool_decide_eq_false; simpl in Hlen; lia))).
    simpl. auto.
  - replace (pass * S (length (item :: rest)) + S fuel)%nat
      with (pass + (pass * S (length rest) + S fuel))%nat by (simpl; lia).
    rewrite (run_thread_steps pass me _ _ _ _ _
               (producer_pass me (ProducerRun (item :: rest) sentinel false) item q
                  eq_refl Hl ltac:(rewrite Hm, Z_ge_num_int;
                                   apply bool_decide_eq_false; simpl in Hlen; lia))).
    simpl resume.
    destruct (IH (notify NotEmpty (set_queue (_queue q ++ [item]) q)) fuel)
      as (q' & Hrun & Hb & Hl'); try assumption.
    { unfold len in *; simpl in *. rewrite length_app; simpl. lia. }
    exists q'. rewrite Hrun, Hb. simpl. rewrite <- app_assoc. auto.
Qed.

(** C8. Producer contract: the producer asks for one [put] per source
    item, in source order, and then for one [put] of the sentinel, after
    which it asks for nothing; run against a fresh queue of capacity at
    least [len(source) + 1] it ends and leaves the buffer equal to the
    source followed by the sentinel. *)
Theorem producer_contract (me : tid) (sentinel : pyobj) (source : list pyobj)
    (c : Z) (q0 : BoundedBlockingQueue) (fuel : nat) :
  __init__ (PyInt c) = inr q0 →
  Z.of_nat (length source) + 1 <= c →
  (pass * S (length source) < fuel)%nat →
  requests fuel put_returns (ProducerRun source sentinel false) =
    map OpPut source ++ [OpPut sentinel] ∧
  ∃ th q',
    run_thread fuel me (Thread (ProducerRun source sentinel false) None) q0 = Ends th q' ∧
    next (prog th) = None ∧
    _queue q' = source ++ [sentinel].
Proof.
  intros Hinit Hc Hfuel. apply init_int in Hinit as [_ ->]. split.
  { apply producer_requests. unfold pass in Hfuel. lia. }
  destruct (producer_fills me sentinel c source (empty_queue (PyInt c))
              (fuel - S (pass * S (length source))))
    as (q' & Hrun & Hb & _); try reflexivity.
  { unfold len; simpl. lia. }
  replace (pass * S (length source) + S (fuel - S (pass * S (length source))))%nat
    with fuel in Hrun by lia.
  eexists _, q'. split; [exact Hrun|]. split; [reflexivity|]. exact Hb.
Qed.

Lemma producer_contract_witness :
  requests 30 put_returns
    (ProducerRun [PyObj 1 (VStr "a"); PyObj 2 (VStr "b"); PyObj 3 (VStr "c")]
       (PyObj 0 VObject) false) =
    map OpPut [PyObj 1 (VStr "a"); PyObj 2 (VStr "b"); PyObj 3 (VStr "c")] ++
    [OpPut (PyObj 0 VObject)] ∧
  ∃ th q',
    run_thread 30 0%nat
      (Thread (ProducerRun [PyObj 1 (VStr "a"); PyObj 2 (VStr "b"); PyObj 3 (VStr "c")]
                 (PyObj 0 VObject) false) None)
      (empty_queue (PyInt 10)) = Ends th q' ∧
    next (prog th) = None ∧
    _queue q' = [PyObj 1 (VStr "a"); PyObj 2 (VStr "b"); PyObj 3 (VStr "c")] ++
                [PyObj 0 VObject].
Proof.
  apply (producer_contract 0%nat (PyObj 0 VObject)
           [PyObj 1 (VStr "a"); PyObj 2 (VStr "b"); PyObj 3 (VStr "c")]
           10 (empty_queue (PyInt 10)) 30).
  - reflexivity.
  - simpl. lia.
  - vm_compute. lia.
Defined.

(** C10. The sentinel is matched by identity only: the consumer ends its
    loop on an item exactly when that item is the sentinel object itself;
    on an item that equals the sentinel by value but is another object, it
    appends the item to the destination and goes on to call [get] again. *)
Theorem sentinel_matched_by_identity (me : tid) (dest : list pyobj)
    (sentinel item : pyobj) (rest : list pyobj) (q : BoundedBlockingQueue) :
  py_eq item sentinel = true →
  addr item ≠ addr sentinel →
  _lock q = None →
  _queue q = item :: rest →
  (∀ x, next (resume (ConsumerRun dest sentinel false) (RItem x)) = None ↔
        addr x = addr sentinel) ∧
  ∃ q', thread_steps pass me (Thread (ConsumerRun dest sentinel false) None) q =
          Some (Thread (ConsumerRun (dest ++ [item]) sentinel false) None, q') ∧
        next (ConsumerRun (dest ++ [item]) sentinel false) = Some OpGet ∧
        _queue q' = rest.
Proof.
  intros _ Hid Hl Hq. split.
  - intros x. simpl. unfold py_is.
    destruct (Nat.eqb_spec (addr x) (addr sentinel)); simpl; split;
      intros; (done || discriminate).
  - exists (notify NotFull (set_queue rest q)).
    rewrite (consumer_pass me dest sentinel q item rest Hl Hq). simpl.
    unfold py_is. apply Nat.eqb_neq in Hid. rewrite Hid. auto.
Qed.

Lemma sentinel_matched_by_identity_witness :
  (∀ x, next (resume (ConsumerRun [] (PyObj 0 (VStr "STOP")) false) (RItem x)) = None ↔
        addr x = 0%nat) ∧
  ∃ q', thread_steps pass 1%nat (Thread (ConsumerRun [] (PyObj 0 (VStr "STOP")) false) None)
          (Queue (PyInt 10) [PyObj 7 (VStr "STOP"); PyObj 0 (VStr "STOP")] None [] []) =
          Some (Thread (ConsumerRun ([] ++ [PyObj 7 (VStr "STOP")])
                          (PyObj 0 (VStr "STOP")) false) None, q') ∧
        next (ConsumerRun ([] ++ [PyObj 7 (VStr "STOP")]) (PyObj 0 (VStr "STOP")) false) =
          Some OpGet ∧
        _queue q' = [PyObj 0 (VStr "STOP")].
Proof.
  apply (sentinel_matched_by_identity 1%nat [] (PyObj 0 (VStr "STOP"))
           (PyObj 7 (VStr "STOP")) [PyObj 0 (VStr "STOP")]
           (Queue (PyInt 10) [PyObj 7 (VStr "STOP"); PyObj 0 (VStr "STOP")] None [] [])).
  - reflexivity.
  - simpl. lia.
  - reflexivity.
  - reflexivity.
Defined.

(** ** The monitor discipline *)

Section Monitor.

Variable c : Z.

Lemma resume_results p v :
  Forall (in_range c) (results p) → in_range c v →
  Forall (in_range c) (results (resume p v)).
Proof.
  intros Hp Hv.
  destruct v, p as [[|? ?] ? []|? ? []|[|? ?] ?|?]; simpl in *;
    try destruct (py_is _ _); simpl; auto using Forall_nil.
  all: apply Forall_app; split; auto using Forall_cons, Forall_nil.
Qed.

Lemma at_ok_not_holding q q' p cl :
  holds_lock (Thread p (Some cl)) = false → at_ok c q cl → at_ok c q' cl.
Proof.
  destruct cl as [? []|[]|[]]; simpl; intros; (done || discriminate).
Qed.

Lemma own_step t q th th' q' :
  _maxsize q = PyInt c → len q <= c →
  thread_ok c t q th →
  thread_step t th q = Some (th', q') →
  _maxsize q' = PyInt c ∧ len q' <= c ∧ thread_ok c t q' th' ∧
  (∀ u, u ≠ t → (_lock q' = Some u ↔ _lock q = Some u)) ∧
  (q' = q ∨ _lock q = Some t ∨ _lock q = None).
Proof.
  intros Hm Hlen (Hres & Hlock & Hat) Hstep.
  destruct th as [p [cl|]]; unfold thread_step in Hstep; cbn [prog cur] in Hstep.
  - specialize (Hat cl eq_refl). set (after := resume p) in Hstep.
    assert (Hafter : ∀ v, in_range c v → Forall (in_range c) (results (after v)))
      by (intros v Hv; apply resume_results; assumption).
    clearbody after.
    destruct q as [m b l ne nf]; unfold len, holds_lock in *; simpl in *; subst m.
    destruct cl as [x pc|pc|pc]; destruct pc; unfold thread_ok, holds_lock, len;
      step_inv Hstep; unfold len in *; simpl in *.
    all: try rewrite Z_ge_num_int in *.
    all: repeat match goal with
                | H : bool_decide _ = true |- _ => apply bool_decide_eq_true in H
                | H : bool_decide _ = false |- _ => apply bool_decide_eq_false in H
                end.
    all: try rewrite length_app; simpl.
    all: repeat split; try assumption; try lia; try (intros; congruence);
      try (intros ? [= <-]; simpl; lia);
      try (intros ? [= <-]; simpl; done);
      try (apply Hafter; simpl; auto; lia);
      try (right; left; apply Hlock; reflexivity);
      try (right; right; reflexivity);
      try (left; reflexivity).
    all: try (destruct Hlock as [Hl _]; specialize (Hl eq_refl); congruence).
    all: try (intros ? [= <-]; simpl; unfold len; simpl; lia).
    all: unfold len in *; simpl in *; lia.
  - destruct (next p) as [o|] eqn:Hnext; simpl in Hstep; [|discriminate].
    inversion Hstep; subst; clear Hstep.
    unfold thread_ok, holds_lock in *; simpl in *.
    repeat split; try assumption; try (left; reflexivity); try tauto;
      try (destruct o; discriminate).
    + intros Hl. apply Hlock in Hl. discriminate.
    + intros cl [= <-]. destruct o; exact I.
Qed.

Lemma monitor_step t s s' :
  monitor_inv c s → step t s = Some s' → monitor_inv c s'.
Proof.
  intros (Hm & Hlen & Hown & Hths) Hstep. unfold step in Hstep.
  destruct (threads s !! t) as [th|] eqn:Hth; simpl in Hstep; [|discriminate].
  destruct (thread_step t th (queue s)) as [[th' q']|] eqn:Hts; simpl in Hstep;
    [|discriminate].
  inversion Hstep; subst; clear Hstep.
  destruct (own_step t (queue s) th th' q' Hm Hlen (Hths t th Hth) Hts)
    as (Hm' & Hlen' & Hok' & Hframe & Hq').
  assert (Hlt : (t < length (threads s))%nat) by (eapply lookup_lt_Some; eassumption).
  unfold monitor_inv; simpl. split; [assumption|]. split; [assumption|]. split.
  - intros u Hu. destruct (decide (u = t)) as [->|Hne].
    + rewrite list_lookup_insert_eq by assumption. eauto.
    + rewrite list_lookup_insert_ne by congruence. apply Hown, Hframe; assumption.
  - intros u thu Hu. destruct (decide (u = t)) as [->|Hne].
    + rewrite list_lookup_insert_eq in Hu by assumption.
      inversion Hu; subst. assumption.
    + rewrite list_lookup_insert_ne in Hu by congruence.
      destruct (Hths u thu Hu) as (Hres & Hlk & Hat).
      split; [assumption|]. split.
      * rewrite Hlk. symmetry. apply Hframe. assumption.
      * intros cl Hcl. specialize (Hat cl Hcl).
        destruct Hq' as [-> | Hq']; [assumption|].
        destruct thu as [pu curu]; simpl in Hcl; subst curu.
        apply (at_ok_not_holding (queue s) q' pu cl); [|assumption].
        destruct (holds_lock (Thread pu (Some cl))) eqn:Hh; [|reflexivity].
        destruct Hlk as [Hlk _]. specialize (Hlk eq_refl).
        destruct Hq' as [Hq'|Hq']; congruence.
Qed.

Lemma monitor_exec sched : ∀ s, monitor_inv c s → monitor_inv c (exec sched s).
Proof.
  induction sched as [|t sched IH]; intros s Hs; simpl; [assumption|].
  apply IH. destruct (step t s) as [s'|] eqn:Hstep; simpl; [|assumption].
  eapply monitor_step; eassumption.
Qed.

Lemma monitor_init q0 progs :
  __init__ (PyInt c) = inr q0 →
  Forall (λ p, results p = []) progs →
  monitor_inv c (System q0 (spawn progs)).
Proof.
  intros Hinit Hprogs. apply init_int in Hinit as [Hc ->].
  unfold monitor_inv; simpl. split; [reflexivity|]. split; [unfold len; simpl; lia|].
  split; [discriminate|].
  intros t th Hth. unfold spawn in Hth.
  apply (list_lookup_fmap_Some_1 (λ p, Thread p None)) in Hth as (p & -> & Hp).
  unfold thread_ok, holds_lock; simpl.
  split; [|split; [split; discriminate | discriminate]].
  rewrite Forall_forall in Hprogs.
  rewrite (Hprogs p) by (eapply list_elem_of_lookup_2; eassumption). constructor.
Qed.

End Monitor.

(** C2, as the specification states it, fails at capacity 2.5, which
    construction accepts: [put] waits only while [len >= 2.5], so one caller
    making three [put] calls gets all three back, and then the buffer holds
    3 items and [qsize] returns 3. Neither the bound on the buffer nor the
    range of [qsize] holds for every queue that can be constructed. *)
Lemma fractional_capacity_exceeded :
  ¬ (∀ (q0 : BoundedBlockingQueue) (progs : list program) (sched : list tid),
       __init__ two_and_a_half = inr q0 →
       Forall (λ p, results p = []) progs →
       Z_le_num (len (queue (exec sched (System q0 (spawn progs)))))
         two_and_a_half = true) ∧
  ¬ (∀ (q0 : BoundedBlockingQueue) (progs : list program) (sched : list tid)
       (me : tid) (n : Z) (q' : BoundedBlockingQueue),
       __init__ two_and_a_half = inr q0 →
       Forall (λ p, results p = []) progs →
       qsize me (queue (exec sched (System q0 (spawn progs)))) = Returns (RInt n) q' →
       Z_le_num n two_and_a_half = true).
Proof.
  split; intros H.
  - specialize (H (empty_queue two_and_a_half)
                  [Script [OpPut (int_obj 1); OpPut (int_obj 2); OpPut (int_obj 3)] []]
                  (repeat 0%nat 18) eq_refl).
    assert (Hle := H ltac:(repeat constructor)).
    vm_compute in Hle. discriminate Hle.
  - specialize (H (empty_queue two_and_a_half)
                  [Script [OpPut (int_obj 1); OpPut (int_obj 2); OpPut (int_obj 3)] []]
                  (repeat 0%nat 18) 1%nat 3
                  (Queue two_and_a_half [int_obj 1; int_obj 2; int_obj 3] None [] [])
                  eq_refl).
    assert (Hle := H ltac:(repeat constructor) ltac:(vm_compute; reflexivity)).
    vm_compute in Hle. discriminate Hle.
Qed.

(** C2, amended. Bounded occupancy: on a queue built with an integer
    capacity [c > 0], whatever the threads run and however they are
    scheduled, the buffer never holds more than [c] items; a thread about to
    append finds fewer than [c] items, a thread about to pop finds at least
    one (a full queue sends [put] to wait, an empty one sends [get] to wait,
    and [popleft] never raises); and every size that [qsize] returns lies in
    [[0, c]]. *)
Theorem bounded_occupancy (c : Z) (q0 : BoundedBlockingQueue)
    (progs : list program) (sched : list tid) :
  0 < c →
  __init__ (PyInt c) = inr q0 →
  Forall (λ p, results p = []) progs →
  let s := exec sched (System q0 (spawn progs)) in
  0 <= len (queue s) <= c ∧
  (∀ t th item, threads s !! t = Some th →
     cur th = Some (Put item PutAppend) → len (queue s) < c) ∧
  (∀ t th, threads s !! t = Some th →
     cur th = Some (Get GetPop) → _queue (queue s) ≠ []) ∧
  (∀ t th e, threads s !! t = Some th → cur th ≠ Some (Get (GetRaise e))) ∧
  (∀ me item, len (queue s) = c →
     put_step me item PutTest (queue s) = Some (queue s, Some PutWait)) ∧
  (∀ me, len (queue s) = 0 →
     get_step me GetTest (queue s) = Some (queue s, inl GetWait)) ∧
  (∀ me item, _lock (queue s) = None → len (queue s) = c →
     ∃ q', put me (queue s) item = Blocks q' ∧ _queue q' = _queue (queue s)) ∧
  (∀ me, _lock (queue s) = None → len (queue s) = 0 →
     ∃ q', get me (queue s) = Blocks q' ∧ _queue q' = _queue (queue s)) ∧
  (∀ t th n, threads s !! t = Some th →
     (cur th = Some (Qsize (QsizeExit n)) ∨ RInt n ∈ results (prog th)) →
     0 <= n <= c) ∧
  (∀ me n q', qsize me (queue s) = Returns (RInt n) q' → 0 <= n <= c).
Proof.
  intros Hc Hinit Hprogs s.
  assert (Hinv : monitor_inv c s)
    by (apply monitor_exec, monitor_init; assumption).
  destruct Hinv as (Hm & Hlen & _ & Hths).
  split; [unfold len in *; lia|].
  split; [intros t th item Hth Hcur; apply (Hths t th Hth) in Hcur; exact Hcur|].
  split; [intros t th Hth Hcur; apply (Hths t th Hth) in Hcur; exact Hcur|].
  split; [intros t th e Hth Hcur; apply (Hths t th Hth) in Hcur; exact Hcur|].
  split.
  { intros me item Hfull. simpl. rewrite Hm, Z_ge_num_int.
    rewrite bool_decide_eq_true_2 by lia. reflexivity. }
  split.
  { intros me Hempty. simpl. unfold len in Hempty.
    destruct (_queue (queue s)); [reflexivity | simpl in Hempty; lia]. }
  split.
  { intros me item Hl Hfull. eexists. split.
    - apply put_full; [assumption|]. rewrite Hm, Z_ge_num_int.
      apply bool_decide_eq_true_2. lia.
    - reflexivity. }
  split.
  { intros me Hl Hempty. eexists. split.
    - apply get_empty; [assumption|]. unfold len in Hempty.
      destruct (_queue (queue s)); [reflexivity | simpl in Hempty; lia].
    - reflexivity. }
  split.
  { intros t th n Hth [Hcur | Hn].
    - apply (Hths t th Hth) in Hcur. exact Hcur.
    - destruct (Hths t th Hth) as (Hres & _). rewrite Forall_forall in Hres.
      apply (Hres _ Hn). }
  intros me n q' Hsize. destruct (_lock (queue s)) as [t|] eqn:Hl.
  - rewrite (qsize_held me _ t Hl) in Hsize. discriminate.
  - rewrite (qsize_free me _ Hl) in Hsize. inversion Hsize; subst.
    unfold len in *; lia.
Qed.

Lemma bounded_occupancy_witness :
  let s := exec [0; 0; 0; 2; 1; 0; 2; 0; 0; 2; 0; 0; 1; 2; 0; 1; 0; 2; 1; 1]%nat
             (System (empty_queue (PyInt 2))
                (spawn [ProducerRun [PyObj 1 (VInt 1); PyObj 2 (VInt 2); PyObj 3 (VInt 3)]
                          (PyObj 0 VObject) false;
                        ConsumerRun [] (PyObj 0 VObject) false;
                        Script [OpQsize; OpPut (PyObj 4 (VInt 4)); OpQsize; OpGet] []])) in
  0 <= len (queue s) <= 2 ∧
  (∀ t th item, threads s !! t = Some th →
     cur th = Some (Put item PutAppend) → len (queue s) < 2) ∧
  (∀ t th, threads s !! t = Some th →
     cur th = Some (Get GetPop) → _queue (queue s) ≠ []) ∧
  (∀ t th e, threads s !! t = Some th → cur th ≠ Some (Get (GetRaise e))) ∧
  (∀ me item, len (queue s) = 2 →
     put_step me item PutTest (queue s) = Some (queue s, Some PutWait)) ∧
  (∀ me, len (queue s) = 0 →
     get_step me GetTest (queue s) = Some (queue s, inl GetWait)) ∧
  (∀ me item, _lock (queue s) = None → len (queue s) = 2 →
     ∃ q', put me (queue s) item = Blocks q' ∧ _queue q' = _queue (queue s)) ∧
  (∀ me, _lock (queue s) = None → len (queue s) = 0 →
     ∃ q', get me (queue s) = Blocks q' ∧ _queue q' = _queue (queue s)) ∧
  (∀ t th n, threads s !! t = Some th →
     (cur th = Some (Qsize (QsizeExit n)) ∨ RInt n ∈ results (prog th)) →
     0 <= n <= 2) ∧
  (∀ me n q', qsize me (queue s) = Returns (RInt n) q' → 0 <= n <= 2).
Proof.
  apply (bounded_occupancy 2 (empty_queue (PyInt 2))
           [ProducerRun [PyObj 1 (VInt 1); PyObj 2 (VInt 2); PyObj 3 (VInt 3)]
              (PyObj 0 VObject) false;
            ConsumerRun [] (PyObj 0 VObject) false;
            Script [OpQsize; OpPut (PyObj 4 (VInt 4)); OpQsize; OpGet] []]
           [0; 0; 0; 2; 1; 0; 2; 0; 0; 2; 0; 0; 1; 2; 0; 1; 0; 2; 1; 1]%nat).
  - reflexivity.
  - reflexivity.
  - repeat constructor.
Defined.

(** ** One producer and one consumer *)

Section Session.

Variables (c : Z) (sentinel : pyobj).

Lemma spsc_threads_ok s thP thC :
  threads s = [thP; thC] → monitor_inv c s →
  thread_ok c producer_tid (queue s) thP ∧ thread_ok c consumer_tid (queue s) thC.
Proof.
  intros Hths (_ & _ & _ & Hok). split; apply Hok; rewrite Hths; reflexivity.
Qed.

(** A producer transition moves an item from what is pending to the tail of
    the buffer, or moves nothing. *)
Lemma producer_step_stream q thP thP' q' :
  producer_ok sentinel thP →
  thread_step producer_tid thP q = Some (thP', q') →
  producer_ok sentinel thP' ∧
  _queue q' ++ pending thP' = _queue q ++ pending thP.
Proof.
  intros HP Hts.
  destruct thP as [[src sen flag| | |] curP]; try (destruct curP as [[]|]; contradiction).
  destruct q as [m b l ne nf].
  unfold thread_step, producer_ok, pending in *. simpl in *.
  destruct curP as [[x pc| |]|]; try (destruct flag; contradiction).
  - destruct flag; [contradiction|]. destruct HP as [-> Hhead].
    destruct pc; step_inv Hts; simpl; auto.
    all: destruct src as [|y src]; simpl in *; inversion Hhead; subst;
      rewrite <- ?app_assoc; auto.
  - destruct flag; simpl in *; subst sen;
      destruct src as [|y src]; step_inv Hts; simpl; auto.
Qed.

Lemma producer_step_waiters q thP thC thP' q' :
  thread_ok c producer_tid q thP →
  producer_ok sentinel thP →
  waiters_ok c q thP thC →
  thread_step producer_tid thP q = Some (thP', q') →
  waiters_ok c q' thP' thC.
Proof.
  intros (_ & _ & HatP) HP HW Hts.
  destruct thP as [[src sen flag| | |] curP]; try (destruct curP as [[]|]; contradiction).
  destruct q as [m b l ne nf].
  unfold thread_step, producer_ok, waiters_ok, len, producer_tid, consumer_tid in *.
  simpl in *.
  destruct HW as [Hne Hnf].
  destruct curP as [[x pc| |]|]; try (destruct flag; contradiction).
  - specialize (HatP _ eq_refl).
    destruct pc; step_inv Hts; simpl in *.
    all: destruct Hne as [-> | (-> & HcC & [-> | [y Hy]])]; try discriminate Hy.
    all: destruct Hnf as [-> | (-> & [z Hz] & Hfull)]; try discriminate Hz.
    all: simpl; split; eauto 8.
    all: try (unfold len in *; simpl in *; eauto 8).
    all: exfalso; match goal with H : _ ∉ _ |- _ => apply H; constructor end.
  - step_inv Hts; simpl in *.
    all: destruct Hne as [-> | (-> & HcC & [-> | [y Hy]])]; try discriminate Hy.
    all: destruct Hnf as [-> | (-> & [z Hz] & Hfull)]; try discriminate Hz.
    all: simpl; split; eauto 8.
Qed.

Lemma consumer_step_stream stream q thP thC thC' q' :
  thread_ok c consumer_tid q thC →
  consumer_ok sentinel thC →
  stream_ok stream sentinel q thP thC →
  thread_step consumer_tid thC q = Some (thC', q') →
  consumer_ok sentinel thC' ∧ stream_ok stream sentinel q' thP thC'.
Proof.
  intros (_ & _ & HatC) HC Hstream Hts.
  destruct thC as [[|dest sen stopped| |] curC]; try (destruct curC as [[]|]; contradiction).
  destruct q as [m b l ne nf].
  unfold thread_step, consumer_ok, stream_ok, in_hand in *. simpl in *.
  destruct curC as [[|pc|]|]; try (destruct stopped; contradiction).
  - destruct stopped; [contradiction|]. destruct HC as [-> Hdest].
    specialize (HatC _ eq_refl).
    destruct pc; step_inv Hts; simpl in *; auto.
    + eauto.
    + split; [split; [reflexivity|]|].
      * apply Forall_app. split; [assumption|]. repeat constructor. assumption.
      * rewrite <- app_assoc. reflexivity.
  - destruct stopped; simpl in *; step_inv Hts. simpl. auto.
Qed.

Lemma consumer_step_waiters q thP thC thC' q' :
  thread_ok c consumer_tid q thC →
  consumer_ok sentinel thC →
  waiters_ok c q thP thC →
  thread_step consumer_tid thC q = Some (thC', q') →
  waiters_ok c q' thP thC'.
Proof.
  intros (_ & _ & HatC) HC HW Hts.
  destruct thC as [[|dest sen stopped| |] curC]; try (destruct curC as [[]|]; contradiction).
  destruct q as [m b l ne nf].
  unfold thread_step, consumer_ok, waiters_ok, len, producer_tid, consumer_tid in *.
  simpl in *.
  destruct HW as [Hne Hnf].
  destruct curC as [[|pc|]|]; try (destruct stopped; contradiction).
  - specialize (HatC _ eq_refl).
    destruct pc; step_inv Hts; simpl in *.
    all: destruct Hne as [-> | (-> & HcC & Hb)]; try discriminate HcC.
    all: destruct Hnf as [-> | (-> & [z Hz] & [Hfull | [y Hy]])]; try discriminate Hy.
    all: simpl; split; eauto 8.
    all: try (unfold len in *; simpl in *; eauto 8).
    all: exfalso; match goal with H : _ ∉ _ |- _ => apply H; constructor end.
  - step_inv Hts; simpl in *.
    all: destruct Hne as [-> | (-> & HcC & Hb)]; try discriminate HcC.
    all: destruct Hnf as [-> | (-> & [z Hz] & [Hfull | [y Hy]])]; try discriminate Hy.
    all: simpl; split; eauto 8.
Qed.

Lemma spsc_step stream t s s' :
  spsc_inv c stream sentinel s → step t s = Some s' → spsc_inv c stream sentinel s'.
Proof.
  intros (thP & thC & Hths & Hmon & HP & HC & Hstream & HW) Hstep.
  pose proof (monitor_step c t s s' Hmon Hstep) as Hmon'.
  destruct (spsc_threads_ok s thP thC Hths Hmon) as [HokP HokC].
  destruct s as [q ths]; simpl in *; subst ths.
  unfold step in Hstep; simpl in Hstep.
  destruct t as [|[|t]]; simpl in Hstep; [| |discriminate].
  - destruct (thread_step 0%nat thP q) as [[thP' q']|] eqn:Hts; simpl in Hstep; [|discriminate].
    inversion Hstep; subst; clear Hstep.
    destruct (producer_step_stream q thP thP' q' HP Hts) as [HP' Heq].
    exists thP', thC. split; [reflexivity|]. do 3 (split; [assumption|]). split.
    + unfold stream_ok in *; simpl in *.
      destruct (prog thC) as [|dest sen stopped| |]; try contradiction.
      destruct stopped; simpl in *.
      * destruct Hstream as (x & Hx & Hs). exists x. rewrite Heq. auto.
      * rewrite Heq. assumption.
    + eapply producer_step_waiters; eassumption.
  - destruct (thread_step 1%nat thC q) as [[thC' q']|] eqn:Hts; simpl in Hstep; [|discriminate].
    inversion Hstep; subst; clear Hstep.
    destruct (consumer_step_stream stream q thP thC thC' q' HokC HC Hstream Hts)
      as [HC' Hstream'].
    exists thP, thC'. split; [reflexivity|]. do 4 (split; [assumption|]).
    eapply consumer_step_waiters; eassumption.
Qed.

Lemma spsc_exec stream sched : ∀ s,
  spsc_inv c stream sentinel s → spsc_inv c stream sentinel (exec sched s).
Proof.
  induction sched as [|t sched IH]; intros s Hs; simpl; [assumption|].
  apply IH. destruct (step t s) as [s'|] eqn:Hstep; simpl; [|assumption].
  eapply spsc_step; eassumption.
Qed.

Lemma spsc_init source q0 :
  __init__ (PyInt c) = inr q0 →
  spsc_inv c (source ++ [sentinel]) sentinel (session source sentinel q0).
Proof.
  intros Hinit. exists (Thread (ProducerRun source sentinel false) None),
    (Thread (ConsumerRun [] sentinel false) None).
  split; [reflexivity|]. split.
  { apply monitor_init; [assumption|]. repeat constructor. }
  apply init_int in Hinit as [_ ->].
  unfold producer_ok, consumer_ok, stream_ok, waiters_ok; simpl.
  repeat split; auto.
Qed.

Lemma is_not_self x : py_is x sentinel = true → ¬ is_not sentinel x.
Proof. unfold is_not. intros -> ?. discriminate. Qed.

(** The first object of the stream that is the sentinel is its last one. *)
Lemma stream_end source : ∀ dest x rest,
  Forall (is_not sentinel) source →
  py_is x sentinel = true →
  source ++ [sentinel] = dest ++ [x] ++ rest →
  dest = source ∧ rest = [].
Proof.
  induction source as [|y source IH]; intros dest x rest Hsrc Hx Heq.
  - destruct dest as [|d dest]; simpl in Heq.
    + inversion Heq; subst. auto.
    + inversion Heq as [[Hd Hnil]]. destruct dest; discriminate Hnil.
  - inversion Hsrc as [|? ? Hy Hsource]; subst.
    destruct dest as [|d dest]; simpl in Heq.
    + inversion Heq; subst. destruct (is_not_self x Hx Hy).
    + inversion Heq as [[Hd Htl]]. subst d.
      destruct (IH dest x rest Hsource Hx Htl) as [-> ->]. auto.
Qed.

Lemma finished_idle th : finished th = true → cur th = None ∧ next (prog th) = None.
Proof.
  unfold finished. destruct (cur th); [discriminate|].
  destruct (next (prog th)); [discriminate | auto].
Qed.

(** When both threads have ended, everything has been transferred, the
    buffer is empty and the lock is free. *)
Lemma spsc_finished source s :
  spsc_inv c (source ++ [sentinel]) sentinel s →
  Forall (is_not sentinel) source →
  all_finished s = true →
  destination s = source ∧ _queue (queue s) = [] ∧ _lock (queue s) = None.
Proof.
  intros (thP & thC & Hths & Hmon & HP & HC & Hstream & HW) Hsrc Hfin.
  destruct (spsc_threads_ok s thP thC Hths Hmon) as [HokP HokC].
  destruct Hmon as (_ & _ & Hown & _).
  unfold all_finished, destination in *. rewrite Hths in *. simpl in *.
  apply andb_true_iff in Hfin as [HfP Hfin].
  apply andb_true_iff in Hfin as [HfC _].
  apply finished_idle in HfP as [HcP HnP], HfC as [HcC HnC].
  destruct thP as [pP curP], thC as [pC curC]; simpl in *; subst curP curC.
  unfold producer_ok, consumer_ok, stream_ok, pending in *; simpl in *.
  destruct pC as [|dest sen stopped| |]; try contradiction.
  destruct stopped; [|discriminate].
  destruct Hstream as (x & Hx & Heq).
  apply stream_end in Heq as [-> Hrest]; [|assumption|assumption].
  apply app_eq_nil in Hrest as [Hb _].
  repeat split; try assumption.
  destruct (_lock (queue s)) as [t|] eqn:Hl; [|reflexivity].
  destruct HokP as (_ & HlP & _), HokC as (_ & HlC & _).
  unfold holds_lock in *; simpl in *.
  destruct (Hown t eq_refl) as [th Hth].
  destruct t as [|[|t]]; simpl in Hth; try discriminate.
  - destruct HlP as [_ HlP]. discriminate (HlP Hl).
  - destruct HlC as [_ HlC]. discriminate (HlC Hl).
Qed.

(** A thread inside a with block can always move. *)
Lemma holder_steps me th q :
  holds_lock th = true → is_Some (thread_step me th q).
Proof.
  destruct th as [p [[x pc|pc|pc]|]]; unfold holds_lock, thread_step; simpl;
    try discriminate; destruct pc; simpl; try discriminate; intros _; eauto.
  destruct (_queue q); simpl; eauto.
Qed.

(** With the lock free, a thread that cannot move has ended or sleeps on a
    condition that has not been notified. *)
Lemma free_stuck me th q :
  _lock q = None →
  thread_step me th q = None →
  finished th = true ∨
  (∃ x, cur th = Some (Put x PutBlocked) ∧ me ∈ _not_full q) ∨
  (cur th = Some (Get GetBlocked) ∧ me ∈ _not_empty q).
Proof.
  intros Hl Hstep.
  destruct th as [p [[x pc|pc|pc]|]]; unfold finished, thread_step in *; simpl in *.
  - destruct pc; simpl in Hstep; unfold wait_resume, acquire in Hstep;
      rewrite ?Hl in Hstep; simpl in Hstep; try discriminate.
    destruct (decide (me ∈ _not_full q)); [eauto | discriminate].
  - destruct pc; simpl in Hstep; unfold wait_resume, acquire in Hstep;
      rewrite ?Hl in Hstep; simpl in Hstep; try discriminate.
    + destruct (decide (me ∈ _not_empty q)); [eauto | discriminate].
    + destruct (_queue q); discriminate.
  - destruct pc; simpl in Hstep; unfold acquire in Hstep;
      rewrite ?Hl in Hstep; simpl in Hstep; discriminate.
  - destruct (next p); [discriminate | auto].
Qed.

Lemma step_thread t s th th' q' :
  threads s !! t = Some th →
  thread_step t th (queue s) = Some (th', q') →
  step t s = Some (System q' (<[t := th']> (threads s))).
Proof. intros Hth Hts. unfold step. rewrite Hth; simpl. rewrite Hts. reflexivity. Qed.

(** No deadlock: as long as a thread has not ended, some thread can move. *)
Lemma spsc_progress source s :
  0 < c →
  spsc_inv c (source ++ [sentinel]) sentinel s →
  Forall (is_not sentinel) source →
  all_finished s = false →
  ∃ t s', step t s = Some s'.
Proof.
  intros Hc (thP & thC & Hths & Hmon & HP & HC & Hstream & HW) Hsrc Hfin.
  destruct (spsc_threads_ok s thP thC Hths Hmon) as [HokP HokC].
  assert (HthP : threads s !! producer_tid = Some thP) by (rewrite Hths; reflexivity).
  assert (HthC : threads s !! consumer_tid = Some thC) by (rewrite Hths; reflexivity).
  cut (is_Some (thread_step producer_tid thP (queue s)) ∨
       is_Some (thread_step consumer_tid thC (queue s))).
  { intros [[[th' q'] Hts] | [[th' q'] Hts]].
    - exists producer_tid, (System q' (<[producer_tid := th']> (threads s))).
      apply (step_thread _ _ thP); assumption.
    - exists consumer_tid, (System q' (<[consumer_tid := th']> (threads s))).
      apply (step_thread _ _ thC); assumption. }
  destruct Hmon as (_ & _ & Hown & _).
  destruct (_lock (queue s)) as [t|] eqn:Hl.
  { destruct (Hown t eq_refl) as [th Hth]. rewrite Hths in Hth.
    destruct t as [|[|t]]; simpl in Hth.
    - left. apply holder_steps. apply HokP. assumption.
    - right. apply holder_steps. apply HokC. assumption.
    - rewrite lookup_nil in Hth. discriminate. }
  destruct (thread_step producer_tid thP (queue s)) as [rP|] eqn:HtsP; [left; eauto|].
  destruct (thread_step consumer_tid thC (queue s)) as [rC|] eqn:HtsC; [right; eauto|].
  exfalso.
  apply (free_stuck _ _ _ Hl) in HtsP, HtsC.
  unfold all_finished in Hfin. rewrite Hths in Hfin. simpl in Hfin.
  destruct thP as [pP curP], thC as [pC curC].
  unfold producer_ok, consumer_ok, stream_ok, waiters_ok, pending, in_hand, finished in *.
  simpl in *.
  destruct pP as [src sen flag| | |]; try (destruct curP as [[]|]; contradiction).
  destruct pC as [|dest sen' stopped| |]; try (destruct curC as [[]|]; contradiction).
  destruct HW as [Hne Hnf].
  destruct HtsP as [HfP | [(x & -> & HinP) | [-> _]]];
    [|destruct flag; [contradiction|]|destruct flag; contradiction];
    (destruct HtsC as [HfC | [(y & -> & _) | [-> HinC]]];
     [|destruct stopped; contradiction|destruct stopped; [contradiction|]]).
  - rewrite HfP, HfC in Hfin. discriminate.
  - destruct curP; [discriminate|]. destruct HC as [-> Hdest].
    assert (flag = true) as ->.
    { destruct flag; [reflexivity|]. destruct src; discriminate. }
    destruct Hne as [Hne | (_ & _ & [Hb | [z Hz]])]; [|rewrite Hb in *|discriminate].
    + rewrite Hne in HinC. inversion HinC.
    + simpl in Hstream. rewrite !app_nil_r in Hstream. subst dest.
      apply Forall_app in Hdest as [_ Hdest]. inversion Hdest as [|? ? Hself _].
      unfold is_not, py_is in Hself. rewrite Nat.eqb_refl in Hself. discriminate.
  - destruct curC; [discriminate|]. destruct stopped; [|discriminate].
    destruct Hstream as (z & Hz & Heq).
    apply stream_end in Heq as [_ Hrest]; [|assumption|assumption].
    apply app_eq_nil in Hrest as [_ Hrest].
    destruct src; discriminate.
  - destruct Hne as [Hne | (_ & _ & [Hb | [z Hz]])]; [| |discriminate].
    { rewrite Hne in HinC. inversion HinC. }
    destruct Hnf as [Hnf | (_ & _ & [Hfull | [z Hz]])]; [| |discriminate].
    { rewrite Hnf in HinP. inversion HinP. }
    unfold len in Hfull. rewrite Hb in Hfull. simpl in Hfull. lia.
Qed.

(** ** Termination *)

Lemma get_rank_bump a b pc : (get_rank a pc <= get_rank b pc + 3)%nat.
Proof. destruct pc, a, b; simpl; lia. Qed.

Lemma put_rank_bump a b pc : (put_rank a pc <= put_rank b pc + 3)%nat.
Proof. destruct pc, a, b; simpl; lia. Qed.

(** What a [notify] by the other thread can add to a thread's rank. *)
Lemma rank_bump me q q' th : (rank me q' th <= rank me q th + 3)%nat.
Proof.
  unfold rank. destruct (cur th) as [[? pc|pc|pc]|]; try lia.
  - apply put_rank_bump.
  - apply get_rank_bump.
Qed.

Lemma rank_consumer_same q q' thC :
  consumer_ok sentinel thC →
  _not_empty q' = _not_empty q →
  rank consumer_tid q' thC = rank consumer_tid q thC.
Proof.
  unfold rank, consumer_ok. intros HC ->.
  destruct thC as [[|dest sen stopped| |] [[]|]]; simpl in *;
    try contradiction; try reflexivity; destruct stopped; contradiction.
Qed.

Lemma rank_producer_same q q' thP :
  producer_ok sentinel thP →
  _not_full q' = _not_full q →
  rank producer_tid q' thP = rank producer_tid q thP.
Proof.
  unfold rank, producer_ok. intros HP ->.
  destruct thP as [[src sen flag| | |] [[]|]]; simpl in *;
    try contradiction; try reflexivity; destruct flag; contradiction.
Qed.

(** A producer transition either is the [notify] of a [put], or lowers the
    producer's rank and leaves [not_empty] alone. *)
Lemma producer_step_rank q thP thP' q' :
  producer_ok sentinel thP →
  thread_step producer_tid thP q = Some (thP', q') →
  (S (puts_left thP') = puts_left thP ∧
   (rank producer_tid q' thP' <= rank producer_tid q thP + 5)%nat) ∨
  (puts_left thP' = puts_left thP ∧
   (rank producer_tid q' thP' < rank producer_tid q thP)%nat ∧
   _not_empty q' = _not_empty q).
Proof.
  intros HP Hts.
  destruct thP as [[src sen flag| | |] curP]; try (destruct curP as [[]|]; contradiction).
  destruct q as [m b l ne nf].
  unfold thread_step, producer_ok, puts_left, rank, producer_tid in *.
  simpl in *.
  destruct curP as [[x pc| |]|]; try (destruct flag; contradiction).
  - destruct flag; [contradiction|]. destruct HP as [-> Hhead].
    destruct pc; step_inv Hts; simpl in *.
    all: try (right; repeat split; simpl; try lia; fail).
    + right. rewrite bool_decide_eq_true_2 by (apply elem_of_app; right; constructor).
      repeat split; lia.
    + right. rewrite bool_decide_eq_false_2 by assumption. repeat split; lia.
    + left. destruct src; simpl; split; lia.
  - destruct flag; simpl in *; subst sen; destruct src as [|y src]; step_inv Hts;
      simpl; right; repeat split; lia.
Qed.

Lemma consumer_step_rank q thP thC thC' q' :
  thread_ok c consumer_tid q thC →
  consumer_ok sentinel thC →
  thread_step consumer_tid thC q = Some (thC', q') →
  (S (gets_left q' thP thC') = gets_left q thP thC ∧
   (rank consumer_tid q' thC' <= rank consumer_tid q thC + 5)%nat) ∨
  (gets_left q' thP thC' = gets_left q thP thC ∧
   (rank consumer_tid q' thC' < rank consumer_tid q thC)%nat ∧
   _not_full q' = _not_full q).
Proof.
  intros (_ & _ & HatC) HC Hts.
  destruct thC as [[|dest sen stopped| |] curC]; try (destruct curC as [[]|]; contradiction).
  destruct q as [m b l ne nf].
  unfold thread_step, consumer_ok, gets_left, rank, consumer_tid in *.
  simpl in *.
  destruct curC as [[|pc|]|]; try (destruct stopped; contradiction).
  - destruct stopped; [contradiction|]. destruct HC as [-> Hdest].
    specialize (HatC _ eq_refl).
    destruct pc; step_inv Hts; simpl in *.
    all: try (right; repeat split; simpl; try lia; fail).
    + right. rewrite bool_decide_eq_true_2 by (apply elem_of_app; right; constructor).
      repeat split; lia.
    + right. rewrite bool_decide_eq_false_2 by assumption. repeat split; lia.
    + left. split; lia.
  - destruct stopped; simpl in *; step_inv Hts; simpl; right; repeat split; lia.
Qed.

(** Every transition of a session lowers the measure. *)
Lemma measure_step stream t s s' :
  spsc_inv c stream sentinel s → step t s = Some s' →
  (measure s' < measure s)%nat.
Proof.
  intros (thP & thC & Hths & Hmon & HP & HC & Hstream & HW) Hstep.
  destruct (spsc_threads_ok s thP thC Hths Hmon) as [HokP HokC].
  destruct s as [q ths]; simpl in *; subst ths.
  unfold step in Hstep; simpl in Hstep.
  destruct t as [|[|t]]; simpl in Hstep; [| |discriminate].
  - destruct (thread_step 0%nat thP q) as [[thP' q']|] eqn:Hts; simpl in Hstep;
      [|discriminate].
    inversion Hstep; subst; clear Hstep.
    destruct (producer_step_stream q thP thP' q' HP Hts) as [_ Heq].
    apply (f_equal (@length pyobj)) in Heq. rewrite !length_app in Heq.
    pose proof (rank_bump consumer_tid q q' thC) as Hbump.
    unfold measure, gets_left, weight; simpl.
    destruct (producer_step_rank q thP thP' q' HP Hts)
      as [[Hputs Hrank] | (Hputs & Hrank & Hne)].
    + lia.
    + rewrite (rank_consumer_same q q' thC HC Hne). lia.
  - destruct (thread_step 1%nat thC q) as [[thC' q']|] eqn:Hts; simpl in Hstep;
      [|discriminate].
    inversion Hstep; subst; clear Hstep.
    pose proof (rank_bump producer_tid q q' thP) as Hbump.
    unfold measure, weight; simpl.
    destruct (consumer_step_rank q thP thC thC' q' HokC HC Hts)
      as [[Hgets Hrank] | (Hgets & Hrank & Hnf)].
    + lia.
    + rewrite (rank_producer_same q q' thP HP Hnf). lia.
Qed.

Lemma moves_bounded stream sched : ∀ s,
  spsc_inv c stream sentinel s →
  (moves sched s + measure (exec sched s) <= measure s)%nat.
Proof.
  induction sched as [|t sched IH]; intros s Hs; simpl; [lia|].
  destruct (step t s) as [s'|] eqn:Hstep; simpl.
  - pose proof (measure_step stream t s s' Hs Hstep).
    pose proof (IH s' (spsc_step stream t s s' Hs Hstep)). lia.
  - apply IH. assumption.
Qed.

(** From any state of a session the threads can be scheduled to their end. *)
Lemma spsc_completes source : ∀ n s,
  0 < c →
  Forall (is_not sentinel) source →
  (measure s <= n)%nat →
  spsc_inv c (source ++ [sentinel]) sentinel s →
  ∃ sched, all_finished (exec sched s) = true.
Proof.
  induction n as [|n IH]; intros s Hc Hsrc Hn Hs.
  - destruct (all_finished s) eqn:Hfin; [exists []; assumption|].
    destruct (spsc_progress source s Hc Hs Hsrc Hfin) as (t & s' & Hstep).
    pose proof (measure_step _ t s s' Hs Hstep). lia.
  - destruct (all_finished s) eqn:Hfin; [exists []; assumption|].
    destruct (spsc_progress source s Hc Hs Hsrc Hfin) as (t & s' & Hstep).
    pose proof (measure_step _ t s s' Hs Hstep) as Hlt.
    destruct (IH s' Hc Hsrc ltac:(lia) (spsc_step _ t s s' Hs Hstep)) as [sched Hsched].
    exists (t :: sched). simpl. rewrite Hstep. assumption.
Qed.

End Session.

(** ** demo-mq.py *)




(** The capacity being smaller than the source does not make the threads
    sleep in every interleaving: in lockstep neither ever does; when the
    producer runs first it falls asleep on a full buffer. *)
Lemma sleeping_depends_on_schedule :
  all_finished (exec (lockstep 21) (session source_data SENTINEL (empty_queue (PyInt 10)))) = true ∧
  ever_asleep (lockstep 21) (session source_data SENTINEL (empty_queue (PyInt 10))) = false ∧
  ever_asleep (producer_first 70) (session source_data SENTINEL (empty_queue (PyInt 10))) = true.
Proof. vm_compute. auto. Qed.

(** * Further properties *)

(** ** Mutual exclusion *)

(** Only a thread inside a with block reads as changing the deque. *)
Lemma buffer_changed_by_holder me th q th' q' :
  thread_step me th q = Some (th', q') →
  _queue q' ≠ _queue q →
  holds_lock th = true.
Proof.
  intros Hts Hneq. destruct q as [m b l ne nf].
  destruct th as [p [[x pc|pc|pc]|]]; unfold thread_step in Hts;
    cbn [prog cur] in Hts.
  1-3: destruct pc; try reflexivity; step_inv Hts; simpl in *; congruence.
  destruct (next p); simpl in Hts; [|discriminate].
  inversion Hts; subst. simpl in Hneq. congruence.
Qed.

(** X1. Mutual exclusion: on a queue built with an integer capacity,
    whatever the threads run and however they are scheduled, at most one
    thread is inside a with block; the lock is held exactly while one is,
    by that thread; and every transition that changes the deque is made by
    the thread that holds the lock. *)
Theorem mutual_exclusion (c : Z) (q0 : BoundedBlockingQueue)
    (progs : list program) (sched : list tid) :
  __init__ (PyInt c) = inr q0 →
  Forall (λ p, results p = []) progs →
  let s := exec sched (System q0 (spawn progs)) in
  (∀ t1 t2 th1 th2,
     threads s !! t1 = Some th1 → threads s !! t2 = Some th2 →
     holds_lock th1 = true → holds_lock th2 = true → t1 = t2) ∧
  (∀ t th, threads s !! t = Some th →
     (holds_lock th = true ↔ _lock (queue s) = Some t)) ∧
  (∀ t, _lock (queue s) = Some t →
     ∃ th, threads s !! t = Some th ∧ holds_lock th = true) ∧
  (∀ t s', step t s = Some s' →
     _queue (queue s') ≠ _queue (queue s) → _lock (queue s) = Some t).
Proof.
  intros Hinit Hprogs s.
  assert (Hinv : monitor_inv c s) by (apply monitor_exec, monitor_init; assumption).
  destruct Hinv as (_ & _ & Hown & Hths).
  split; [|split; [|split]].
  - intros t1 t2 th1 th2 H1 H2 Hh1 Hh2.
    apply (Hths t1 th1 H1) in Hh1. apply (Hths t2 th2 H2) in Hh2. congruence.
  - intros t th Hth. apply (Hths t th Hth).
  - intros t Hl. destruct (Hown t Hl) as [th Hth]. exists th.
    split; [assumption|]. apply (Hths t th Hth). assumption.
  - intros t s' Hstep Hneq. unfold step in Hstep.
    destruct (threads s !! t) as [th|] eqn:Hth; simpl in Hstep; [|discriminate].
    destruct (thread_step t th (queue s)) as [[th' q']|] eqn:Hts; simpl in Hstep;
      [|discriminate].
    inversion Hstep; subst s'; simpl in Hneq.
    apply (Hths t th Hth). eapply buffer_changed_by_holder; eassumption.
Qed.

Lemma mutual_exclusion_witness :
  let s := exec [0; 0; 2; 1; 0; 2; 0; 1; 0; 2; 0; 1; 1; 2]%nat
             (System (empty_queue (PyInt 2))
                (spawn [ProducerRun [int_obj 1; int_obj 2] SENTINEL false;
                        ConsumerRun [] SENTINEL false;
                        Script [OpQsize; OpGet] []])) in
  (∀ t1 t2 th1 th2,
     threads s !! t1 = Some th1 → threads s !! t2 = Some th2 →
     holds_lock th1 = true → holds_lock th2 = true → t1 = t2) ∧
  (∀ t th, threads s !! t = Some th →
     (holds_lock th = true ↔ _lock (queue s) = Some t)) ∧
  (∀ t, _lock (queue s) = Some t →
     ∃ th, threads s !! t = Some th ∧ holds_lock th = true) ∧
  (∀ t s', step t s = Some s' →
     _queue (queue s') ≠ _queue (queue s) → _lock (queue s) = Some t).
Proof.
  apply (mutual_exclusion 2 (empty_queue (PyInt 2))
           [ProducerRun [int_obj 1; int_obj 2] SENTINEL false;
            ConsumerRun [] SENTINEL false;
            Script [OpQsize; OpGet] []]
           [0; 0; 2; 1; 0; 2; 0; 1; 0; 2; 0; 1; 1; 2]%nat).
  - reflexivity.
  - repeat constructor.
Defined.

(** ** Sleeping and waking *)

Lemma sleeper_stuck c me th q :
  sleeps_on c th → me ∈ waiters c q → thread_step me th q = None.
Proof.
  intros Hs Hin. destruct th as [p [[x pc|pc|pc]|]], c; simpl in Hs;
    try contradiction; destruct pc; try contradiction;
    unfold thread_step; simpl; unfold wait_resume; simpl in *;
    rewrite decide_True by assumption; reflexivity.
Qed.

Lemma waiter_stays c u t th q th' q' :
  thread_step t th q = Some (th', q') →
  notifies c th = false →
  u ∈ waiters c q → u ∈ waiters c q'.
Proof.
  intros Hts Hn Hin. destruct q as [m b l ne nf].
  destruct th as [p [[x pc|pc|pc]|]]; unfold thread_step in Hts;
    cbn [prog cur] in Hts.
  1-3: destruct c, pc; try discriminate Hn; step_inv Hts; simpl in *;
    try assumption; apply elem_of_app; left; assumption.
  destruct (next p); simpl in Hts; [|discriminate].
  inversion Hts; subst. assumption.
Qed.

(** X2. A thread asleep in [wait] stays where it is, and on the waiters of
    its condition, as long as no other thread makes the [notify] of that
    condition: a [put] asleep on a full queue does not go on before some
    [get] has notified [not_full], a [get] asleep on an empty queue does not
    go on before some [put] has notified [not_empty]. *)
Theorem sleeper_waits_for_notify (c : condition) (u : tid) (th : thread)
    (sched : list tid) : ∀ s : system,
  threads s !! u = Some th →
  sleeps_on c th →
  u ∈ waiters c (queue s) →
  notified c sched s = false →
  threads (exec sched s) !! u = Some th ∧ u ∈ waiters c (queue (exec sched s)).
Proof.
  induction sched as [|t sched IH]; intros s Hth Hs Hin Hn; simpl in *; [auto|].
  unfold step in *.
  destruct (threads s !! t) as [tht|] eqn:Htht; simpl in *; [|auto].
  destruct (thread_step t tht (queue s)) as [[tht' q']|] eqn:Hts; simpl in *; [|auto].
  apply orb_false_iff in Hn as [Hnt Hn].
  destruct (decide (t = u)) as [->|Hne].
  { rewrite Hth in Htht. inversion Htht; subst tht.
    rewrite (sleeper_stuck c u th (queue s) Hs Hin) in Hts. discriminate. }
  apply IH; simpl; try assumption.
  - rewrite list_lookup_insert_ne by assumption. assumption.
  - eapply waiter_stays; eassumption.
Qed.

Lemma sleeper_waits_for_notify_witness :
  threads (exec [1; 1; 1; 1; 0; 1; 1; 0; 1; 1; 1]%nat
             (System (Queue (PyInt 1) [int_obj 1] None [] [0%nat])
                [Thread (Script [OpPut (int_obj 2)] []) (Some (Put (int_obj 2) PutBlocked));
                 Thread (Script [OpQsize; OpPut (int_obj 3)] []) None])) !! 0%nat =
    Some (Thread (Script [OpPut (int_obj 2)] []) (Some (Put (int_obj 2) PutBlocked))) ∧
  0%nat ∈ waiters NotFull
           (queue (exec [1; 1; 1; 1; 0; 1; 1; 0; 1; 1; 1]%nat
                     (System (Queue (PyInt 1) [int_obj 1] None [] [0%nat])
                        [Thread (Script [OpPut (int_obj 2)] [])
                           (Some (Put (int_obj 2) PutBlocked));
                         Thread (Script [OpQsize; OpPut (int_obj 3)] []) None]))).
Proof.
  apply (sleeper_waits_for_notify NotFull 0%nat
           (Thread (Script [OpPut (int_obj 2)] []) (Some (Put (int_obj 2) PutBlocked)))
           [1; 1; 1; 1; 0; 1; 1; 0; 1; 1; 1]%nat
           (System (Queue (PyInt 1) [int_obj 1] None [] [0%nat])
              [Thread (Script [OpPut (int_obj 2)] []) (Some (Put (int_obj 2) PutBlocked));
               Thread (Script [OpQsize; OpPut (int_obj 3)] []) None])).
  - reflexivity.
  - exact I.
  - simpl. constructor.
  - vm_compute. reflexivity.
Defined.

(** X3. Hand-over to a sleeping [put]: on a free, full queue with nobody
    asleep on [not_full], [put(x)] goes to sleep without touching the
    buffer; a [get] by another thread then returns the head and wakes it;
    resumed, the [put] returns, and the buffer is the old one without its
    head and with [x] at its tail. *)
Theorem blocked_put_is_served (me other : tid) (q : BoundedBlockingQueue)
    (x : pyobj) (c : Z) :
  _maxsize q = PyInt c → 0 < c → len q = c →
  _lock q = None → _not_full q = [] →
  ∃ head rest q1 q2 q3,
    _queue q = head :: rest ∧
    put me q x = Blocks q1 ∧ _queue q1 = _queue q ∧ _not_full q1 = [me] ∧
    get other q1 = Returns (RItem head) q2 ∧ _not_full q2 = [] ∧
    run_call call_fuel me (Put x PutBlocked) q2 = Returns RNone q3 ∧
    _queue q3 = rest ++ [x] ∧ _lock q3 = None.
Proof.
  intros Hm Hc Hlen Hl Hnf. destruct q as [m b l ne nf]; unfold len in *;
    cbn [_queue _maxsize _lock _not_full] in *.
  subst m l nf. destruct b as [|head rest]; [simpl in Hlen; lia|].
  exists head, rest, (Queue (PyInt c) (head :: rest) None ne [me]),
    (Queue (PyInt c) rest None ne []),
    (Queue (PyInt c) (rest ++ [x]) None (tail ne) []).
  split; [reflexivity|].
  split.
  { apply put_full; [reflexivity|]. simpl. rewrite Z_ge_num_int.
    apply bool_decide_eq_true_2. unfold len; cbn [_queue]. lia. }
  split; [reflexivity|]. split; [reflexivity|].
  split; [apply get_some; reflexivity|]. split; [reflexivity|].
  split; [|split; reflexivity].
  unfold call_fuel; simpl. unfold len, set_lock; cbn [_queue _maxsize].
  rewrite Z_ge_num_int.
  rewrite bool_decide_eq_false_2 by (cbn [length] in Hlen; lia). reflexivity.
Qed.

Lemma blocked_put_is_served_witness :
  ∃ head rest q1 q2 q3,
    _queue (Queue (PyInt 1) [int_obj 1] None [] []) = head :: rest ∧
    put 1%nat (Queue (PyInt 1) [int_obj 1] None [] []) (int_obj 2) = Blocks q1 ∧
    _queue q1 = _queue (Queue (PyInt 1) [int_obj 1] None [] []) ∧
    _not_full q1 = [1%nat] ∧
    get 0%nat q1 = Returns (RItem head) q2 ∧ _not_full q2 = [] ∧
    run_call call_fuel 1%nat (Put (int_obj 2) PutBlocked) q2 = Returns RNone q3 ∧
    _queue q3 = rest ++ [int_obj 2] ∧ _lock q3 = None.
Proof.
  apply (blocked_put_is_served 1%nat 0%nat (Queue (PyInt 1) [int_obj 1] None [] [])
           (int_obj 2) 1); reflexivity.
Defined.

(** X4. Hand-over to a sleeping [get]: on a free, empty queue with nobody
    asleep on [not_empty], [get()] goes to sleep; a [put(x)] by another
    thread then returns and wakes it; resumed, the [get] returns [x] and
    leaves the buffer empty. *)
Theorem blocked_get_is_served (me other : tid) (q : BoundedBlockingQueue)
    (x : pyobj) (c : Z) :
  _maxsize q = PyInt c → 0 < c →
  _queue q = [] → _lock q = None → _not_empty q = [] →
  ∃ q1 q2 q3,
    get me q = Blocks q1 ∧ _queue q1 = [] ∧ _not_empty q1 = [me] ∧
    put other q1 x = Returns RNone q2 ∧ _queue q2 = [x] ∧ _not_empty q2 = [] ∧
    run_call call_fuel me (Get GetBlocked) q2 = Returns (RItem x) q3 ∧
    _queue q3 = [] ∧ _lock q3 = None.
Proof.
  intros Hm Hc Hb Hl Hne. destruct q as [m b l ne nf]; simpl in *.
  subst m b l ne.
  exists (Queue (PyInt c) [] None [me] nf), (Queue (PyInt c) [x] None [] nf),
    (Queue (PyInt c) [] None [] (tail nf)).
  split; [apply get_empty; reflexivity|].
  split; [reflexivity|]. split; [reflexivity|].
  split.
  { apply put_room; [reflexivity|]. simpl. rewrite Z_ge_num_int.
    apply bool_decide_eq_false_2. unfold len; simpl. lia. }
  repeat split.
Qed.

Lemma blocked_get_is_served_witness :
  ∃ q1 q2 q3,
    get 1%nat (empty_queue (PyInt 1)) = Blocks q1 ∧ _queue q1 = [] ∧
    _not_empty q1 = [1%nat] ∧
    put 0%nat q1 (int_obj 99) = Returns RNone q2 ∧ _queue q2 = [int_obj 99] ∧
    _not_empty q2 = [] ∧
    run_call call_fuel 1%nat (Get GetBlocked) q2 = Returns (RItem (int_obj 99)) q3 ∧
    _queue q3 = [] ∧ _lock q3 = None.
Proof.
  apply (blocked_get_is_served 1%nat 0%nat (empty_queue (PyInt 1)) (int_obj 99) 1);
    reflexivity.
Defined.

(** ** A thread left alone *)

Lemma thread_steps_app n m me th q :
  thread_steps (n + m) me th q =
  thread_steps n me th q ≫= λ '(th', q'), thread_steps m me th' q'.
Proof.
  revert th q. induction n as [|n IH]; intros th q; simpl; [reflexivity|].
  destruct (thread_step me th q) as [[th1 q1]|]; simpl; [apply IH | reflexivity].
Qed.

Lemma run_thread_stuck fuel me th q :
  finished th = false → thread_step me th q = None →
  run_thread (S fuel) me th q = Stuck th q.
Proof. intros Hf Hs. simpl. rewrite Hf, Hs. reflexivity. Qed.

Lemma thread_put_sleeps me p item q :
  next p = Some (OpPut item) →
  _lock q = None →
  Z_ge_num (len q) (_maxsize q) = true →
  thread_steps 4 me (Thread p None) q =
    Some (Thread p (Some (Put item PutBlocked)),
          set_waiters NotFull (_not_full q ++ [me]) q) ∧
  thread_step me (Thread p (Some (Put item PutBlocked)))
    (set_waiters NotFull (_not_full q ++ [me]) q) = None.
Proof.
  intros Hnext Hl Hfull.
  destruct q as [m b l ne nf]; unfold len in *; simpl in *; subst l. split.
  - unfold thread_steps, thread_step; simpl. rewrite Hnext; simpl.
    unfold len; simpl. rewrite Hfull. reflexivity.
  - unfold thread_step; simpl. unfold wait_resume; simpl.
    rewrite decide_True by (apply elem_of_app; right; constructor). reflexivity.
Qed.

(** One pass of a [get] over a queue that is free and not empty. *)
Lemma get_pass me p q item rest :
  next p = Some OpGet →
  _lock q = None →
  _queue q = item :: rest →
  thread_steps pass me (Thread p None) q =
    Some (Thread (resume p (RItem item)) None, notify NotFull (set_queue rest q)).
Proof.
  intros Hnext Hl Hq. destruct q as [m b l ne nf]; simpl in *; subst l b.
  unfold pass, thread_steps, thread_step; simpl. rewrite Hnext. reflexivity.
Qed.

Lemma thread_get_sleeps me p q :
  next p = Some OpGet →
  _lock q = None →
  _queue q = [] →
  thread_steps 4 me (Thread p None) q =
    Some (Thread p (Some (Get GetBlocked)),
          set_waiters NotEmpty (_not_empty q ++ [me]) q) ∧
  thread_step me (Thread p (Some (Get GetBlocked)))
    (set_waiters NotEmpty (_not_empty q ++ [me]) q) = None.
Proof.
  intros Hnext Hl Hb. destruct q as [m b l ne nf]; simpl in *; subst l b. split.
  - unfold thread_steps, thread_step; simpl. rewrite Hnext. reflexivity.
  - unfold thread_step; simpl. unfold wait_resume; simpl.
    rewrite decide_True by (apply elem_of_app; right; constructor). reflexivity.
Qed.

(** The four transitions of a [qsize] on a free queue. *)
Lemma qsize_pass me p q :
  next p = Some OpQsize →
  _lock q = None →
  thread_steps 4 me (Thread p None) q = Some (Thread (resume p (RInt (len q))) None, q).
Proof.
  intros Hnext Hl. destruct q as [m b l ne nf]; simpl in *; subst l.
  unfold thread_steps, thread_step; simpl. rewrite Hnext. reflexivity.
Qed.

(** X5. Without a sentinel the consumer never ends: run alone on a free
    queue that holds items none of which is the sentinel, it appends them
    all to its destination in order, empties the buffer, and then sleeps on
    [not_empty] for good. *)
Theorem consumer_without_sentinel_sleeps (me : tid) (sentinel : pyobj)
    (items : list pyobj) : ∀ (dest : list pyobj) (q : BoundedBlockingQueue) (fuel : nat),
  Forall (is_not sentinel) items →
  _lock q = None →
  _queue q = items →
  (pass * length items + 4 < fuel)%nat →
  ∃ q', run_thread fuel me (Thread (ConsumerRun dest sentinel false) None) q =
          Stuck (Thread (ConsumerRun (dest ++ items) sentinel false)
                   (Some (Get GetBlocked))) q' ∧
        _queue q' = [] ∧ _lock q' = None ∧ _not_empty q' = _not_empty q ++ [me].
Proof.
  induction items as [|item more IH]; intros dest q fuel Hitems Hl Hq Hfuel.
  - destruct (thread_get_sleeps me (ConsumerRun dest sentinel false) q eq_refl Hl Hq)
      as [Hsteps Hstuck].
    exists (set_waiters NotEmpty (_not_empty q ++ [me]) q).
    replace fuel with (4 + S (fuel - 5))%nat by (simpl in Hfuel; lia).
    rewrite (run_thread_steps 4 me _ _ _ _ _ Hsteps).
    rewrite run_thread_stuck by (reflexivity || assumption).
    rewrite app_nil_r. destruct q; simpl in *; auto.
  - inversion Hitems as [|? ? Hitem Hmore]; subst.
    replace fuel with (pass + (fuel - pass))%nat by (simpl in Hfuel; unfold pass in *; lia).
    rewrite (run_thread_steps pass me _ _ _ _ _
               (consumer_pass me dest sentinel q item more Hl Hq)).
    simpl resume. unfold is_not in Hitem. rewrite Hitem.
    destruct (IH (dest ++ [item]) (notify NotFull (set_queue more q)) (fuel - pass)%nat
                Hmore) as (q' & Hrun & Hb & Hl' & Hne); try assumption; try reflexivity.
    { simpl in Hfuel. unfold pass in *. lia. }
    exists q'. rewrite Hrun, <- app_assoc. auto.
Qed.

Lemma consumer_without_sentinel_sleeps_witness :
  ∃ q', run_thread 20 1%nat (Thread (ConsumerRun [] SENTINEL false) None)
          (Queue (PyInt 5) [int_obj 1; int_obj 2] None [] []) =
          Stuck (Thread (ConsumerRun ([] ++ [int_obj 1; int_obj 2]) SENTINEL false)
                   (Some (Get GetBlocked))) q' ∧
        _queue q' = [] ∧ _lock q' = None ∧
        _not_empty q' = _not_empty (Queue (PyInt 5) [int_obj 1; int_obj 2] None [] []) ++ [1%nat].
Proof.
  apply (consumer_without_sentinel_sleeps 1%nat SENTINEL [int_obj 1; int_obj 2] []
           (Queue (PyInt 5) [int_obj 1; int_obj 2] None [] []) 20).
  - repeat constructor.
  - reflexivity.
  - reflexivity.
  - vm_compute. lia.
Defined.

(** X6. What follows the sentinel is never consumed: a consumer run alone
    on a free queue that holds items, none of them the sentinel, then the
    sentinel, then anything, ends with those items appended, in order, to
    what its destination already held, and leaves in the buffer everything
    that followed the sentinel. *)
Theorem consumer_leaves_what_follows (me : tid) (sentinel : pyobj)
    (items rest dest : list pyobj) (q : BoundedBlockingQueue) (fuel : nat) :
  Forall (is_not sentinel) items →
  _lock q = None →
  _queue q = items ++ sentinel :: rest →
  (pass * S (length items) < fuel)%nat →
  ∃ q', run_thread fuel me (Thread (ConsumerRun dest sentinel false) None) q =
          Ends (Thread (ConsumerRun (dest ++ items) sentinel true) None) q' ∧
        _queue q' = rest ∧ _lock q' = None.
Proof.
  intros Hitems Hl Hq Hfuel.
  destruct (consumer_drains me sentinel items dest q rest
              (fuel - S (pass * S (length items))) Hitems Hl Hq) as (q' & Hrun & Hb).
  replace (pass * S (length items) + S (fuel - S (pass * S (length items))))%nat
    with fuel in Hrun by lia.
  exists q'. auto.
Qed.

Lemma consumer_leaves_what_follows_witness :
  ∃ q', run_thread 20 1%nat (Thread (ConsumerRun [int_obj 9] SENTINEL false) None)
          (Queue (PyInt 5) [int_obj 1; SENTINEL; int_obj 2; SENTINEL] None [] []) =
          Ends (Thread (ConsumerRun ([int_obj 9] ++ [int_obj 1]) SENTINEL true) None) q' ∧
        _queue q' = [int_obj 2; SENTINEL] ∧ _lock q' = None.
Proof.
  apply (consumer_leaves_what_follows 1%nat SENTINEL [int_obj 1] [int_obj 2; SENTINEL]
           [int_obj 9]
           (Queue (PyInt 5) [int_obj 1; SENTINEL; int_obj 2; SENTINEL] None [] []) 20).
  - repeat constructor.
  - reflexivity.
  - reflexivity.
  - vm_compute. lia.
Defined.

Lemma producer_fills_some me sentinel c : ∀ (k : nat) source q,
  _lock q = None →
  _maxsize q = PyInt c →
  len q + Z.of_nat k <= c →
  (k <= length source)%nat →
  ∃ q', thread_steps (pass * k) me (Thread (ProducerRun source sentinel false) None) q =
          Some (Thread (ProducerRun (drop k source) sentinel false) None, q') ∧
        _queue q' = _queue q ++ take k source ∧ _lock q' = None ∧
        _maxsize q' = PyInt c ∧ _not_full q' = _not_full q.
Proof.
  induction k as [|k IH]; intros source q Hl Hm Hroom Hk.
  - exists q. rewrite Nat.mul_0_r. simpl. rewrite drop_0, take_0, app_nil_r. auto.
  - destruct source as [|item source]; [simpl in Hk; lia|].
    replace (pass * S k)%nat with (pass + pass * k)%nat by lia.
    rewrite thread_steps_app.
    rewrite (producer_pass me (ProducerRun (item :: source) sentinel false) item q
               eq_refl Hl)
      by (rewrite Hm, Z_ge_num_int; apply bool_decide_eq_false; lia).
    simpl resume. cbn [mbind option_bind].
    destruct (IH source (notify NotEmpty (set_queue (_queue q ++ [item]) q)))
      as (q' & Hsteps & Hb & Hl' & Hm' & Hnf); try assumption.
    { unfold len in *; simpl. rewrite length_app; simpl. lia. }
    { simpl in Hk. lia. }
    exists q'. rewrite Hsteps, Hb. simpl. rewrite <- app_assoc. auto.
Qed.

(** X7. Back-pressure on a producer left alone: on a fresh queue of capacity
    [c] no larger than the source, the producer appends the first [c] items
    of the source and then sleeps on [not_full], inside the [put] of the
    next item, with the lock released; it never ends by itself. *)
Theorem producer_alone_fills_and_sleeps (me : tid) (sentinel : pyobj)
    (source : list pyobj) (c : Z) (q0 : BoundedBlockingQueue) (fuel : nat) :
  __init__ (PyInt c) = inr q0 →
  c <= Z.of_nat (length source) →
  (pass * Z.to_nat c + 4 < fuel)%nat →
  ∃ item q',
    run_thread fuel me (Thread (ProducerRun source sentinel false) None) q0 =
      Stuck (Thread (ProducerRun (drop (Z.to_nat c) source) sentinel false)
               (Some (Put item PutBlocked))) q' ∧
    (source ++ [sentinel]) !! Z.to_nat c = Some item ∧
    _queue q' = take (Z.to_nat c) source ∧
    _not_full q' = [me] ∧ _lock q' = None.
Proof.
  intros Hinit Hc Hfuel. apply init_int in Hinit as [Hpos ->].
  destruct (producer_fills_some me sentinel c (Z.to_nat c) source (empty_queue (PyInt c)))
    as (q1 & Hsteps & Hb & Hl & Hm & Hnf); try reflexivity.
  { unfold len; simpl. lia. }
  { lia. }
  simpl in Hb, Hnf.
  assert (Hitem : ∃ item, next (ProducerRun (drop (Z.to_nat c) source) sentinel false) =
                          Some (OpPut item) ∧
                          (source ++ [sentinel]) !! Z.to_nat c = Some item).
  { destruct (drop (Z.to_nat c) source) as [|item rest] eqn:Hdrop.
    - exists sentinel. split; [reflexivity|].
      rewrite lookup_app_r by (apply (f_equal length) in Hdrop; rewrite length_drop in Hdrop; simpl in Hdrop; lia).
      replace (Z.to_nat c - length source)%nat with O
        by (apply (f_equal length) in Hdrop; rewrite length_drop in Hdrop; simpl in Hdrop; lia).
      reflexivity.
    - exists item. split; [reflexivity|].
      assert (Hlk : source !! Z.to_nat c = Some item).
      { rewrite <- (Nat.add_0_r (Z.to_nat c)), <- lookup_drop, Hdrop. reflexivity. }
      apply lookup_app_l_Some. assumption. }
  destruct Hitem as (item & Hnext & Hlookup).
  destruct (thread_put_sleeps me _ item q1 Hnext Hl) as [Hsleep Hstuck].
  { rewrite Hm, Z_ge_num_int. apply bool_decide_eq_true_2.
    unfold len. rewrite Hb, length_take. lia. }
  exists item, (set_waiters NotFull (_not_full q1 ++ [me]) q1).
  replace fuel with (pass * Z.to_nat c + (4 + S (fuel - (pass * Z.to_nat c + 5))))%nat by lia.
  rewrite (run_thread_steps _ me _ _ _ _ _ Hsteps).
  rewrite (run_thread_steps 4 me _ _ _ _ _ Hsleep).
  rewrite run_thread_stuck by (reflexivity || assumption).
  split; [reflexivity|]. split; [assumption|].
  rewrite Hnf. destruct q1; simpl in *; auto.
Qed.

Lemma producer_alone_fills_and_sleeps_witness :
  ∃ item q',
    run_thread 30 0%nat
      (Thread (ProducerRun [int_obj 1; int_obj 2; int_obj 3] SENTINEL false) None)
      (empty_queue (PyInt 2)) =
      Stuck (Thread (ProducerRun (drop (Z.to_nat 2) [int_obj 1; int_obj 2; int_obj 3])
                       SENTINEL false)
               (Some (Put item PutBlocked))) q' ∧
    ([int_obj 1; int_obj 2; int_obj 3] ++ [SENTINEL]) !! Z.to_nat 2 = Some item ∧
    _queue q' = take (Z.to_nat 2) [int_obj 1; int_obj 2; int_obj 3] ∧
    _not_full q' = [0%nat] ∧ _lock q' = None.
Proof.
  apply (producer_alone_fills_and_sleeps 0%nat SENTINEL
           [int_obj 1; int_obj 2; int_obj 3] 2 (empty_queue (PyInt 2)) 30).
  - reflexivity.
  - simpl. lia.
  - vm_compute. lia.
Defined.

Lemma script_refines me c : ∀ ops q rs0 rs b undone,
  _lock q = None →
  _maxsize q = PyInt c →
  fifo_model c (_queue q) ops = (rs, b, undone) →
  ∃ n th q',
    (n <= pass * length ops + 4)%nat ∧
    (∀ extra, run_thread (n + S extra) me (Thread (Script ops rs0) None) q =
              match undone with [] => Ends th q' | _ :: _ => Stuck th q' end) ∧
    prog th = Script undone (rs0 ++ rs) ∧ _queue q' = b ∧ _lock q' = None.
Proof.
  induction ops as [|o ops IH]; intros q rs0 rs b undone Hl Hm Hmodel.
  - simpl in Hmodel. inversion Hmodel; subst.
    exists O, (Thread (Script [] rs0) None), q. rewrite app_nil_r.
    split; [lia|]. auto.
  - destruct o as [item| |]; simpl in Hmodel.
    + destruct (c <=? Z.of_nat (length (_queue q))) eqn:Hfull.
      * inversion Hmodel; subst. apply Z.leb_le in Hfull.
        destruct (thread_put_sleeps me (Script (OpPut item :: ops) rs0) item q eq_refl Hl)
          as [Hsleep Hstuck].
        { rewrite Hm, Z_ge_num_int. apply bool_decide_eq_true_2. exact Hfull. }
        exists 4%nat, (Thread (Script (OpPut item :: ops) rs0) (Some (Put item PutBlocked))),
          (set_waiters NotFull (_not_full q ++ [me]) q).
        split; [lia|]. split.
        { intros extra. rewrite (run_thread_steps 4 me _ _ _ _ _ Hsleep).
          apply run_thread_stuck; [reflexivity | assumption]. }
        rewrite app_nil_r. destruct q; simpl in *; auto.
      * apply Z.leb_gt in Hfull.
        destruct (fifo_model c (_queue q ++ [item]) ops) as [[rs1 b1] undone1] eqn:Hrest.
        inversion Hmodel; subst.
        destruct (IH (notify NotEmpty (set_queue (_queue q ++ [item]) q))
                    (rs0 ++ [RNone]) rs1 b undone Hl Hm Hrest)
          as (n & th & q' & Hn & Hrun & Hprog & Hb & Hl').
        exists (pass + n)%nat, th, q'. split; [cbn [length]; unfold pass in *; lia|]. split.
        { intros extra. rewrite <- Nat.add_assoc.
          rewrite (run_thread_steps pass me _ _ _ _ _
                     (producer_pass me (Script (OpPut item :: ops) rs0) item q eq_refl Hl
                        ltac:(rewrite Hm, Z_ge_num_int; apply bool_decide_eq_false_2;
                              unfold len; lia))).
          apply Hrun. }
        rewrite Hprog, <- app_assoc. auto.
    + destruct (_queue q) as [|item buffer'] eqn:Hq.
      * inversion Hmodel; subst.
        destruct (thread_get_sleeps me (Script (OpGet :: ops) rs0) q eq_refl Hl Hq)
          as [Hsleep Hstuck].
        exists 4%nat, (Thread (Script (OpGet :: ops) rs0) (Some (Get GetBlocked))),
          (set_waiters NotEmpty (_not_empty q ++ [me]) q).
        split; [lia|]. split.
        { intros extra. rewrite (run_thread_steps 4 me _ _ _ _ _ Hsleep).
          apply run_thread_stuck; [reflexivity | assumption]. }
        rewrite app_nil_r. destruct q; simpl in *; auto.
      * destruct (fifo_model c buffer' ops) as [[rs1 b1] undone1] eqn:Hrest.
        inversion Hmodel; subst.
        destruct (IH (notify NotFull (set_queue buffer' q))
                    (rs0 ++ [RItem item]) rs1 b undone Hl Hm Hrest)
          as (n & th & q' & Hn & Hrun & Hprog & Hb & Hl').
        exists (pass + n)%nat, th, q'. split; [cbn [length]; unfold pass in *; lia|]. split.
        { intros extra. rewrite <- Nat.add_assoc.
          rewrite (run_thread_steps pass me _ _ _ _ _
                     (get_pass me (Script (OpGet :: ops) rs0) q item buffer' eq_refl Hl Hq)).
          apply Hrun. }
        rewrite Hprog, <- app_assoc. auto.
    + destruct (fifo_model c (_queue q) ops) as [[rs1 b1] undone1] eqn:Hrest.
      inversion Hmodel; subst.
      destruct (IH q (rs0 ++ [RInt (len q)]) rs1 b undone Hl Hm Hrest)
        as (n & th & q' & Hn & Hrun & Hprog & Hb & Hl').
      exists (4 + n)%nat, th, q'. split; [cbn [length]; unfold pass in *; lia|]. split.
      { intros extra. rewrite <- Nat.add_assoc.
        rewrite (run_thread_steps 4 me _ _ _ _ _
                   (qsize_pass me (Script (OpQsize :: ops) rs0) q eq_refl Hl)).
        apply Hrun. }
      rewrite Hprog, <- app_assoc. auto.
Qed.

(** X8. One thread sees a first-in first-out list: a caller making any
    sequence of [put], [get] and [qsize] calls, alone, on a free queue of
    capacity [c] gets back exactly what a list of capacity [c] gives, and
    leaves that list as the buffer; it ends when every call returned, and at
    the first [put] on a full buffer or [get] on an empty one it sleeps for
    good with the calls that remain not made. *)
Theorem script_behaves_as_fifo (me : tid) (c : Z) (ops : list op)
    (q : BoundedBlockingQueue) (fuel : nat)
    (rs : list retval) (b : list pyobj) (undone : list op) :
  _lock q = None →
  _maxsize q = PyInt c →
  fifo_model c (_queue q) ops = (rs, b, undone) →
  (pass * length ops + 4 < fuel)%nat →
  ∃ th q',
    run_thread fuel me (Thread (Script ops []) None) q =
      match undone with [] => Ends th q' | _ :: _ => Stuck th q' end ∧
    prog th = Script undone rs ∧ _queue q' = b ∧ _lock q' = None.
Proof.
  intros Hl Hm Hmodel Hfuel.
  destruct (script_refines me c ops q [] rs b undone Hl Hm Hmodel)
    as (n & th & q' & Hn & Hrun & Hprog & Hb & Hl').
  exists th, q'. split; [|auto].
  replace fuel with (n + S (fuel - S n))%nat by lia. apply Hrun.
Qed.

Lemma script_behaves_as_fifo_witness :
  ∃ th q',
    run_thread 50 0%nat
      (Thread (Script [OpPut (int_obj 1); OpPut (int_obj 2); OpQsize; OpGet; OpGet; OpGet;
                       OpPut (int_obj 3)] []) None)
      (empty_queue (PyInt 2)) = Stuck th q' ∧
    prog th = Script [OpGet; OpPut (int_obj 3)]
                [RNone; RNone; RInt 2; RItem (int_obj 1); RItem (int_obj 2)] ∧
    _queue q' = [] ∧ _lock q' = None.
Proof.
  apply (script_behaves_as_fifo 0%nat 2
           [OpPut (int_obj 1); OpPut (int_obj 2); OpQsize; OpGet; OpGet; OpGet;
            OpPut (int_obj 3)]
           (empty_queue (PyInt 2)) 50
           [RNone; RNone; RInt 2; RItem (int_obj 1); RItem (int_obj 2)] []
           [OpGet; OpPut (int_obj 3)]).
  - reflexivity.
  - reflexivity.
  - reflexivity.
  - vm_compute. lia.
Defined.

(** ** Capacities that are never reached *)

Lemma put_all_never_full me items : ∀ q,
  (∀ z, Z_ge_num z (_maxsize q) = false) →
  _lock q = None →
  ∃ q', put_all me q items = Some q' ∧ _queue q' = _queue q ++ items ∧
        _maxsize q' = _maxsize q.
Proof.
  induction items as [|item rest IH]; intros q Hm Hl; simpl.
  - exists q. rewrite app_nil_r. auto.
  - rewrite put_room by auto.
    destruct (IH (notify NotEmpty (set_queue (_queue q ++ [item]) q)))
      as (q' & Hput & Hb & Hm'); try assumption.
    exists q'. rewrite Hput, Hb. simpl. rewrite <- app_assoc. auto.
Qed.

(** X9. A capacity of NaN or of plus infinity makes the queue unbounded:
    construction accepts it, and no [put] ever waits, however many items
    are put with no [get] in between. *)
Theorem nan_or_infinite_capacity_is_unbounded (me : tid) (maxsize : pynum)
    (items : list pyobj) :
  maxsize = PyFloat FNan ∨ maxsize = PyFloat (FInf false) →
  __init__ maxsize = inr (empty_queue maxsize) ∧
  ∃ q', put_all me (empty_queue maxsize) items = Some q' ∧ _queue q' = items.
Proof.
  intros Hm. split; [destruct Hm as [-> | ->]; reflexivity|].
  destruct (put_all_never_full me items (empty_queue maxsize)) as (q' & Hput & Hb & _).
  - intros z. destruct Hm as [-> | ->]; reflexivity.
  - reflexivity.
  - exists q'. auto.
Qed.

Lemma nan_or_infinite_capacity_is_unbounded_witness :
  __init__ (PyFloat FNan) = inr (empty_queue (PyFloat FNan)) ∧
  ∃ q', put_all 0%nat (empty_queue (PyFloat FNan)) [int_obj 1; int_obj 2; int_obj 3] = Some q' ∧
        _queue q' = [int_obj 1; int_obj 2; int_obj 3].
Proof.
  apply (nan_or_infinite_capacity_is_unbounded 0%nat (PyFloat FNan)
           [int_obj 1; int_obj 2; int_obj 3]).
  left. reflexivity.
Defined.


(** ** Sessions with any source and any capacity *)

Lemma before_sentinel_prefix sentinel dest x rest :
  Forall (is_not sentinel) dest → py_is x sentinel = true →
  before_sentinel sentinel (dest ++ x :: rest) = dest.
Proof.
  intros Hdest Hx. induction Hdest as [|d dest Hd _ IH]; simpl.
  - rewrite Hx. reflexivity.
  - unfold is_not in Hd. rewrite Hd, IH. reflexivity.
Qed.

Lemma before_sentinel_app sentinel source rest :
  before_sentinel sentinel (source ++ sentinel :: rest) = before_sentinel sentinel source.
Proof.
  induction source as [|y source IH]; simpl.
  - unfold py_is. rewrite Nat.eqb_refl. reflexivity.
  - destruct (py_is y sentinel); [reflexivity|]. rewrite IH. reflexivity.
Qed.



(** X11. The consumer stops at the first sentinel: for any source, even one
    that holds the sentinel object, and any interleaving, once the consumer
    thread has ended its destination is exactly the items of the source that
    come before the first object that is the sentinel. *)
Theorem consumer_ends_at_first_sentinel (c : Z) (q0 : BoundedBlockingQueue)
    (source : list pyobj) (sentinel : pyobj) (sched : list tid) (thC : thread) :
  __init__ (PyInt c) = inr q0 →
  threads (exec sched (session source sentinel q0)) !! consumer_tid = Some thC →
  finished thC = true →
  destination (exec sched (session source sentinel q0)) =
    before_sentinel sentinel source.
Proof.
  intros Hinit HthC Hfin.
  pose proof (spsc_exec c sentinel _ sched _ (spsc_init c sentinel source q0 Hinit))
    as (thP & thC' & Hths & _ & _ & HC & Hstream & _).
  unfold destination. rewrite HthC. rewrite Hths in HthC. simpl in HthC.
  inversion HthC; subst thC'; clear HthC.
  apply finished_idle in Hfin as [Hcur Hnext].
  destruct thC as [pC curC]; simpl in *; subst curC.
  unfold consumer_ok, stream_ok in *; simpl in *.
  destruct pC as [|dest sen stopped| |]; try contradiction.
  destruct stopped; [|discriminate]. destruct HC as [_ Hdest].
  destruct Hstream as (x & Hx & Heq).
  rewrite <- (before_sentinel_app sentinel source []).
  change (source ++ [sentinel]) with (source ++ sentinel :: []) in Heq.
  rewrite Heq. symmetry. apply before_sentinel_prefix; assumption.
Qed.

Lemma consumer_ends_at_first_sentinel_witness :
  destination (exec (lockstep 2)
                 (session [int_obj 1; SENTINEL; int_obj 2] SENTINEL (empty_queue (PyInt 5)))) =
    before_sentinel SENTINEL [int_obj 1; SENTINEL; int_obj 2].
Proof.
  apply (consumer_ends_at_first_sentinel 5 (empty_queue (PyInt 5))
           [int_obj 1; SENTINEL; int_obj 2] SENTINEL (lockstep 2)
           (Thread (ConsumerRun [int_obj 1] SENTINEL true) None)).
  - reflexivity.
  - vm_compute. reflexivity.
  - reflexivity.
Defined.

Lemma measure_session source sentinel q0 :
  _queue q0 = [] →
  measure (session source sentinel q0) = (20 * S (length source) + 8)%nat.
Proof.
  intros Hb. unfold measure, session, spawn, puts_left, gets_left, pending, rank, weight.
  simpl. rewrite Hb, length_app. simpl. lia.
Qed.

(** X12. A session ends, whatever the source and the capacity: with a source
    that does not hold the sentinel object and a queue of any capacity
    [c > 0], in every interleaving some thread can move as long as one has
    not ended (no deadlock, no lost wake-up); the turns that remain can be
    chosen so that both end; no interleaving has more than
    [20 * (len(source) + 1) + 8] moves; and once both have ended the
    destination is the source, the buffer is empty and the lock is free. *)
Theorem session_transfers_and_ends (c : Z) (q0 : BoundedBlockingQueue)
    (source : list pyobj) (sentinel : pyobj) (sched : list tid) :
  __init__ (PyInt c) = inr q0 →
  Forall (is_not sentinel) source →
  let s := exec sched (session source sentinel q0) in
  (all_finished s = true →
   destination s = source ∧ _queue (queue s) = [] ∧ _lock (queue s) = None) ∧
  (all_finished s = false → ∃ t s', step t s = Some s') ∧
  (∃ rest, all_finished (exec rest s) = true) ∧
  (moves sched (session source sentinel q0) <= 20 * S (length source) + 8)%nat.
Proof.
  intros Hinit Hsrc s.
  pose proof (spsc_init c sentinel source q0 Hinit) as Hq0.
  pose proof (spsc_exec c sentinel _ sched _ Hq0) as Hs. fold s in Hs.
  pose proof (init_int c q0 Hinit) as [Hc Heq].
  split; [|split; [|split]].
  - intros Hfin. apply (spsc_finished c sentinel source s Hs Hsrc Hfin).
  - intros Hfin. apply (spsc_progress c sentinel source s Hc Hs Hsrc Hfin).
  - apply (spsc_completes c sentinel source _ s Hc Hsrc (Nat.le_refl _) Hs).
  - pose proof (moves_bounded c sentinel _ sched _ Hq0) as Hmoves.
    rewrite measure_session in Hmoves by (subst q0; reflexivity). lia.
Qed.

Lemma session_transfers_and_ends_witness :
  let s := exec (lockstep 3)
             (session [int_obj 1; int_obj 2] SENTINEL (empty_queue (PyInt 1))) in
  (all_finished s = true →
   destination s = [int_obj 1; int_obj 2] ∧ _queue (queue s) = [] ∧
   _lock (queue s) = None) ∧
  (all_finished s = false → ∃ t s', step t s = Some s') ∧
  (∃ rest, all_finished (exec rest s) = true) ∧
  (moves (lockstep 3) (session [int_obj 1; int_obj 2] SENTINEL (empty_queue (PyInt 1))) <=
   20 * S (length [int_obj 1; int_obj 2]) + 8)%nat.
Proof.
  apply (session_transfers_and_ends 1 (empty_queue (PyInt 1))
           [int_obj 1; int_obj 2] SENTINEL (lockstep 3)).
  - reflexivity.
  - repeat constructor.
Defined.

(** ** Any number of producers and consumers *)

Lemma next_put p item :
  next p = Some (OpPut item) →
  puts_of p = item :: tail (puts_of p) ∧
  puts_of (resume p RNone) = tail (puts_of p) ∧
  taken (resume p RNone) = taken p ∧
  (∀ total, same_object total p → same_object total (resume p RNone)).
Proof.
  destruct p as [[|y src] sen []|dest sen []|[|[]] rs|e]; simpl; intros [= <-];
    repeat split; auto.
  unfold got_items. rewrite omap_app. simpl. rewrite app_nil_r. reflexivity.
Qed.

Lemma next_get total p item :
  next p = Some OpGet →
  same_object total p → item ∈ total →
  puts_of (resume p (RItem item)) = puts_of p ∧
  taken (resume p (RItem item)) ≡ₚ taken p ++ [item] ∧
  same_object total (resume p (RItem item)).
Proof.
  destruct p as [[|y src] sen []|dest sen []|[|[]] rs|e]; simpl; intros [= ] Hsame Hin.
  - destruct (py_is item sen) eqn:Hid; simpl.
    + rewrite (Hsame item Hin Hid), !app_nil_r. repeat split; auto.
    + rewrite !app_nil_r. repeat split; auto.
  - unfold got_items. rewrite omap_app. simpl. repeat split; auto.
Qed.

Lemma next_qsize p n :
  next p = Some OpQsize →
  puts_of (resume p (RInt n)) = puts_of p ∧
  taken (resume p (RInt n)) = taken p ∧
  (∀ total, same_object total p → same_object total (resume p (RInt n))).
Proof.
  destruct p as [[|y src] sen []|dest sen []|[|[]] rs|e]; simpl; intros [= ];
    repeat split; auto.
  unfold got_items. rewrite omap_app. simpl. rewrite app_nil_r. reflexivity.
Qed.

(** A transition moves items between the buffer and the thread that makes
    it; it adds none and drops none. *)
Lemma owned_step c total t th q th' q' :
  thread_ok c t q th →
  call_ok th →
  same_object total (prog th) →
  (∀ x, x ∈ in_hand th → x ∈ total) →
  thread_step t th q = Some (th', q') →
  call_ok th' ∧ same_object total (prog th') ∧
  _queue q' ++ owned th' ≡ₚ _queue q ++ owned th.
Proof.
  intros (_ & _ & Hat) Hcall Hsame Hhand Hts.
  destruct th as [p [cl|]]; unfold thread_step in Hts; cbn [prog cur] in Hts.
  - specialize (Hat cl eq_refl). specialize (Hcall cl eq_refl).
    set (after := resume p) in Hts.
    destruct q as [m b l ne nf]. unfold call_ok, owned, in_hand in *. simpl in *.
    destruct cl as [x pc|pc|pc]; simpl in Hcall.
    + destruct (next_put p x Hcall) as (Hputs & Hputs' & Htaken & Hsame').
      specialize (Hsame' total Hsame).
      change (resume p) with after in Hputs', Htaken, Hsame'. clearbody after.
      destruct pc; step_inv Hts; simpl.
      all: try (split; [intros ? [= <-]; assumption|]; split; [assumption|]; reflexivity).
      * split; [intros ? [= <-]; assumption|]. split; [assumption|].
        rewrite Hputs at 2. solve_Permutation.
      * split; [intros ? [=]|]. split; [assumption|]. rewrite Hputs', Htaken. reflexivity.
    + assert (Hget : ∀ item, item ∈ total →
                puts_of (after (RItem item)) = puts_of p ∧
                taken (after (RItem item)) ≡ₚ taken p ++ [item] ∧
                same_object total (after (RItem item)))
        by (intros item Hin; apply next_get; assumption).
      clearbody after.
      destruct pc; step_inv Hts; simpl in *.
      all: try (split; [intros ? [= <-]; assumption|]; split; [assumption|]; reflexivity).
      all: try contradiction.
      * split; [intros ? [= <-]; assumption|]. split; [assumption|]. solve_Permutation.
      * destruct (Hget item) as (Hputs' & Htaken & Hsame').
        { apply Hhand. left. }
        split; [intros ? [=]|]. split; [assumption|].
        rewrite Hputs', Htaken. solve_Permutation.
    + assert (Hsize : ∀ n, puts_of (after (RInt n)) = puts_of p ∧
                taken (after (RInt n)) = taken p ∧
                same_object total (after (RInt n))).
      { intros n. destruct (next_qsize p n Hcall) as (? & ? & Hs). auto. }
      clearbody after.
      destruct pc; step_inv Hts; simpl in *.
      all: try (split; [intros ? [= <-]; assumption|]; split; [assumption|]; reflexivity).
      destruct (Hsize n) as (Hputs' & Htaken & Hsame').
      split; [intros ? [=]|]. split; [assumption|]. rewrite Hputs', Htaken. reflexivity.
  - destruct (next p) as [o|] eqn:Hnext; simpl in Hts; [|discriminate].
    inversion Hts; subst. unfold call_ok, owned, in_hand. simpl.
    split; [intros ? [= <-]; destruct o; assumption|]. split; [assumption|].
    destruct o; reflexivity.
Qed.

Lemma in_flight_split q ths t th :
  ths !! t = Some th →
  q ++ concat (map owned ths) ≡ₚ
  (q ++ owned th) ++ concat (map owned (take t ths)) ++ concat (map owned (drop (S t) ths)).
Proof.
  intros Hth. rewrite <- (take_drop_middle ths t th Hth) at 1.
  rewrite map_app, concat_app. simpl. solve_Permutation.
Qed.

Lemma in_flight_insert q ths t th th' :
  ths !! t = Some th →
  q ++ concat (map owned (<[t := th']> ths)) ≡ₚ
  (q ++ owned th') ++ concat (map owned (take t ths)) ++ concat (map owned (drop (S t) ths)).
Proof.
  intros Hth. rewrite insert_take_drop by (eapply lookup_lt_Some; eassumption).
  rewrite map_app, concat_app. simpl. solve_Permutation.
Qed.

Lemma conserved_step c total t s s' :
  monitor_inv c s →
  in_flight s ≡ₚ total →
  (∀ u th, threads s !! u = Some th → call_ok th ∧ same_object total (prog th)) →
  step t s = Some s' →
  in_flight s' ≡ₚ total ∧
  (∀ u th, threads s' !! u = Some th → call_ok th ∧ same_object total (prog th)).
Proof.
  intros Hmon Hperm Hths Hstep. unfold step in Hstep.
  destruct (threads s !! t) as [th|] eqn:Hth; simpl in Hstep; [|discriminate].
  destruct (thread_step t th (queue s)) as [[th' q']|] eqn:Hts; simpl in Hstep;
    [|discriminate].
  inversion Hstep; subst s'; clear Hstep.
  destruct Hmon as (_ & _ & _ & Hok).
  destruct (Hths t th Hth) as [Hcall Hsame].
  destruct (owned_step c total t th (queue s) th' q' (Hok t th Hth) Hcall Hsame)
    as (Hcall' & Hsame' & Hmove); [|assumption|].
  { intros x Hx. rewrite <- Hperm. unfold in_flight.
    rewrite (in_flight_split _ _ t th Hth). unfold owned at 1.
    rewrite !elem_of_app. auto. }
  split.
  - unfold in_flight in *; simpl.
    rewrite (in_flight_insert _ _ t th th' Hth), Hmove.
    rewrite <- (in_flight_split _ _ t th Hth). assumption.
  - simpl. intros u thu Hu. destruct (decide (u = t)) as [->|Hne].
    + rewrite list_lookup_insert_eq in Hu by (eapply lookup_lt_Some; eassumption).
      inversion Hu; subst. auto.
    + rewrite list_lookup_insert_ne in Hu by congruence. apply (Hths u thu Hu).
Qed.

Lemma finished_owned th : finished th = true → owned th = taken (prog th).
Proof.
  intros Hfin. apply finished_idle in Hfin as [Hcur Hnext].
  destruct th as [p cl]; simpl in *; subst cl. unfold owned, in_hand; simpl.
  destruct p as [[|y src] sen []|dest sen []|[|o ops] rs|e]; simpl in *;
    try discriminate; rewrite ?app_nil_r; reflexivity.
Qed.

(** X13. Nothing is lost and nothing is duplicated, with any number of
    producers, consumers and other callers and under any interleaving: the
    buffer together with what every thread holds (the items it has taken,
    the one in its hands, those it has still to append) is at every moment a
    rearrangement of what the threads held at the start; once all have
    ended, the buffer together with what the threads have taken is. *)
Theorem items_are_conserved (c : Z) (q0 : BoundedBlockingQueue)
    (progs : list program) (sched : list tid) :
  __init__ (PyInt c) = inr q0 →
  Forall (λ p, results p = []) progs →
  Forall (same_object (held_at_start progs)) progs →
  let s := exec sched (System q0 (spawn progs)) in
  in_flight s ≡ₚ held_at_start progs ∧
  (all_finished s = true →
   _queue (queue s) ++ concat (map (λ th, taken (prog th)) (threads s)) ≡ₚ
   held_at_start progs).
Proof.
  intros Hinit Hres Hsame s. unfold held_at_start in *.
  set (total := concat (map owned (spawn progs))) in *.
  assert (Hinv : ∀ sched s0,
            monitor_inv c s0 → in_flight s0 ≡ₚ total →
            (∀ u th, threads s0 !! u = Some th → call_ok th ∧ same_object total (prog th)) →
            in_flight (exec sched s0) ≡ₚ total).
  { clear. induction sched as [|t sched IH]; intros s0 Hmon Hperm Hths; simpl;
      [assumption|].
    destruct (step t s0) as [s1|] eqn:Hstep; simpl; [|auto].
    destruct (conserved_step c total t s0 s1 Hmon Hperm Hths Hstep) as [Hperm' Hths'].
    apply IH; try assumption. eapply monitor_step; eassumption. }
  assert (Hperm : in_flight s ≡ₚ total).
  { apply Hinv.
    - apply monitor_init; assumption.
    - unfold in_flight; simpl. apply init_int in Hinit as [_ ->]. reflexivity.
    - intros u th Hu. simpl in Hu. unfold spawn in Hu.
      apply (list_lookup_fmap_Some_1 (λ p, Thread p None)) in Hu as (p & -> & Hp).
      split; [intros cl Hcl; discriminate|]. simpl.
      rewrite Forall_forall in Hsame. apply Hsame.
      eapply list_elem_of_lookup_2; eassumption. }
  split; [assumption|].
  intros Hfin. rewrite <- Hperm. unfold in_flight.
  unfold all_finished in Hfin. rewrite forallb_forall in Hfin.
  replace (map (λ th, taken (prog th)) (threads s)) with (map owned (threads s));
    [reflexivity|].
  apply map_ext_in. intros th Hin. apply finished_owned. apply Hfin. assumption.
Qed.

Lemma items_are_conserved_witness :
  let s := exec [0; 2; 0; 1; 3; 0; 2; 0; 1; 1; 0; 3; 0; 2; 2; 1; 1; 3; 3; 0; 2; 3; 1]%nat
             (System (empty_queue (PyInt 2))
                (spawn [ProducerRun [int_obj 1; int_obj 2] SENTINEL false;
                        Script [OpPut (int_obj 3); OpPut SENTINEL] [];
                        ConsumerRun [] SENTINEL false;
                        ConsumerRun [] SENTINEL false])) in
  in_flight s ≡ₚ
    held_at_start [ProducerRun [int_obj 1; int_obj 2] SENTINEL false;
                   Script [OpPut (int_obj 3); OpPut SENTINEL] [];
                   ConsumerRun [] SENTINEL false;
                   ConsumerRun [] SENTINEL false] ∧
  (all_finished s = true →
   _queue (queue s) ++ concat (map (λ th, taken (prog th)) (threads s)) ≡ₚ
   held_at_start [ProducerRun [int_obj 1; int_obj 2] SENTINEL false;
                  Script [OpPut (int_obj 3); OpPut SENTINEL] [];
                  ConsumerRun [] SENTINEL false;
                  ConsumerRun [] SENTINEL false]).
Proof.
  apply (items_are_conserved 2 (empty_queue (PyInt 2))
           [ProducerRun [int_obj 1; int_obj 2] SENTINEL false;
            Script [OpPut (int_obj 3); OpPut SENTINEL] [];
            ConsumerRun [] SENTINEL false;
            ConsumerRun [] SENTINEL false]
           [0; 2; 0; 1; 3; 0; 2; 0; 1; 1; 0; 3; 0; 2; 2; 1; 1; 3; 3; 0; 2; 3; 1]%nat).
  - reflexivity.
  - repeat constructor.
  - repeat constructor; simpl; intros x Hx Hid;
      repeat (apply elem_of_cons in Hx as [-> | Hx]);
      try reflexivity; try discriminate Hid; inversion Hx.
Defined.

(** ** Wake-ups, for any number of threads *)

Lemma count_insert f ths : ∀ k t th th',
  ths !! t = Some th →
  (count_from f k (<[t := th']> ths) + f (k + t) th =
   count_from f k ths + f (k + t) th')%nat.
Proof.
  induction ths as [|a ths IH]; intros k t th th' Hth; [rewrite lookup_nil in Hth; discriminate|].
  destruct t as [|t]; simpl in *.
  - inversion Hth; subst. rewrite Nat.add_0_r. lia.
  - specialize (IH (S k) t th th' Hth).
    replace (k + S t)%nat with (S k + t)%nat by lia. lia.
Qed.

Lemma count_mono f g ths : ∀ k,
  (∀ u th, ths !! u = Some th → (f (k + u) th <= g (k + u) th)%nat) →
  (count_from f k ths <= count_from g k ths)%nat.
Proof.
  induction ths as [|a ths IH]; intros k H; simpl; [lia|].
  pose proof (H 0%nat a eq_refl) as H0. rewrite Nat.add_0_r in H0.
  assert (count_from f (S k) ths <= count_from g (S k) ths)%nat; [|lia].
  apply IH. intros u th Hu. specialize (H (S u) th Hu).
  replace (k + S u)%nat with (S k + u)%nat in H by lia. exact H.
Qed.

Lemma count_bump f g ths : ∀ k w thw,
  ths !! w = Some thw →
  (∀ u th, ths !! u = Some th → (f (k + u) th <= g (k + u) th)%nat) →
  (f (k + w) thw < g (k + w) thw)%nat →
  (count_from f k ths < count_from g k ths)%nat.
Proof.
  induction ths as [|a ths IH]; intros k w thw Hw H Hlt;
    [rewrite lookup_nil in Hw; discriminate|].
  assert (Htl : ∀ u th, ths !! u = Some th → (f (S k + u) th <= g (S k + u) th)%nat).
  { intros u th Hu. specialize (H (S u) th Hu).
    replace (k + S u)%nat with (S k + u)%nat in H by lia. exact H. }
  pose proof (H 0%nat a eq_refl) as H0. rewrite Nat.add_0_r in H0.
  destruct w as [|w]; simpl in *.
  - inversion Hw; subst. rewrite Nat.add_0_r in Hlt.
    pose proof (count_mono f g ths (S k) Htl). lia.
  - replace (k + S w)%nat with (S k + w)%nat in Hlt by lia.
    pose proof (IH (S k) w thw Hw Htl Hlt). lia.
Qed.

Lemma heading_sleeper c q t th :
  sleeps_on c th →
  heading c q t th = if decide (t ∈ waiters c q) then 0%nat else 1%nat.
Proof.
  destruct th as [p [[x pc|pc|pc]|]], c; simpl; try contradiction;
    destruct pc; simpl; try contradiction; reflexivity.
Qed.

(** What a transition does to the waiters of a condition. *)
Lemma waiters_step c t th q th' q' :
  thread_step t th q = Some (th', q') →
  waiters c q' = waiters c q ∨
  (waiters c q' = tail (waiters c q) ∧ notifies c th = true) ∨
  (waiters c q' = waiters c q ++ [t] ∧ sleeps_on c th' ∧ ¬ sleeps_on c th).
Proof.
  intros Hts. destruct q as [m b l ne nf].
  destruct th as [p [[x pc|pc|pc]|]]; unfold thread_step in Hts;
    cbn [prog cur] in Hts.
  1-3: destruct c, pc; step_inv Hts; simpl; try (left; reflexivity);
    try (right; left; split; reflexivity);
    (right; right; repeat split; intros []).
  destruct (next p); simpl in Hts; [|discriminate].
  inversion Hts; subst. auto.
Qed.

(** A transition of one thread never takes another thread off its way. *)
Lemma heading_frame c t th q th' q' u thu :
  thread_step t th q = Some (th', q') →
  (u = t → thu = th) →
  (heading c q u thu <= heading c q' u thu)%nat.
Proof.
  intros Hts Hut.
  destruct (waiters_step c t th q th' q' Hts) as [Hw|[[Hw _]|(Hw & _ & Hns)]].
  - destruct thu as [pu [[xu pcu|pcu|pcu]|]], c; simpl in *; try lia;
      destruct pcu; simpl; try lia; rewrite Hw; lia.
  - destruct thu as [pu [[xu pcu|pcu|pcu]|]], c; simpl in *; try lia;
      destruct pcu; simpl; try lia; rewrite Hw;
      repeat destruct (decide _); try lia;
      exfalso; match goal with
               | H : _ ∈ tail ?l |- _ => destruct l; simpl in H; [inversion H|]
               end;
      match goal with H : ¬ _ |- _ => apply H; right; assumption end.
  - destruct (decide (u = t)) as [->|Hne].
    + rewrite (Hut eq_refl) in *.
      destruct th as [pu [[xu pcu|pcu|pcu]|]], c; simpl in *; try lia;
        destruct pcu; simpl in *; try lia; exfalso; apply Hns; exact I.
    + destruct thu as [pu [[xu pcu|pcu|pcu]|]], c; simpl in *; try lia;
        destruct pcu; simpl; try lia; rewrite Hw;
        repeat destruct (decide _); try lia;
        exfalso; match goal with
                 | H : _ ∈ _ ++ [_] |- _ => apply elem_of_app in H as [H|H]
                 end;
        try contradiction;
        match goal with H : _ ∈ [_] |- _ => apply list_elem_of_singleton in H end;
        contradiction.
Qed.

(** What a transition does for a condition to the thread that makes it. *)
Lemma heading_step cap c t th q th' q' :
  _maxsize q = PyInt cap →
  (∀ cl, cur th = Some cl → at_ok cap q cl) →
  thread_step t th q = Some (th', q') →
  supply cap c q' <= 0 ∨
  (notifies c th = true ∧ waiters c q' = tail (waiters c q) ∧
   supply cap c q' = supply cap c q ∧
   heading c q' t th = 1%nat ∧ heading c q' t th' = 0%nat) ∨
  (waiters c q' = waiters c q ∧
   supply cap c q' + Z.of_nat (heading c q' t th) <=
   supply cap c q + Z.of_nat (heading c q' t th')).
Proof.
  intros Hm Hat Hts. destruct q as [m b l ne nf]; simpl in Hm; subst m.
  destruct th as [p [[x pc|pc|pc]|]]; unfold thread_step in Hts;
    cbn [prog cur] in Hts.
  4: { destruct (next p) as [o|]; simpl in Hts; [|discriminate].
       inversion Hts; subst. right; right. split; [reflexivity|].
       destruct o, c; simpl; lia. }
  all: specialize (Hat _ eq_refl).
  all: destruct c, pc; step_inv Hts; unfold supply, len in *; simpl in *.
  all: try rewrite Z_ge_num_int in *.
  all: repeat match goal with
              | H : bool_decide _ = true |- _ => apply bool_decide_eq_true in H
              | H : bool_decide _ = false |- _ => apply bool_decide_eq_false in H
              end.
  all: try rewrite length_app; simpl.
  all: try (right; left; repeat split; reflexivity).
  all: try (left; unfold len in *; simpl in *; lia).
  all: try (left; subst; simpl; lia).
  all: try (right; right; split; [reflexivity|]; repeat destruct (decide _);
            unfold len in *; simpl in *; try contradiction; lia).
Qed.

Lemma waiters_asleep_step t s s' :
  waiters_asleep s → step t s = Some s' → waiters_asleep s'.
Proof.
  intros W Hstep. unfold step in Hstep.
  destruct (threads s !! t) as [th|] eqn:Hth; simpl in Hstep; [|discriminate].
  destruct (thread_step t th (queue s)) as [[th' q']|] eqn:Hts; simpl in Hstep;
    [|discriminate].
  inversion Hstep; subst s'; clear Hstep.
  assert (Hlt : (t < length (threads s))%nat) by (eapply lookup_lt_Some; eassumption).
  intros c. destruct (W c) as [Hnd Hsl]. simpl.
  assert (Hnot : t ∉ waiters c (queue s)).
  { intros Hin. destruct (Hsl t Hin) as (th0 & Hth0 & Hs0).
    rewrite Hth in Hth0. inversion Hth0; subst th0.
    rewrite (sleeper_stuck c t th (queue s) Hs0 Hin) in Hts. discriminate. }
  assert (Hold : ∀ u, u ∈ waiters c (queue s) →
                      ∃ thu, <[t:=th']> (threads s) !! u = Some thu ∧ sleeps_on c thu).
  { intros u Hu. destruct (Hsl u Hu) as (thu & Hthu & Hsu). exists thu.
    split; [|assumption].
    rewrite list_lookup_insert_ne; [assumption|]. intros <-. contradiction. }
  destruct (waiters_step c t th (queue s) th' q' Hts) as [Hw|[[Hw _]|(Hw & Hs' & _)]];
    rewrite Hw.
  - split; assumption.
  - split.
    + destruct (waiters c (queue s)); simpl; [constructor|].
      apply NoDup_cons in Hnd as [_ ?]. assumption.
    + intros u Hu. apply Hold.
      destruct (waiters c (queue s)); simpl in *; [assumption|]. right. assumption.
  - split.
    + apply NoDup_app. split; [assumption|]. split; [|apply NoDup_singleton].
      intros x Hx Hx'. apply list_elem_of_singleton in Hx'. subst. contradiction.
    + intros u Hu. apply elem_of_app in Hu as [Hu|Hu]; [apply Hold; assumption|].
      apply list_elem_of_singleton in Hu. subst u. exists th'. split; [|assumption].
      apply list_lookup_insert_eq. assumption.
Qed.

Lemma wake_step cap t s s' :
  monitor_inv cap s → waiters_asleep s → wake_inv cap s →
  step t s = Some s' → wake_inv cap s'.
Proof.
  intros (Hm & _ & _ & Hths) W I Hstep. unfold step in Hstep.
  destruct (threads s !! t) as [th|] eqn:Hth; simpl in Hstep; [|discriminate].
  destruct (thread_step t th (queue s)) as [[th' q']|] eqn:Hts; simpl in Hstep;
    [|discriminate].
  inversion Hstep; subst s'; clear Hstep.
  intros c Hne. unfold on_the_way in *. cbn [queue threads] in *.
  destruct (Hths t th Hth) as (_ & _ & Hat).
  pose proof (count_insert (heading c q') (threads s) 0%nat t th th' Hth) as Hins.
  rewrite Nat.add_0_l in Hins.
  assert (Hframe : ∀ u thu, threads s !! u = Some thu →
            (heading c (queue s) (0 + u) thu <= heading c q' (0 + u) thu)%nat).
  { intros u thu Hu. rewrite Nat.add_0_l. eapply heading_frame; [eassumption|].
    intros ->. unfold tid in *. congruence. }
  destruct (heading_step cap c t th (queue s) th' q' Hm Hat Hts)
    as [Hz|[(Hn & Hw & Hsup & H1 & H0)|(Hw & Hbal)]].
  - lia.
  - rewrite Hw in Hne.
    destruct (waiters c (queue s)) as [|w rest] eqn:Hws; [contradiction|].
    cbn [tail] in *.
    destruct (W c) as [Hnd Hsl]. rewrite Hws in Hnd, Hsl.
    apply NoDup_cons in Hnd as [Hwn _].
    destruct (Hsl w) as (thw & Hthw & Hsw); [left|].
    pose proof (I c) as I'. rewrite Hws in I'.
    assert (I'' := I' ltac:(discriminate)).
    pose proof (count_bump (heading c (queue s)) (heading c q') (threads s)
                  0%nat w thw Hthw Hframe) as Hb.
    rewrite Nat.add_0_l in Hb. rewrite !(heading_sleeper c _ w thw Hsw) in Hb.
    rewrite Hw, Hws in Hb.
    rewrite decide_True in Hb by left. rewrite decide_False in Hb by assumption.
    assert (Hb' := Hb ltac:(lia)). unfold on_the_way in I''. unfold tid in *. lia.
  - rewrite Hw in Hne. specialize (I c Hne). unfold on_the_way in I.
    pose proof (count_mono _ _ (threads s) 0%nat Hframe). unfold tid in *. lia.
Qed.

Lemma wake_exec cap sched : ∀ s,
  monitor_inv cap s → waiters_asleep s → wake_inv cap s →
  waiters_asleep (exec sched s) ∧ wake_inv cap (exec sched s).
Proof.
  induction sched as [|t sched IH]; intros s Hm W I; simpl; [auto|].
  destruct (step t s) as [s'|] eqn:Hstep; simpl; [|auto].
  apply IH.
  - eapply monitor_step; eassumption.
  - eapply waiters_asleep_step; eassumption.
  - eapply wake_step; eassumption.
Qed.

Lemma wake_init cap q0 progs :
  __init__ (PyInt cap) = inr q0 →
  waiters_asleep (System q0 (spawn progs)) ∧ wake_inv cap (System q0 (spawn progs)).
Proof.
  intros Hinit. apply init_int in Hinit as [Hc ->]. split.
  - intros c. destruct c; simpl; (split; [constructor|]); intros u Hu; inversion Hu.
  - intros c Hne. destruct c; simpl in Hne; contradiction.
Qed.

Lemma count_zero f ths : ∀ k,
  (∀ u th, ths !! u = Some th → f (k + u)%nat th = 0%nat) →
  count_from f k ths = 0%nat.
Proof.
  induction ths as [|a ths IH]; intros k H; simpl; [reflexivity|].
  pose proof (H 0%nat a eq_refl) as H0. rewrite Nat.add_0_r in H0. rewrite H0, IH; [reflexivity|].
  intros u th Hu. specialize (H (S u) th Hu).
  replace (k + S u)%nat with (S k + u)%nat in H by lia. exact H.
Qed.

(** When no thread can move the lock is free, and every thread has ended
    or sleeps on a condition nobody has notified. *)
Lemma stuck_threads cap s :
  monitor_inv cap s →
  (∀ t, step t s = None) →
  _lock (queue s) = None ∧
  ∀ t th, threads s !! t = Some th →
          finished th = true ∨ ∃ c, sleeps_on c th ∧ t ∈ waiters c (queue s).
Proof.
  intros (_ & _ & Hown & Hths) Hdead.
  assert (Hts : ∀ t th, threads s !! t = Some th → thread_step t th (queue s) = None).
  { intros t th Hth. specialize (Hdead t). unfold step in Hdead.
    rewrite Hth in Hdead; simpl in Hdead.
    destruct (thread_step t th (queue s)) as [[th' q']|]; [discriminate | reflexivity]. }
  assert (Hfree : _lock (queue s) = None).
  { destruct (_lock (queue s)) as [h|] eqn:Hl; [|reflexivity].
    destruct (Hown h eq_refl) as [thh Hthh].
    destruct (Hths h thh Hthh) as (_ & Hlk & _).
    destruct (holder_steps h thh (queue s)) as [r Hr]; [apply Hlk; assumption|].
    rewrite (Hts h thh Hthh) in Hr. discriminate. }
  split; [assumption|].
  intros t th Hth.
  destruct (free_stuck t th (queue s) Hfree (Hts t th Hth)) as [Hfin|[(x & Hcur & Hin)|[Hcur Hin]]].
  - left. assumption.
  - right. exists NotFull. unfold sleeps_on. rewrite Hcur. auto.
  - right. exists NotEmpty. unfold sleeps_on. rewrite Hcur. auto.
Qed.

Lemma stuck_none_on_the_way c s :
  (∀ t th, threads s !! t = Some th →
           finished th = true ∨ ∃ cd, sleeps_on cd th ∧ t ∈ waiters cd (queue s)) →
  on_the_way c s = 0%nat.
Proof.
  intros Hths. unfold on_the_way. apply count_zero. intros u th Hu.
  rewrite Nat.add_0_l.
  destruct (Hths u th Hu) as [Hfin|(cd & Hs & Hin)].
  - apply finished_idle in Hfin as [Hcur _]. unfold heading. rewrite Hcur.
    destruct c; reflexivity.
  - destruct c, cd.
    1,4: rewrite (heading_sleeper _ _ u th Hs); rewrite decide_True by assumption;
      reflexivity.
    all: destruct th as [p [[x pc|pc|pc]|]]; simpl in Hs; try contradiction;
      destruct pc; simpl in Hs; try contradiction; reflexivity.
Qed.

(** In a state where no thread can move, sleepers are all on one side. *)
Lemma starved cap s :
  0 < cap →
  monitor_inv cap s → wake_inv cap s →
  (∀ t, step t s = None) →
  (_not_empty (queue s) ≠ [] → _queue (queue s) = [] ∧ _not_full (queue s) = []) ∧
  (_not_full (queue s) ≠ [] → len (queue s) = cap ∧ _not_empty (queue s) = []).
Proof.
  intros Hc Hmon I Hdead.
  destruct (stuck_threads cap s Hmon Hdead) as [Hfree Hths].
  destruct Hmon as (_ & Hlen & _ & _).
  assert (Hempty : _not_empty (queue s) ≠ [] → len (queue s) <= 0).
  { intros Hne. pose proof (I NotEmpty Hne) as H.
    rewrite (stuck_none_on_the_way NotEmpty s Hths) in H. exact H. }
  assert (Hfull : _not_full (queue s) ≠ [] → cap <= len (queue s)).
  { intros Hnf. pose proof (I NotFull Hnf) as H.
    rewrite (stuck_none_on_the_way NotFull s Hths) in H. simpl in H. lia. }
  split.
  - intros Hne. specialize (Hempty Hne). split.
    + unfold len in Hempty. destruct (_queue (queue s)); [reflexivity|].
      simpl in Hempty. lia.
    + destruct (_not_full (queue s)) eqn:Hnf; [reflexivity|].
      assert (cap <= len (queue s)) by (apply Hfull; discriminate). lia.
  - intros Hnf. specialize (Hfull Hnf). split; [lia|].
    destruct (_not_empty (queue s)) eqn:Hne; [reflexivity|].
    assert (len (queue s) <= 0) by (apply Hempty; discriminate). lia.
Qed.


(** X14. The waiters of a condition are distinct threads, each asleep in
    the [wait] of that condition, whatever the threads run and however they
    are scheduled; so no thread waits on both conditions, and [notify]
    takes off the waiters a thread that was asleep. *)
Theorem waiters_are_sleepers (maxsize : pynum) (q0 : BoundedBlockingQueue)
    (progs : list program) (sched : list tid) :
  __init__ maxsize = inr q0 →
  let s := exec sched (System q0 (spawn progs)) in
  (∀ c, NoDup (waiters c (queue s))) ∧
  (∀ c u, u ∈ waiters c (queue s) →
          ∃ th, threads s !! u = Some th ∧ sleeps_on c th) ∧
  (∀ u, u ∈ _not_empty (queue s) → u ∉ _not_full (queue s)).
Proof.
  intros Hinit s.
  assert (W : waiters_asleep s).
  { subst s. assert (W0 : waiters_asleep (System q0 (spawn progs))).
    { unfold __init__ in Hinit. destruct (num_le_Z maxsize 0); inversion Hinit; subst.
      intros c. destruct c; simpl; (split; [constructor|]); intros u Hu; inversion Hu. }
    generalize dependent (System q0 (spawn progs)). clear.
    induction sched as [|t sched IH]; intros s0 W0; simpl; [assumption|].
    destruct (step t s0) as [s1|] eqn:Hstep; simpl; [|auto].
    apply IH. eapply waiters_asleep_step; eassumption. }
  split; [intros c; apply (W c)|]. split; [intros c; apply (W c)|].
  intros u Hne Hnf.
  destruct (W NotEmpty) as [_ H1]. destruct (W NotFull) as [_ H2].
  destruct (H1 u Hne) as (th1 & Hth1 & Hs1). destruct (H2 u Hnf) as (th2 & Hth2 & Hs2).
  rewrite Hth1 in Hth2. inversion Hth2; subst th2.
  destruct th1 as [p [[x pc|pc|pc]|]]; simpl in *; try contradiction;
    destruct pc; contradiction.
Qed.

Lemma waiters_are_sleepers_witness :
  let s := exec [1; 1; 1; 1; 2; 2; 2; 2; 0; 0; 0; 0]%nat
             (System (empty_queue (PyInt 1))
                (spawn [Script [OpPut (int_obj 1); OpPut (int_obj 2)] [];
                        ConsumerRun [] SENTINEL false;
                        Script [OpGet] []])) in
  (∀ c, NoDup (waiters c (queue s))) ∧
  (∀ c u, u ∈ waiters c (queue s) →
          ∃ th, threads s !! u = Some th ∧ sleeps_on c th) ∧
  (∀ u, u ∈ _not_empty (queue s) → u ∉ _not_full (queue s)).
Proof.
  apply (waiters_are_sleepers (PyInt 1) (empty_queue (PyInt 1))
           [Script [OpPut (int_obj 1); OpPut (int_obj 2)] [];
            ConsumerRun [] SENTINEL false;
            Script [OpGet] []]
           [1; 1; 1; 1; 2; 2; 2; 2; 0; 0; 0; 0]%nat).
  reflexivity.
Defined.

(** X15. No wake-up is lost, with any number of threads and under any
    interleaving: while a [get] sleeps on [not_empty], every item in the
    buffer is matched by a thread on its way to it (a [get] that has been
    notified or is inside the with block before its pop, or a [put] about
    to notify); while a [put] sleeps on [not_full], every free place is
    matched in the same way. *)
Theorem no_lost_wakeup (c : Z) (q0 : BoundedBlockingQueue)
    (progs : list program) (sched : list tid) :
  __init__ (PyInt c) = inr q0 →
  Forall (λ p, results p = []) progs →
  let s := exec sched (System q0 (spawn progs)) in
  (_not_empty (queue s) ≠ [] → len (queue s) <= Z.of_nat (on_the_way NotEmpty s)) ∧
  (_not_full (queue s) ≠ [] → c - len (queue s) <= Z.of_nat (on_the_way NotFull s)).
Proof.
  intros Hinit Hres s.
  destruct (wake_init c q0 progs Hinit) as [W0 I0].
  destruct (wake_exec c sched (System q0 (spawn progs))) as [_ I];
    [apply monitor_init; assumption | assumption | assumption |].
  split; [apply (I NotEmpty) | apply (I NotFull)].
Qed.

Lemma no_lost_wakeup_witness :
  let s := exec [1; 1; 1; 1; 2; 2; 2; 2; 0; 0; 0; 0]%nat
             (System (empty_queue (PyInt 1))
                (spawn [Script [OpPut (int_obj 1); OpPut (int_obj 2)] [];
                        ConsumerRun [] SENTINEL false;
                        Script [OpGet] []])) in
  (_not_empty (queue s) ≠ [] → len (queue s) <= Z.of_nat (on_the_way NotEmpty s)) ∧
  (_not_full (queue s) ≠ [] → 1 - len (queue s) <= Z.of_nat (on_the_way NotFull s)).
Proof.
  apply (no_lost_wakeup 1 (empty_queue (PyInt 1))
           [Script [OpPut (int_obj 1); OpPut (int_obj 2)] [];
            ConsumerRun [] SENTINEL false;
            Script [OpGet] []]
           [1; 1; 1; 1; 2; 2; 2; 2; 0; 0; 0; 0]%nat).
  - reflexivity.
  - repeat constructor.
Defined.

(** X16. The threads stop early only when starved: in a state where no
    thread can move, the lock is free and every thread has ended or sleeps
    on the waiters of a condition; if a [get] sleeps the buffer is empty and
    no [put] sleeps, if a [put] sleeps the buffer is full and no [get]
    sleeps. *)
Theorem stops_only_when_starved (c : Z) (q0 : BoundedBlockingQueue)
    (progs : list program) (sched : list tid) :
  __init__ (PyInt c) = inr q0 →
  Forall (λ p, results p = []) progs →
  let s := exec sched (System q0 (spawn progs)) in
  (∀ t, step t s = None) →
  _lock (queue s) = None ∧
  (∀ t th, threads s !! t = Some th →
           finished th = true ∨ ∃ cd, sleeps_on cd th ∧ t ∈ waiters cd (queue s)) ∧
  (_not_empty (queue s) ≠ [] → _queue (queue s) = [] ∧ _not_full (queue s) = []) ∧
  (_not_full (queue s) ≠ [] → len (queue s) = c ∧ _not_empty (queue s) = []).
Proof.
  intros Hinit Hres s Hdead.
  assert (Hmon : monitor_inv c s) by (apply monitor_exec, monitor_init; assumption).
  destruct (wake_init c q0 progs Hinit) as [W0 I0].
  destruct (wake_exec c sched (System q0 (spawn progs))) as [_ I];
    [apply monitor_init; assumption | assumption | assumption |].
  pose proof (init_int c q0 Hinit) as [Hc _].
  destruct (stuck_threads c s Hmon Hdead) as [Hfree Hths].
  split; [assumption|]. split; [assumption|].
  apply (starved c s); assumption.
Qed.

Lemma stops_only_when_starved_witness :
  let s := exec [1; 1; 1; 1; 0; 0; 0; 0; 0; 0; 0; 1; 1; 1; 1; 1; 1; 1; 1; 1]%nat
             (System (empty_queue (PyInt 1))
                (spawn [Script [OpPut (int_obj 1)] [];
                        Script [OpGet; OpGet] []])) in
  (∀ t, step t s = None) ∧
  _lock (queue s) = None ∧
  (∀ t th, threads s !! t = Some th →
           finished th = true ∨ ∃ cd, sleeps_on cd th ∧ t ∈ waiters cd (queue s)) ∧
  (_not_empty (queue s) ≠ [] → _queue (queue s) = [] ∧ _not_full (queue s) = []) ∧
  (_not_full (queue s) ≠ [] → len (queue s) = 1 ∧ _not_empty (queue s) = []).
Proof.
  assert (Hdead : ∀ t,
            step t (exec [1; 1; 1; 1; 0; 0; 0; 0; 0; 0; 0; 1; 1; 1; 1; 1; 1; 1; 1; 1]%nat
                      (System (empty_queue (PyInt 1))
                         (spawn [Script [OpPut (int_obj 1)] [];
                                 Script [OpGet; OpGet] []]))) = None).
  { intros [|[|t]]; reflexivity. }
  split; [exact Hdead|].
  apply (stops_only_when_starved 1 (empty_queue (PyInt 1))
           [Script [OpPut (int_obj 1)] []; Script [OpGet; OpGet] []]
           [1; 1; 1; 1; 0; 0; 0; 0; 0; 0; 0; 1; 1; 1; 1; 1; 1; 1; 1; 1]%nat).
  - reflexivity.
  - repeat constructor.
  - exact Hdead.
Defined.

(** ** Bursts of puts and gets *)

Lemma resume_one_sided p o r :
  next p = Some o → one_sided p → (∀ e, r ≠ RRaise e) →
  one_sided (resume p r) ∧
  puts_of (resume p r) = match o with OpPut _ => tail (puts_of p) | _ => puts_of p end ∧
  gets_of (resume p r) = match o with OpGet => pred (gets_of p) | _ => gets_of p end.
Proof.
  intros Hnext Hone Hr.
  destruct p as [[|y src] sen []|dest sen []|[|[]] rs|e]; simpl in *;
    try contradiction; try discriminate; inversion Hnext; subst;
    destruct r; try (exfalso; eapply Hr; reflexivity); simpl; repeat split; auto.
  all: destruct Hone as [Hone|Hone]; try discriminate; auto.
Qed.

Lemma next_op_todo p o :
  next p = Some o → one_sided p →
  match o with
  | OpPut x => puts_of p = x :: tail (puts_of p) ∧ gets_of p = 0%nat
  | OpGet => (0 < gets_of p)%nat ∧ puts_of p = []
  | OpQsize => True
  end.
Proof.
  intros Hnext Hone.
  destruct p as [[|y src] sen []|dest sen []|[|[]] rs|e]; simpl in *;
    try contradiction; try discriminate; inversion Hnext; subst; auto.
  - destruct Hone as [Hone|Hone]; [discriminate|auto].
  - destruct Hone as [Hone|Hone]; [|discriminate]. split; [lia|assumption].
Qed.

(** A transition takes from the appends to come what it adds to the buffer
    and from the pops to come what it takes off the buffer. *)
Lemma todo_step c t th q th' q' :
  thread_ok c t q th →
  call_ok th → one_sided (prog th) →
  thread_step t th q = Some (th', q') →
  call_ok th' ∧ one_sided (prog th') ∧
  Z.of_nat (puts_todo th') + len q' + Z.of_nat (gets_todo th) =
  Z.of_nat (puts_todo th) + len q + Z.of_nat (gets_todo th').
Proof.
  intros (_ & _ & Hat) Hcall Hone Hts.
  destruct th as [p [cl|]]; unfold thread_step in Hts; cbn [prog cur] in Hts.
  - specialize (Hat cl eq_refl). specialize (Hcall cl eq_refl). simpl in Hcall.
    pose proof (next_op_todo p (op_of cl) Hcall Hone) as Hop.
    assert (Hafter : ∀ r, (∀ e, r ≠ RRaise e) →
              one_sided (resume p r) ∧
              puts_of (resume p r) =
                match op_of cl with OpPut _ => tail (puts_of p) | _ => puts_of p end ∧
              gets_of (resume p r) =
                match op_of cl with OpGet => pred (gets_of p) | _ => gets_of p end)
      by (intros r Hr; apply resume_one_sided; assumption).
    set (after := resume p) in *. clearbody after.
    destruct q as [m b l ne nf].
    unfold call_ok, puts_todo, gets_todo, len in *. simpl in *.
    destruct (puts_of p) as [|y ps] eqn:Hps.
    all: destruct cl as [x pc|pc|pc]; simpl in *; destruct pc; step_inv Hts; simpl in *;
      try contradiction; try (destruct Hop; discriminate).
    all: rewrite ?Hps.
    all: try (split; [intros ? [= <-]; assumption|]; split; [assumption|];
              rewrite ?length_app; simpl; lia).
    all: match goal with
         | |- _ ∧ one_sided (_ ?r) ∧ _ =>
             destruct (Hafter r) as (Hone' & Hputs' & Hgets'); [intros e; discriminate|]
         end.
    all: split; [intros ? [=]|]; split; [assumption|]; rewrite Hputs', Hgets';
      simpl; lia.
  - destruct (next p) as [o|] eqn:Hnext; simpl in Hts; [|discriminate].
    inversion Hts; subst. unfold call_ok, puts_todo, gets_todo. simpl.
    split; [intros ? [= <-]; destruct o; assumption|]. split; [assumption|].
    destruct o; simpl; lia.
Qed.

Lemma burst_step c excess t s s' :
  monitor_inv c s → burst_inv excess s →
  step t s = Some s' → burst_inv excess s'.
Proof.
  intros (_ & _ & _ & Hok) [Hths Hsum] Hstep. unfold step in Hstep.
  destruct (threads s !! t) as [th|] eqn:Hth; simpl in Hstep; [|discriminate].
  destruct (thread_step t th (queue s)) as [[th' q']|] eqn:Hts; simpl in Hstep;
    [|discriminate].
  inversion Hstep; subst s'; clear Hstep.
  destruct (Hths t th Hth) as [Hcall Hone].
  destruct (todo_step c t th (queue s) th' q' (Hok t th Hth) Hcall Hone Hts)
    as (Hcall' & Hone' & Hmove).
  split.
  - simpl. intros u thu Hu. destruct (decide (u = t)) as [->|Hne].
    + rewrite list_lookup_insert_eq in Hu by (eapply lookup_lt_Some; eassumption).
      inversion Hu; subst. auto.
    + rewrite list_lookup_insert_ne in Hu by congruence. apply (Hths u thu Hu).
  - unfold puts_to_come, gets_to_come in *. cbn [queue threads].
    pose proof (count_insert (λ _, puts_todo) (threads s) 0%nat t th th' Hth) as Hp.
    pose proof (count_insert (λ _, gets_todo) (threads s) 0%nat t th th' Hth) as Hg.
    cbv beta in Hp, Hg. unfold tid in *. lia.
Qed.

Lemma burst_exec c excess sched : ∀ s,
  monitor_inv c s → burst_inv excess s → burst_inv excess (exec sched s).
Proof.
  induction sched as [|t sched IH]; intros s Hm Hb; simpl; [assumption|].
  destruct (step t s) as [s'|] eqn:Hstep; simpl; [|auto].
  apply IH; [eapply monitor_step | eapply burst_step]; eassumption.
Qed.

Lemma burst_init c q0 progs :
  __init__ (PyInt c) = inr q0 →
  Forall one_sided progs →
  let s0 := System q0 (spawn progs) in
  burst_inv (Z.of_nat (puts_to_come s0) - Z.of_nat (gets_to_come s0)) s0.
Proof.
  intros Hinit Hone s0. apply init_int in Hinit as [_ ->]. split.
  - intros u th Hu. simpl in Hu. unfold spawn in Hu.
    apply (list_lookup_fmap_Some_1 (λ p, Thread p None)) in Hu as (p & -> & Hp).
    split; [intros cl Hcl; discriminate|]. simpl.
    rewrite Forall_forall in Hone. apply Hone.
    eapply list_elem_of_lookup_2; eassumption.
  - unfold len; simpl. lia.
Qed.

Lemma count_ge f ths : ∀ k t th,
  ths !! t = Some th → (f (k + t)%nat th <= count_from f k ths)%nat.
Proof.
  induction ths as [|a ths IH]; intros k t th Hth; [rewrite lookup_nil in Hth; discriminate|].
  destruct t as [|t]; simpl in *.
  - inversion Hth; subst. rewrite Nat.add_0_r. lia.
  - specialize (IH (S k) t th Hth).
    replace (k + S t)%nat with (S k + t)%nat by lia. lia.
Qed.

(** Either some thread can move or none can. *)
Lemma moves_or_stuck s : (∃ t s', step t s = Some s') ∨ (∀ t, step t s = None).
Proof.
  assert (H : ∀ n, (∃ t s', step t s = Some s') ∨ (∀ t, (t < n)%nat → step t s = None)).
  { induction n as [|n [IH|IH]]; [right; intros t Ht; lia | left; assumption |].
    destruct (step n s) as [s'|] eqn:Hn; [left; eauto|].
    right. intros t Ht. destruct (decide (t = n)) as [->|Hne]; [assumption|].
    apply IH. lia. }
  destruct (H (length (threads s))) as [Hm|Hs]; [left; assumption|].
  right. intros t. destruct (decide (t < length (threads s))%nat) as [Hlt|Hge]; [auto|].
  unfold step. rewrite lookup_ge_None_2 by lia. reflexivity.
Qed.

Lemma not_all_finished s :
  all_finished s = false → ∃ t th, threads s !! t = Some th ∧ finished th = false.
Proof.
  unfold all_finished. generalize (threads s). clear s.
  induction l as [|a l IH]; simpl; [discriminate|].
  destruct (finished a) eqn:Ha; simpl.
  - intros H. destruct (IH H) as (t & th & Hth & Hf). exists (S t), th. auto.
  - intros _. exists 0%nat, a. auto.
Qed.

(** In a burst whose puts outnumber its gets by no more than the capacity,
    some thread can move as long as one has not ended. *)
Lemma burst_progress c excess s :
  0 < c → 0 <= excess <= c →
  monitor_inv c s → wake_inv c s → burst_inv excess s →
  all_finished s = false →
  ∃ t s', step t s = Some s'.
Proof.
  intros Hc Hex Hmon I [Hths Hsum] Hnot.
  destruct (moves_or_stuck s) as [Hmove|Hdead]; [assumption|]. exfalso.
  destruct (stuck_threads c s Hmon Hdead) as [Hfree Hstuck].
  destruct (starved c s Hc Hmon I Hdead) as [Hget Hput].
  destruct (not_all_finished s Hnot) as (t0 & th0 & Hth0 & Hf0).
  destruct (Hstuck t0 th0 Hth0) as [Hfin|(cd & Hs0 & Hin0)]; [congruence|].
  unfold puts_to_come, gets_to_come in Hsum.
  destruct cd; simpl in Hin0.
  - (* a get sleeps: nothing is left to put *)
    destruct Hget as [Hb Hnf]; [intros E; rewrite E in Hin0; inversion Hin0|].
    assert (Hp : count_from (λ _, puts_todo) 0%nat (threads s) = 0%nat).
    { apply count_zero. intros u th Hu. destruct (Hths u th Hu) as [Hcall Hone].
      destruct (Hstuck u th Hu) as [Hfin|(cd & Hs & Hin)].
      - apply finished_idle in Hfin as [Hcur Hnext]. unfold puts_todo. rewrite Hcur.
        destruct (prog th) as [[|y src] sen []|dest sen []|[|o ops] rs|e];
          simpl in *; try discriminate; try contradiction; reflexivity.
      - destruct cd; simpl in Hin; [|rewrite Hnf in Hin; inversion Hin].
        destruct th as [p [[x pc|pc|pc]|]]; simpl in Hs; try contradiction;
          destruct pc; try contradiction.
        specialize (Hcall _ eq_refl). simpl in Hcall.
        destruct (next_op_todo p OpGet Hcall Hone) as [_ Hps].
        unfold puts_todo. simpl. rewrite Hps. reflexivity. }
    assert (Hg : (1 <= count_from (λ _, gets_todo) 0%nat (threads s))%nat).
    { etransitivity; [|apply (count_ge (λ _, gets_todo) (threads s) 0%nat t0 th0 Hth0)].
      destruct (Hths t0 th0 Hth0) as [Hcall Hone].
      destruct th0 as [p [[x pc|pc|pc]|]]; simpl in Hs0; try contradiction;
        destruct pc; try contradiction.
      specialize (Hcall _ eq_refl). simpl in Hcall.
      destruct (next_op_todo p OpGet Hcall Hone) as [Hpos _].
      unfold gets_todo. simpl. lia. }
    unfold len in Hsum. rewrite Hb in Hsum. simpl in Hsum. lia.
  - (* a put sleeps: nothing is left to get *)
    destruct Hput as [Hb Hne]; [intros E; rewrite E in Hin0; inversion Hin0|].
    assert (Hg : count_from (λ _, gets_todo) 0%nat (threads s) = 0%nat).
    { apply count_zero. intros u th Hu. destruct (Hths u th Hu) as [Hcall Hone].
      destruct (Hstuck u th Hu) as [Hfin|(cd & Hs & Hin)].
      - apply finished_idle in Hfin as [Hcur Hnext]. unfold gets_todo. rewrite Hcur.
        destruct (prog th) as [[|y src] sen []|dest sen []|[|o ops] rs|e];
          simpl in *; try discriminate; try contradiction; reflexivity.
      - destruct cd; simpl in Hin; [rewrite Hne in Hin; inversion Hin|].
        destruct th as [p [[x pc|pc|pc]|]]; simpl in Hs; try contradiction;
          destruct pc; try contradiction.
        specialize (Hcall _ eq_refl). simpl in Hcall.
        destruct (next_op_todo p (OpPut x) Hcall Hone) as [_ Hgs].
        unfold gets_todo. simpl. assumption. }
    assert (Hp : (1 <= count_from (λ _, puts_todo) 0%nat (threads s))%nat).
    { etransitivity; [|apply (count_ge (λ _, puts_todo) (threads s) 0%nat t0 th0 Hth0)].
      destruct (Hths t0 th0 Hth0) as [Hcall Hone].
      destruct th0 as [p [[x pc|pc|pc]|]]; simpl in Hs0; try contradiction;
        destruct pc; try contradiction.
      specialize (Hcall _ eq_refl). simpl in Hcall.
      destruct (next_op_todo p (OpPut x) Hcall Hone) as [Hps _].
      unfold puts_todo. simpl. rewrite Hps. simpl. lia. }
    lia.
Qed.

(** Once every thread of a burst has ended, the buffer holds the excess. *)
Lemma burst_finished excess s :
  burst_inv excess s → all_finished s = true → len (queue s) = excess.
Proof.
  intros [Hths Hsum] Hfin. unfold all_finished in Hfin. rewrite forallb_forall in Hfin.
  assert (Hidle : ∀ u th, threads s !! u = Some th →
            puts_todo th = 0%nat ∧ gets_todo th = 0%nat).
  { intros u th Hu. destruct (Hths u th Hu) as [_ Hone].
    assert (Hf : finished th = true).
    { apply Hfin. apply list_elem_of_In. eapply list_elem_of_lookup_2; eassumption. }
    apply finished_idle in Hf as [Hcur Hnext]. unfold puts_todo, gets_todo. rewrite Hcur.
    destruct (prog th) as [[|y src] sen []|dest sen []|[|o ops] rs|e];
      simpl in *; try discriminate; try contradiction; auto. }
  unfold puts_to_come, gets_to_come in Hsum.
  rewrite (count_zero (λ _, puts_todo)) in Hsum by (intros u th Hu; apply (Hidle u th Hu)).
  rewrite (count_zero (λ _, gets_todo)) in Hsum by (intros u th Hu; apply (Hidle u th Hu)).
  lia.
Qed.

Lemma count_bump_le f g ths w b : ∀ k,
  (∀ u th, ths !! u = Some th →
           (g (k + u) th <= f (k + u) th + if decide (k + u = w) then b else 0)%nat) →
  (count_from g k ths <= count_from f k ths + b)%nat.
Proof.
  induction ths as [|a ths IH]; intros k H; simpl; [lia|].
  pose proof (H 0%nat a eq_refl) as H0. rewrite Nat.add_0_r in H0.
  destruct (decide (k = w)) as [->|Hne].
  - assert (count_from g (S w) ths <= count_from f (S w) ths)%nat; [|lia].
    apply count_mono. intros u th Hu. specialize (H (S u) th Hu).
    replace (w + S u)%nat with (S w + u)%nat in H by lia.
    rewrite decide_False in H by lia. lia.
  - assert (count_from g (S k) ths <= count_from f (S k) ths + b)%nat; [|lia].
    apply IH. intros u th Hu. specialize (H (S u) th Hu).
    replace (k + S u)%nat with (S k + u)%nat in H by lia. exact H.
Qed.

Lemma resume_fixed p o r :
  next p = Some o → fixed_calls p → (∀ e, r ≠ RRaise e) →
  fixed_calls (resume p r) ∧ calls_of p = S (calls_of (resume p r)).
Proof.
  intros Hnext Hfix Hr.
  destruct p as [[|y src] sen []|dest sen []|[|[]] rs|e]; simpl in *;
    try contradiction; try discriminate;
    destruct r; try (exfalso; eapply Hr; reflexivity); simpl; auto.
Qed.

Lemma next_fixed p o : next p = Some o → fixed_calls p → (0 < calls_of p)%nat.
Proof.
  destruct p as [[|y src] sen []|dest sen []|[|[]] rs|e]; simpl; intros;
    try discriminate; try contradiction; lia.
Qed.

(** Every transition brings the thread that makes it closer to its end, by
    more when it is a [notify]. *)
Lemma effort_step c t th q th' q' :
  thread_ok c t q th →
  call_ok th → fixed_calls (prog th) →
  thread_step t th q = Some (th', q') →
  call_ok th' ∧ fixed_calls (prog th') ∧
  (effort q' t th' +
   (if notifies NotEmpty th || notifies NotFull th then 4 else 1) <= effort q' t th)%nat.
Proof.
  intros (_ & _ & Hat) Hcall Hfix Hts.
  destruct th as [p [cl|]]; unfold thread_step in Hts; cbn [prog cur] in Hts.
  - specialize (Hat cl eq_refl). specialize (Hcall cl eq_refl). simpl in Hcall.
    pose proof (next_fixed p (op_of cl) Hcall Hfix) as Hpos.
    assert (Hafter : ∀ r, (∀ e, r ≠ RRaise e) →
              fixed_calls (resume p r) ∧ calls_of p = S (calls_of (resume p r)))
      by (intros r Hr; eapply resume_fixed; eassumption).
    set (after := resume p) in *. clearbody after.
    destruct q as [m b l ne nf].
    unfold call_ok, effort, calls_left, rank, weight in *. simpl in *.
    destruct cl as [x pc|pc|pc]; simpl in *; destruct pc; step_inv Hts; simpl in *;
      try contradiction.
    all: try (split; [intros ? [= <-]; assumption|]; split; [assumption|];
              repeat (rewrite ?bool_decide_eq_true_2, ?bool_decide_eq_false_2
                        by (try assumption; apply elem_of_app; right; left));
              simpl; lia).
    all: match goal with
         | |- _ ∧ fixed_calls (_ ?r) ∧ _ =>
             destruct (Hafter r) as (Hfix' & Hcalls); [intros e; discriminate|]
         end.
    all: split; [intros ? [=]|]; split; [assumption|]; rewrite Hcalls; simpl; lia.
  - destruct (next p) as [o|] eqn:Hnext; simpl in Hts; [|discriminate].
    inversion Hts; subst. unfold call_ok, effort, calls_left, rank, weight. simpl.
    split; [intros ? [= <-]; destruct o; assumption|]. split; [assumption|].
    destruct o; simpl; lia.
Qed.

Lemma effort_le q q' u thu :
  (u ∈ _not_empty q → u ∈ _not_empty q') →
  (u ∈ _not_full q → u ∈ _not_full q') →
  (effort q' u thu <= effort q u thu)%nat.
Proof.
  intros Hne Hnf. unfold effort, rank.
  generalize (weight * calls_left thu)%nat. intros n.
  destruct thu as [pu [[xu pcu|pcu|pcu]|]]; simpl; try lia; destruct pcu; simpl; try lia.
  - destruct (decide (u ∈ _not_full q)) as [E|E].
    + rewrite !bool_decide_eq_true_2 by auto. lia.
    + rewrite (bool_decide_eq_false_2 _ E). destruct (bool_decide _); lia.
  - destruct (decide (u ∈ _not_empty q)) as [E|E].
    + rewrite !bool_decide_eq_true_2 by auto. lia.
    + rewrite (bool_decide_eq_false_2 _ E). destruct (bool_decide _); lia.
Qed.

Lemma effort_le3 q q' u thu : (effort q' u thu <= effort q u thu + 3)%nat.
Proof.
  unfold effort, rank. generalize (weight * calls_left thu)%nat. intros n.
  destruct thu as [pu [[xu pcu|pcu|pcu]|]]; simpl; try lia; destruct pcu; simpl; try lia.
  - destruct (bool_decide (u ∈ _not_full q')), (bool_decide (u ∈ _not_full q)); lia.
  - destruct (bool_decide (u ∈ _not_empty q')), (bool_decide (u ∈ _not_empty q)); lia.
Qed.

Lemma waiters_kept c t th q th' q' u :
  thread_step t th q = Some (th', q') →
  u ∈ waiters c q →
  u ∈ waiters c q' ∨ (notifies c th = true ∧ head (waiters c q) = Some u).
Proof.
  intros Hts Hin.
  destruct (waiters_step c t th q th' q' Hts) as [Hw|[[Hw Hn]|(Hw & _)]]; rewrite Hw.
  - left. assumption.
  - destruct (waiters c q) as [|w rest]; [inversion Hin|]. simpl.
    apply elem_of_cons in Hin as [->|Hin]; auto.
  - left. apply elem_of_app. left. assumption.
Qed.

(** A transition adds to the effort of no other thread, but for the one
    thread a [notify] wakes. *)
Lemma effort_frame t th q th' q' :
  thread_step t th q = Some (th', q') →
  ∃ w, ∀ u thu,
    (effort q' u thu <=
     effort q u thu +
     if decide (u = w)
     then (if notifies NotEmpty th || notifies NotFull th then 3 else 0)
     else 0)%nat.
Proof.
  intros Hts.
  exists (default 0%nat (head (if notifies NotEmpty th then _not_empty q else _not_full q))).
  intros u thu.
  pose proof (waiters_kept NotEmpty t th q th' q' u Hts) as Hne.
  pose proof (waiters_kept NotFull t th q th' q' u Hts) as Hnf.
  cbn [waiters] in Hne, Hnf.
  assert (Hex : notifies NotEmpty th = true → notifies NotFull th = false).
  { destruct th as [p [[x pc|pc|pc]|]]; simpl; try discriminate;
      destruct pc; simpl; auto; discriminate. }
  destruct (decide _) as [Hw|Hw].
  - destruct (notifies NotEmpty th) eqn:E1; cbn [orb]; [apply effort_le3|].
    destruct (notifies NotFull th) eqn:E2; [apply effort_le3|].
    rewrite Nat.add_0_r. apply effort_le; intros Hin.
    + destruct (Hne Hin) as [?|[? _]]; [assumption | discriminate].
    + destruct (Hnf Hin) as [?|[? _]]; [assumption | discriminate].
  - rewrite Nat.add_0_r. apply effort_le; intros Hin.
    + destruct (Hne Hin) as [?|[Hn Hh]]; [assumption|].
      exfalso. apply Hw. rewrite Hn, Hh. reflexivity.
    + destruct (Hnf Hin) as [?|[Hn Hh]]; [assumption|].
      exfalso. apply Hw. destruct (notifies NotEmpty th) eqn:E1.
      * rewrite (Hex eq_refl) in Hn. discriminate.
      * rewrite Hh. reflexivity.
Qed.

Lemma work_step c t s s' :
  monitor_inv c s →
  (∀ u th, threads s !! u = Some th → call_ok th ∧ fixed_calls (prog th)) →
  step t s = Some s' →
  (∀ u th, threads s' !! u = Some th → call_ok th ∧ fixed_calls (prog th)) ∧
  (work_left s' < work_left s)%nat.
Proof.
  intros (_ & _ & _ & Hok) Hths Hstep. unfold step in Hstep.
  destruct (threads s !! t) as [th|] eqn:Hth; simpl in Hstep; [|discriminate].
  destruct (thread_step t th (queue s)) as [[th' q']|] eqn:Hts; simpl in Hstep;
    [|discriminate].
  inversion Hstep; subst s'; clear Hstep.
  destruct (Hths t th Hth) as [Hcall Hfix].
  destruct (effort_step c t th (queue s) th' q' (Hok t th Hth) Hcall Hfix Hts)
    as (Hcall' & Hfix' & Hown).
  split.
  - simpl. intros u thu Hu. destruct (decide (u = t)) as [->|Hne].
    + rewrite list_lookup_insert_eq in Hu by (eapply lookup_lt_Some; eassumption).
      inversion Hu; subst. auto.
    + rewrite list_lookup_insert_ne in Hu by congruence. apply (Hths u thu Hu).
  - unfold work_left. cbn [queue threads].
    pose proof (count_insert (effort q') (threads s) 0%nat t th th' Hth) as Hins.
    rewrite Nat.add_0_l in Hins.
    destruct (effort_frame t th (queue s) th' q' Hts) as [w Hframe].
    pose proof (count_bump_le (effort (queue s)) (effort q') (threads s) w
                  (if notifies NotEmpty th || notifies NotFull th then 3 else 0)%nat
                  0%nat) as Hle.
    assert (Hle' := Hle ltac:(intros u thu _; rewrite Nat.add_0_l; apply Hframe)).
    unfold tid in *. destruct (_ || _); lia.
Qed.

Lemma moves_le_work c sched : ∀ s,
  monitor_inv c s →
  (∀ u th, threads s !! u = Some th → call_ok th ∧ fixed_calls (prog th)) →
  (moves sched s <= work_left s)%nat.
Proof.
  induction sched as [|t sched IH]; intros s Hm Hths; simpl; [lia|].
  destruct (step t s) as [s'|] eqn:Hstep; [|auto].
  destruct (work_step c t s s' Hm Hths Hstep) as [Hths' Hlt].
  assert (moves sched s' <= work_left s')%nat; [|lia].
  apply IH; [eapply monitor_step; eassumption | assumption].
Qed.

Lemma one_sided_fixed p : one_sided p → fixed_calls p.
Proof. destruct p; simpl; auto. Qed.

(** A burst whose puts outnumber its gets by no more than the capacity can
    always be run to its end. *)
Lemma burst_completes c excess n : ∀ s,
  0 < c → 0 <= excess <= c →
  (work_left s <= n)%nat →
  monitor_inv c s → waiters_asleep s → wake_inv c s → burst_inv excess s →
  ∃ rest, all_finished (exec rest s) = true.
Proof.
  induction n as [|n IH]; intros s Hc Hex Hle Hm W I Hb.
  - destruct (all_finished s) eqn:Hfin; [exists []; assumption|].
    destruct (burst_progress c excess s Hc Hex Hm I Hb Hfin) as (t & s' & Hstep).
    destruct (work_step c t s s' Hm) as [_ Hlt]; [|assumption|lia].
    intros u th Hu. destruct Hb as [Hths _]. destruct (Hths u th Hu).
    auto using one_sided_fixed.
  - destruct (all_finished s) eqn:Hfin; [exists []; assumption|].
    destruct (burst_progress c excess s Hc Hex Hm I Hb Hfin) as (t & s' & Hstep).
    destruct (work_step c t s s' Hm) as [_ Hlt]; [|eassumption|].
    { intros u th Hu. destruct Hb as [Hths _]. destruct (Hths u th Hu).
      auto using one_sided_fixed. }
    destruct (IH s') as [rest Hrest]; try assumption; try lia.
    + eapply monitor_step; eassumption.
    + eapply waiters_asleep_step; eassumption.
    + eapply wake_step; eassumption.
    + eapply burst_step; eassumption.
    + exists (t :: rest). simpl. rewrite Hstep. assumption.
Qed.

Lemma work_left_spawn q progs : ∀ k,
  count_from (effort q) k (spawn progs) =
  (weight * sum_list (map calls_of progs) + 4 * length progs)%nat.
Proof.
  induction progs as [|p progs IH]; intros k; simpl; [reflexivity|].
  rewrite IH. unfold effort, calls_left, rank, weight. simpl. lia.
Qed.


(** X17. A burst runs to its end: when every thread only puts or only gets
    (it may read the size) and the puts outnumber the gets by no more than
    the capacity, then under any interleaving some thread can move as long
    as one has not ended, the turns that follow can be chosen so that all
    end, and once all have ended the buffer holds exactly the excess of
    puts (it is empty when there are as many gets as puts). *)
Theorem burst_runs_to_its_end (c : Z) (q0 : BoundedBlockingQueue)
    (progs : list program) (sched : list tid) :
  __init__ (PyInt c) = inr q0 →
  Forall (λ p, results p = []) progs →
  Forall one_sided progs →
  let s0 := System q0 (spawn progs) in
  let excess := Z.of_nat (puts_to_come s0) - Z.of_nat (gets_to_come s0) in
  0 <= excess <= c →
  let s := exec sched s0 in
  (all_finished s = false → ∃ t s', step t s = Some s') ∧
  (∃ rest, all_finished (exec rest s) = true) ∧
  (all_finished s = true → len (queue s) = excess).
Proof.
  intros Hinit Hres Hone s0 excess Hex s.
  pose proof (init_int c q0 Hinit) as [Hc _].
  assert (Hm0 : monitor_inv c s0) by (apply monitor_init; assumption).
  assert (Hm : monitor_inv c s) by (apply monitor_exec; assumption).
  destruct (wake_init c q0 progs Hinit) as [W0 I0].
  destruct (wake_exec c sched s0 Hm0 W0 I0) as [W I]. fold s in W, I.
  assert (Hb : burst_inv excess s)
    by (apply (burst_exec c); [assumption | apply (burst_init c); assumption]).
  split; [|split].
  - apply (burst_progress c excess); assumption.
  - apply (burst_completes c excess (work_left s)); auto.
  - apply burst_finished. assumption.
Qed.

Lemma burst_runs_to_its_end_witness :
  let s0 := System (empty_queue (PyInt 1))
              (spawn [Script [OpPut (int_obj 1); OpPut (int_obj 2)] [];
                      Script [OpGet; OpQsize] [];
                      Script [OpPut (int_obj 3)] [];
                      Script [OpGet; OpGet] []]) in
  let s := exec [3; 3; 3; 3; 0; 2; 0; 0; 2; 1; 0; 0; 0; 2; 1; 3]%nat s0 in
  (all_finished s = false → ∃ t s', step t s = Some s') ∧
  (∃ rest, all_finished (exec rest s) = true) ∧
  (all_finished s = true →
   len (queue s) = Z.of_nat (puts_to_come s0) - Z.of_nat (gets_to_come s0)).
Proof.
  apply (burst_runs_to_its_end 1 (empty_queue (PyInt 1))
           [Script [OpPut (int_obj 1); OpPut (int_obj 2)] [];
            Script [OpGet; OpQsize] [];
            Script [OpPut (int_obj 3)] [];
            Script [OpGet; OpGet] []]
           [3; 3; 3; 3; 0; 2; 0; 0; 2; 1; 0; 0; 0; 2; 1; 3]%nat).
  - reflexivity.
  - repeat constructor.
  - repeat (constructor; [simpl; auto|]). constructor.
  - vm_compute. split; discriminate.
Defined.

(** X18. No thread spins: when the number of calls of every thread is
    fixed ([Producer.run], or a caller making a given sequence of calls),
    no interleaving has more than ten moves for each call and four for each
    thread, however often a woken thread finds the buffer taken again. *)
Theorem moves_are_bounded (c : Z) (q0 : BoundedBlockingQueue)
    (progs : list program) (sched : list tid) :
  __init__ (PyInt c) = inr q0 →
  Forall (λ p, results p = []) progs →
  Forall fixed_calls progs →
  (moves sched (System q0 (spawn progs)) <=
   10 * sum_list (map calls_of progs) + 4 * length progs)%nat.
Proof.
  intros Hinit Hres Hfix.
  etransitivity; [apply (moves_le_work c)|].
  - apply monitor_init; assumption.
  - intros u th Hu. simpl in Hu. unfold spawn in Hu.
    apply (list_lookup_fmap_Some_1 (λ p, Thread p None)) in Hu as (p & -> & Hp).
    split; [intros cl Hcl; discriminate|]. simpl.
    rewrite Forall_forall in Hfix. apply Hfix.
    eapply list_elem_of_lookup_2; eassumption.
  - unfold work_left. cbn [queue threads]. rewrite work_left_spawn. unfold weight. lia.
Qed.

Lemma moves_are_bounded_witness :
  (moves [3; 3; 3; 3; 0; 2; 0; 0; 2; 1; 0; 0; 0; 2; 1; 3]%nat
     (System (empty_queue (PyInt 1))
        (spawn [ProducerRun [int_obj 1; int_obj 2] SENTINEL false;
                Script [OpGet; OpQsize] [];
                Script [OpPut (int_obj 3)] [];
                Script [OpGet; OpGet; OpPut (int_obj 4)] []])) <=
   10 * sum_list (map calls_of
                    [ProducerRun [int_obj 1; int_obj 2] SENTINEL false;
                     Script [OpGet; OpQsize] [];
                     Script [OpPut (int_obj 3)] [];
                     Script [OpGet; OpGet; OpPut (int_obj 4)] []]) +
   4 * length [ProducerRun [int_obj 1; int_obj 2] SENTINEL false;
               Script [OpGet; OpQsize] [];
               Script [OpPut (int_obj 3)] [];
               Script [OpGet; OpGet; OpPut (int_obj 4)] []])%nat.
Proof.
  apply (moves_are_bounded 1 (empty_queue (PyInt 1))
           [ProducerRun [int_obj 1; int_obj 2] SENTINEL false;
            Script [OpGet; OpQsize] [];
            Script [OpPut (int_obj 3)] [];
            Script [OpGet; OpGet; OpPut (int_obj 4)] []]
           [3; 3; 3; 3; 0; 2; 0; 0; 2; 1; 0; 0; 0; 2; 1; 3]%nat).
  - reflexivity.
  - repeat constructor.
  - repeat constructor.
Defined.

(** ** The order of appends and pops *)

Lemma buffer_step t th q th' q' :
  thread_step t th q = Some (th', q') →
  _queue q ++ appends th = pops q th ++ _queue q'.
Proof.
  intros Hts. destruct q as [m b l ne nf].
  destruct th as [p [[x pc|pc|pc]|]]; unfold thread_step in Hts;
    cbn [prog cur] in Hts.
  1-3: destruct pc; step_inv Hts; unfold appends, pops; simpl;
    rewrite ?app_nil_r; reflexivity.
  destruct (next p); simpl in Hts; [|discriminate].
  inversion Hts; subst. unfold appends, pops; simpl. rewrite app_nil_r. reflexivity.
Qed.


(** X19. First in, first out under any interleaving: whatever the threads
    run and however they are scheduled, the items popped so far, in the
    order of the pops, followed by the buffer, are the buffer at the start
    followed by the items appended so far, in the order of the appends. *)
Theorem fifo_under_any_interleaving (sched : list tid) : ∀ s : system,
  _queue (queue s) ++ appended sched s =
  popped sched s ++ _queue (queue (exec sched s)).
Proof.
  induction sched as [|t sched IH]; intros s; simpl;
    [rewrite app_nil_r; reflexivity|].
  destruct (step t s) as [s'|] eqn:Hstep; simpl; [|apply IH].
  unfold step in Hstep.
  destruct (threads s !! t) as [th|] eqn:Hth; simpl in Hstep; [|discriminate].
  destruct (thread_step t th (queue s)) as [[th' q']|] eqn:Hts; simpl in Hstep;
    [|discriminate].
  inversion Hstep; subst s'; clear Hstep. simpl.
  rewrite app_assoc, (buffer_step t th (queue s) th' q' Hts), <- !app_assoc.
  f_equal. apply (IH (System q' (<[t:=th']> (threads s)))).
Qed.

